(** * source-postgres: the capture loop, the backfill scanner and state reconciliation

    A shallow embedding of [source-postgres/capture.go] and
    [source-postgres/backfill.go].  Go values are modelled as follows:

    - [string] is a Rocq [string] (a byte sequence);
    - [[]byte] is [bytes], an optional byte list, [None] being the nil slice;
    - [map[string]T] is a [gmap string T];
    - the Go [int] counter is a [Z] kept in the signed 64-bit range by [wrap_int];
    - [float64] configuration fields are primitive floats;
    - an [error] is a value of [error], a chain of [%w] wrappers over a leaf;
    - a function that returns [(T, error)] returns an [outcome T];
    - methods of [*capture] are functions in the state monad [M] over the
      [capture] record;
    - the database connections, the tuple codec and the result-set buffer,
      whose code is not part of these two files, are interfaces (type classes)
      over which the development is parametric. *)

From Stdlib Require Import ZArith String Ascii List Bool Floats Lia DecimalString Sorted.
From stdpp Require Import base option list gmap strings.

Open Scope string_scope.
Open Scope Z_scope.
Open Scope list_scope.

(** ** Errors and outcomes *)

(** Go [error] values: the two context sentinels, any other leaf error, and
    [fmt.Errorf("<msg>: %w", err)].  Messages keep the constant part of the
    format string only. *)
Inductive error : Type :=
| context_DeadlineExceeded
| context_Canceled
| errors_New (msg : string)
| Errorf_w (msg : string) (cause : error).

Definition error_eq_dec (a b : error) : {a = b} + {a <> b}.
Proof. decide equality; apply string_dec. Defined.

(** [errors.Is]: follows the [Unwrap] chain. *)
Fixpoint errors_Is (err target : error) : bool :=
  if error_eq_dec err target then true
  else match err with
       | Errorf_w _ cause => errors_Is cause target
       | _ => false
       end.

(** What a call can do: return a value, return an error, panic, or (for the
    one loop of the model that is bounded by fuel) not finish within it. *)
Inductive outcome (A : Type) : Type :=
| Ok (a : A)
| Err (e : error)
| Panic
| OutOfFuel.
Arguments Ok {A} a.
Arguments Err {A} e.
Arguments Panic {A}.
Arguments OutOfFuel {A}.

(** ** Strings *)

(** [%d] of [fmt]. *)
Definition itoa (n : Z) : string := NilZero.string_of_int (Z.to_int n).

(** [strings.Join]. *)
Fixpoint strings_Join (elems : list string) (sep : string) : string :=
  match elems with
  | [] => ""
  | [x] => x
  | x :: rest => x +:+ sep +:+ strings_Join rest sep
  end.

Definition lower_ascii (c : ascii) : ascii :=
  let n := N_of_ascii c in
  if ((65 <=? n) && (n <=? 90))%N then ascii_of_N (n + 32) else c.

(** [strings.ToLower], on ASCII identifiers (bytes outside [A-Z] are kept). *)
Fixpoint strings_ToLower (s : string) : string :=
  match s with
  | EmptyString => EmptyString
  | String c rest => String (lower_ascii c) (strings_ToLower rest)
  end.

(** The strings on which [strings_ToLower] is [strings.ToLower]: every byte
    is below 128. *)
Fixpoint isASCII (s : string) : bool :=
  match s with
  | EmptyString => true
  | String c rest => (N_of_ascii c <? 128)%N && isASCII rest
  end.

(** Splits at the first occurrence of the one-byte separator [sep]:
    [None] when [sep] does not occur. *)
Fixpoint cut_at (sep : ascii) (s : string) : option (string * string) :=
  match s with
  | EmptyString => None
  | String c rest =>
      if Ascii.eqb c sep then Some (EmptyString, rest)
      else match cut_at sep rest with
           | Some (a, b) => Some (String c a, b)
           | None => None
           end
  end.

(** [strings.SplitN(s, ".", 2)]. *)
Definition strings_SplitN2 (s : string) : list string :=
  match cut_at "."%char s with
  | Some (a, b) => [a; b]
  | None => [s]
  end.

(** [sort.Strings]: ascending in the byte order of Go's [<] on strings. *)
Fixpoint insert_sorted (x : string) (l : list string) : list string :=
  match l with
  | [] => [x]
  | y :: rest => if String.leb x y then x :: l else y :: insert_sorted x rest
  end.

Definition sort_Strings (l : list string) : list string :=
  foldr insert_sorted [] l.

(** ** Values, events and messages *)

(** A nil or non-nil [[]byte]. *)
Definition bytes : Type := option (list Byte.byte).

(** The dynamic types [translateRecordField] dispatches on.  [VMarshaler] and
    [VOther] record whether [json.Marshal] accepts the value. *)
Inductive value : Type :=
| VNil
| VString (s : string)
| VIPNet (text : string)                         (* *net.IPNet and its String() *)
| VHardwareAddr (text : string)                  (* net.HardwareAddr and its String() *)
| VUUID (octets : list Z)                        (* [16]uint8 *)
| VMarshaler (marshals : bool) (repr : string)   (* implements json.Marshaler *)
| VTextEncoder (text : string) (err : option error) (* pgtype.TextEncoder only *)
| VOther (marshals : bool) (repr : string).

(** [changeEvent]; [LSN] is the log position the replication reader attaches
    to the event (it is not set on rows that come from a table scan). *)
Record changeEvent : Type := mkEvent {
  Type_ : string;
  Namespace : string;
  Table : string;
  Fields : gmap string value;
  LSN : Z
}.

(** [PersistentState] and [TableState]. *)
Record TableState : Type := mkTableState {
  Mode : string;
  ScanKey : list string;
  Scanned : bytes
}.

Record PersistentState : Type := mkPersistentState {
  CurrentLSN : Z;
  Streams : option (gmap string TableState)   (* [None] is the nil map *)
}.

Definition tableModeBackfill : string := "Backfill".
Definition tableModeActive : string := "Active".
Definition tableModeIgnore : string := "Ignore".
Definition defaultSchemaName : string := "public".

(** The two kinds of [airbyte.Message] the capture writes.  [Data] is the
    object that [json.Marshal] serialises; [EmittedAt] is a wall-clock reading
    and is left out. *)
Inductive Message : Type :=
| MessageRecord (ns stream : string) (data : gmap string value)
| MessageState (ps : PersistentState).

(** ** backfill.go *)

Module backfill.

(** [backfillChunkSize]'s initial value. *)
Definition defaultChunkSize : Z := 4096.

(** The loop of [buildScanQuery] that builds [pkey] and [args]; [idx] is the
    index of the head of [keyColumns]. *)
Fixpoint keyLists (idx : Z) (keyColumns : list string) (pkey args : string)
  : string * string :=
  match keyColumns with
  | [] => (pkey, args)
  | colName :: rest =>
      let pkey := if 0 <? idx then pkey +:+ ", " else pkey in
      let args := if 0 <? idx then args +:+ ", " else args in
      keyLists (idx + 1) rest (pkey +:+ colName) (args +:+ "$" +:+ itoa (idx + 1))
  end.

(** [buildScanQuery]; the package variable [backfillChunkSize] is the first
    argument. *)
Definition buildScanQuery (backfillChunkSize : Z) (start : bool)
    (keyColumns : list string) (schemaName tableName : string) : string :=
  let '(pkey, args) := keyLists 0 keyColumns "" "" in
  let query := "SELECT * FROM " +:+ schemaName +:+ "." +:+ tableName in
  let query := if negb start
               then query +:+ " WHERE (" +:+ pkey +:+ ") > (" +:+ args +:+ ")"
               else query in
  let query := query +:+ " ORDER BY (" +:+ pkey +:+ ")" in
  query +:+ " LIMIT " +:+ itoa backfillChunkSize +:+ ";".

(** What [db.conn.Query] gives back: the column names and, row by row, what
    [rows.Values()] returns. *)
Record queryRows : Type := mkRows {
  FieldDescriptions : list string;
  Values : list (outcome (list value))
}.

(** [fields[cols[idx].Name] = vals[idx]] for every column. *)
Fixpoint rowFields (cols : list string) (vals : list value)
    (fields : gmap string value) : outcome (gmap string value) :=
  match cols, vals with
  | [], _ => Ok fields
  | _ :: _, [] => Panic                      (* index out of range *)
  | col :: cols', v :: vals' => rowFields cols' vals' (<[col := v]> fields)
  end.

(** The [rows.Next()] loop of [ScanTableChunk]. *)
Fixpoint scanRows (schemaName tableName : string) (cols : list string)
    (rows : list (outcome (list value))) (events : list changeEvent)
  : outcome (list changeEvent) :=
  match rows with
  | [] => Ok events
  | Ok vals :: rest =>
      match rowFields cols vals ∅ with
      | Ok fields =>
          scanRows schemaName tableName cols rest
            (events ++ [mkEvent "Insert" schemaName tableName fields 0])
      | Err e => Err e
      | Panic => Panic
      | OutOfFuel => OutOfFuel
      end
  | Err e :: _ => Err (Errorf_w "unable to get row values" e)
  | Panic :: _ => Panic
  | OutOfFuel :: _ => OutOfFuel
  end.

(** [ScanTableChunk]; [Query] stands for [db.conn.Query(ctx, query, resumeKey...)]
    and [resumeKey] is [None] for the nil slice. *)
Definition ScanTableChunk (backfillChunkSize : Z)
    (Query : string -> list value -> outcome queryRows)
    (streamID : string) (keyColumns : list string)
    (resumeKey : option (list value)) : outcome (list changeEvent) :=
  match strings_SplitN2 streamID with
  | [schemaName; tableName] =>
      let query := buildScanQuery backfillChunkSize
                     (bool_decide (resumeKey = None)) keyColumns schemaName tableName in
      match Query query (default [] resumeKey) with
      | Ok rows => scanRows schemaName tableName (FieldDescriptions rows) (Values rows) []
      | Err e => Err (Errorf_w "unable to execute query" e)
      | Panic => Panic
      | OutOfFuel => OutOfFuel
      end
  | _ => Panic                               (* parts[1]: index out of range *)
  end.

End backfill.

(** ** The collaborators of capture.go *)

(** The catalog types of [github.com/estuary/protocols/airbyte] that
    [updateState] and [RunCapture] read. *)
Module airbyte.
Record Stream : Type := mkStream {
  Name : string;
  Namespace : string
}.
Record ConfiguredStream : Type := mkConfiguredStream {
  Stream_ : Stream;
  PrimaryKey : list (list string)
}.
Record ConfiguredCatalog : Type := mkCatalog {
  Streams : list ConfiguredStream;
  Tail : bool
}.
End airbyte.

(** The fields of [Config] that the capture reads. *)
Record Config : Type := mkConfig {
  ConnectionURI : string;
  SlotName : string;
  PublicationName : string;
  WatermarksTable : string;
  PollTimeoutSeconds : float;
  MaxLifespanSeconds : float
}.

(** Modelled from the spec: the replication stream reader (§4.D), whose code
    is not in capture.go.  [Events] is what the event channel still delivers
    before it is closed, in order; [CurrentLSN] is the committed log position
    the reader tracks, the position of the last Commit it has delivered. *)
Module replication.
Record replicationStream : Type := mkStream {
  Events : list changeEvent;
  CurrentLSN : Z
}.

(** Receiving [evt] from the channel, [rest] being what is left on it. *)
Definition received (evt : changeEvent) (rest : list changeEvent)
    (s : replicationStream) : replicationStream :=
  mkStream rest (if String.eqb (Type_ evt) "Commit" then LSN evt else CurrentLSN s).
End replication.

(** The tuple codec: [encodeRowKey] and [compareTuples]. *)
Class TupleCodec : Type := {
  encodeRowKey : list string -> gmap string value -> outcome bytes;
  compareTuples : bytes -> bytes -> Z
}.

(** The result-set buffer, [*resultSet]; [nil] is the nil pointer that
    [streamChanges] starts from.  [Patch] and [Buffer] update the buffer in
    place, so they return it. *)
Module resultSet.
Class Ops (RS : Type) : Type := {
  nil : RS;
  new : RS;
  Streams : RS -> list string;
  Changes : RS -> string -> list changeEvent;
  Complete : RS -> string -> bool;
  Scanned : RS -> string -> bytes;
  Patch : RS -> string -> changeEvent -> outcome RS;
  Buffer : RS -> string -> list string -> list changeEvent -> outcome RS
}.
End resultSet.

(** The scan connection [connScan] and the calls made on it; [W] is whatever
    the database and the connection are at a given moment. *)
Class Database (W : Type) : Type := {
  pgx_Connect : string -> outcome W;
  pgconn_ParseConfig : string -> option error;
  pgconn_ConnectConfig : string -> option error;
  startReplication : string -> string -> Z -> outcome replication.replicationStream;
  getPrimaryKeys : W -> outcome (gmap string (list string)) * W;
  writeWatermark : W -> string -> string -> outcome string * W;
  scanTable : W -> string -> list string -> bytes -> outcome (list changeEvent) * W
}.

(** [messageOutput]: what [Encode] answers for a message, given the messages
    it has accepted so far. *)
Class messageOutput : Type := {
  Encode : list Message -> Message -> option error
}.

(** ** capture.go *)

(** The Go [int] of [changesSinceLastCheckpoint]: 64 bits, two's complement. *)
Definition wrap_int (n : Z) : Z := (n + 2 ^ 63) mod 2 ^ 64 - 2 ^ 63.

Definition joinStreamID (namespace stream : string) : string :=
  let namespace := if String.eqb namespace "" then defaultSchemaName else namespace in
  strings_ToLower (namespace +:+ "." +:+ stream).

(** The entries of [ps.Streams]; reading a nil map finds nothing. *)
Definition streamsOf (ps : PersistentState) : gmap string TableState :=
  default ∅ (Streams ps).

(** [pendingStreams]: [[]] is the nil slice the callers test for. *)
Definition pendingStreams (ps : PersistentState) : list string :=
  sort_Strings
    (map_to_list (filter (λ kv, Mode kv.2 = tableModeBackfill) (streamsOf ps))).*1.

Definition hex_digit (n : Z) : ascii :=
  ascii_of_N (Z.to_N (if n <? 10 then 48 + n else 87 + n)).

(** [%02x] of a byte. *)
Definition hex2 (n : Z) : string :=
  String (hex_digit (n / 16)) (String (hex_digit (n mod 16)) EmptyString).

(** The [[16]uint8] case of [translateRecordField]; [i] is the index of the
    head of [x]. *)
Fixpoint uuidString (i : Z) (x : list Z) : string :=
  match x with
  | [] => ""
  | b :: rest =>
      (if (i =? 4) || (i =? 6) || (i =? 8) || (i =? 10) then "-" else "")
      +:+ hex2 b +:+ uuidString (i + 1) rest
  end.

Definition translateRecordField (val : value) : outcome value :=
  match val with
  | VIPNet text => Ok (VString text)
  | VHardwareAddr text => Ok (VString text)
  | VUUID x => Ok (VString (uuidString 0 x))
  | VMarshaler _ _ => Ok val
  | VTextEncoder text None => Ok (VString text)
  | VTextEncoder _ (Some err) => Err err
  | _ => Ok val
  end.

(** Whether [json.Marshal] accepts a value. *)
Definition marshals (val : value) : bool :=
  match val with
  | VMarshaler ok _ => ok
  | VOther ok _ => ok
  | _ => true
  end.

(** The loop of [handleChangeEvent] over [evt.Fields]; [kvs] is the part of
    the map that is still to be visited.  Go leaves the order of the visit
    open: the model visits in the order of [map_to_list]. *)
Fixpoint translateFields (kvs : list (string * value)) (fields : gmap string value)
  : outcome (gmap string value) :=
  match kvs with
  | [] => Ok fields
  | (id, val) :: rest =>
      match translateRecordField val with
      | Ok translated => translateFields rest (<[id := translated]> fields)
      | Err err => Err (Errorf_w "error translating field value" err)
      | Panic => Panic
      | OutOfFuel => OutOfFuel
      end
  end.

(** [catalogPrimaryKey] as [updateState] builds it: every element of the
    catalog's key names one column. *)
Fixpoint catalogKeyColumns (cols : list (list string)) (catalogPrimaryKey : list string)
  : outcome (list string) :=
  match cols with
  | [] => Ok catalogPrimaryKey
  | [col0] :: rest => catalogKeyColumns rest (catalogPrimaryKey ++ [col0])
  | _ :: _ => Err (errors_New "primary key element invalid")
  end.

(** [joinStreamID] of a catalog stream. *)
Definition catalogStreamID (catalogStream : airbyte.ConfiguredStream) : string :=
  joinStreamID (airbyte.Namespace (airbyte.Stream_ catalogStream))
               (airbyte.Name (airbyte.Stream_ catalogStream)).

Section Capture.
Context {W RS : Type}.
Context {DB : Database W} {Ops : resultSet.Ops RS} {Codec : TupleCodec}
        {Out : messageOutput}.

(** The [capture] struct.  [encoder] holds the messages that [Encode] has
    accepted; the watchdog timer is a matter of wall-clock time and is not
    part of the model. *)
Record capture : Type := mkCapture {
  state : PersistentState;
  config : Config;
  catalog : airbyte.ConfiguredCatalog;
  encoder : list Message;
  connScan : W;
  replStream : replication.replicationStream;
  changesSinceLastCheckpoint : Z
}.

(** *** The state monad of the methods of [*capture] *)

Definition M (A : Type) : Type := capture -> outcome A * capture.

Definition ret {A} (a : A) : M A := fun c => (Ok a, c).

(** The result of a call, continued by [k] when the call has returned a
    value. *)
Definition andThen {A B} (r : outcome A * capture) (k : A -> M B) : outcome B * capture :=
  match r with
  | (Ok a, c) => k a c
  | (Err e, c) => (Err e, c)
  | (Panic, c) => (Panic, c)
  | (OutOfFuel, c) => (OutOfFuel, c)
  end.

Definition bind {A B} (m : M A) (k : A -> M B) : M B :=
  fun c => andThen (m c) k.

(** The result of a call, its error wrapped. *)
Definition wrapped {A} (msg : string) (r : outcome A * capture) : outcome A * capture :=
  match r with
  | (Err e, c) => (Err (Errorf_w msg e), c)
  | r => r
  end.

Definition fail {A} (e : error) : M A := fun c => (Err e, c).

Definition panic {A} : M A := fun c => (Panic, c).

Definition outOfFuel {A} : M A := fun c => (OutOfFuel, c).

(** [if err != nil { return fmt.Errorf("<msg>: %w", err) }] *)
Definition wrapErr {A} (msg : string) (m : M A) : M A :=
  fun c => wrapped msg (m c).

(** A call whose error result is dropped. *)
Definition ignoreErr (m : M unit) : M unit :=
  fun c =>
    match m c with
    | (Err _, c') => (Ok tt, c')
    | r => r
    end.

(** A value computed outside the monad. *)
Definition lift {A} (o : outcome A) : M A := fun c => (o, c).

(** Reading a field of the receiver. *)
Definition gets {A} (f : capture -> A) : M A := fun c => (Ok (f c), c).

Definition setState (ps : PersistentState) : M unit :=
  fun c => (Ok tt, mkCapture ps (config c) (catalog c) (encoder c) (connScan c)
                             (replStream c) (changesSinceLastCheckpoint c)).

Definition setChanges (n : Z) : M unit :=
  fun c => (Ok tt, mkCapture (state c) (config c) (catalog c) (encoder c) (connScan c)
                             (replStream c) n).

(** Taking [evt] from the channel of [c.replStream], which is left with [rest]. *)
Definition receive (evt : changeEvent) (rest : list changeEvent) : M unit :=
  fun c => (Ok tt, mkCapture (state c) (config c) (catalog c) (encoder c) (connScan c)
                             (replication.received evt rest (replStream c))
                             (changesSinceLastCheckpoint c)).

(** A call on [c.connScan]. *)
Definition onConn {A} (f : W -> outcome A * W) : M A :=
  fun c =>
    ((f (connScan c)).1,
     mkCapture (state c) (config c) (catalog c) (encoder c) (f (connScan c)).2
               (replStream c) (changesSinceLastCheckpoint c)).

(** [c.encoder.Encode(msg)] *)
Definition encode (msg : Message) : M unit :=
  fun c =>
    match Encode (encoder c) msg with
    | None => (Ok tt, mkCapture (state c) (config c) (catalog c) (encoder c ++ [msg])
                                (connScan c) (replStream c) (changesSinceLastCheckpoint c))
    | Some err => (Err err, c)
    end.

Notation "'let*' x ':=' m 'in' k" := (bind m (fun x => k))
  (at level 10, x pattern, m at level 100, k at level 200).
Notation "m ';;' k" := (bind m (fun _ => k))
  (at level 100, k at level 200, right associativity).

(** *** Emitting *)

Definition emit (msg : Message) : M unit := encode msg.

(** [json.Marshal] of a [PersistentState] cannot fail. *)
Definition emitState (ps : PersistentState) : M unit :=
  setChanges 0 ;;
  emit (MessageState ps).

Definition emitRecord (ns stream : string) (data : gmap string value) : M unit :=
  let* n := gets changesSinceLastCheckpoint in
  setChanges (wrap_int (n + 1)) ;;
  if forallb (fun kv => marshals kv.2) (map_to_list data)
  then emit (MessageRecord ns stream data)
  else fail (Errorf_w "error encoding record data" (errors_New "json: unsupported value")).

Definition handleChangeEvent (evt : changeEvent) : M unit :=
  let fields := <["_change_type" := VString (Type_ evt)]> (Fields evt) in
  let* fields := lift (translateFields (map_to_list fields) fields) in
  emitRecord (Namespace evt) (Table evt) fields.

(** *** updateState *)

(** [c.state.Streams = streams] *)
Definition setStreams (streams : gmap string TableState) : M unit :=
  let* ps := gets state in
  setState (mkPersistentState (CurrentLSN ps) (Some streams)).

(** [c.state.CurrentLSN = lsn] *)
Definition setCurrentLSN (lsn : Z) : M unit :=
  let* ps := gets state in
  setState (mkPersistentState lsn (Streams ps)).

(** The first loop of [updateState], over [c.catalog.Streams]; it returns
    [stateDirty]. *)
Fixpoint updateStreams (dbPrimaryKeys : gmap string (list string))
    (streams : list airbyte.ConfiguredStream) (stateDirty : bool) : M bool :=
  match streams with
  | [] => ret stateDirty
  | catalogStream :: rest =>
      let streamID := catalogStreamID catalogStream in
      let* catalogPrimaryKey := lift (catalogKeyColumns (airbyte.PrimaryKey catalogStream) []) in
      let primaryKey := default [] (dbPrimaryKeys !! streamID) in
      let primaryKey := if bool_decide (catalogPrimaryKey = []) then primaryKey
                        else catalogPrimaryKey in
      if bool_decide (primaryKey = [])
      then fail (errors_New "primary key unspecified in the catalog and no primary key found in database")
      else
        let* ps := gets state in
        match streamsOf ps !! streamID with
        | None =>
            setStreams (<[streamID := mkTableState tableModeBackfill primaryKey None]> (streamsOf ps)) ;;
            updateStreams dbPrimaryKeys rest true
        | Some streamState =>
            if negb (String.eqb (strings_Join (ScanKey streamState) ",")
                                (strings_Join primaryKey ","))
            then fail (errors_New "primary key doesn't match initialized scan key")
            else updateStreams dbPrimaryKeys rest stateDirty
        end
  end.

(** The inner loop of the second loop of [updateState]. *)
Definition streamExistsInCatalog (streams : list airbyte.ConfiguredStream)
    (streamID : string) : bool :=
  existsb (fun catalogStream => String.eqb streamID (catalogStreamID catalogStream)) streams.

(** The second loop of [updateState]: the entries of streams that are not
    in the catalog are deleted; it returns [stateDirty]. *)
Definition forgetStreams (streams : list airbyte.ConfiguredStream) (stateDirty : bool)
  : M bool :=
  let* ps := gets state in
  if forallb (streamExistsInCatalog streams) (map_to_list (streamsOf ps)).*1
  then ret stateDirty
  else
    setStreams (filter (λ kv, streamExistsInCatalog streams kv.1 = true) (streamsOf ps)) ;;
    ret true.

Definition updateState : M unit :=
  let* ps := gets state in
  let* stateDirty :=
    (match Streams ps with
     | None => setStreams ∅ ;; ret true
     | Some _ => ret false
     end) in
  let* dbPrimaryKeys :=
    wrapErr "error querying database about primary keys" (onConn getPrimaryKeys) in
  let* catalog := gets catalog in
  let* stateDirty := updateStreams dbPrimaryKeys (airbyte.Streams catalog) stateDirty in
  let* stateDirty := forgetStreams (airbyte.Streams catalog) stateDirty in
  if stateDirty
  then (let* ps := gets state in ignoreErr (emitState ps))
  else ret tt.

(** *** streamToWatermark *)

(** What one turn of the loop of [streamToWatermark] decides: go on with the
    next event, or leave the function. *)
Inductive turn : Type :=
| Continue (watermarkReached : bool) (results : RS)
| Return (results : RS).

(** [evt.Fields["watermark"] == watermark]: an interface value equals a
    string when it holds that string. *)
Definition isWatermark (evt : changeEvent) (watermark : string) : bool :=
  match Fields evt !! "watermark" with
  | Some (VString s) => String.eqb s watermark
  | _ => false
  end.

(** [c.state.Streams[streamID].<field> = ...], a nil dereference when the
    stream has no entry. *)
Definition alterStream (streamID : string) (f : TableState -> TableState) : M unit :=
  let* ps := gets state in
  match streamsOf ps !! streamID with
  | Some ts => setStreams (<[streamID := f ts]> (streamsOf ps))
  | None => panic
  end.

(** The body of the loop of [streamToWatermark], for an event that has just
    been received. *)
Definition streamToWatermarkTurn (watermark : string) (watermarkReached : bool)
    (results : RS) (evt : changeEvent) : M turn :=
  if String.eqb (Type_ evt) "Commit" then
    let* repl := gets replStream in
    setCurrentLSN (replication.CurrentLSN repl) ;;
    if watermarkReached then ret (Return results)
    else ret (Continue watermarkReached results)
  else
    let streamID := joinStreamID (Namespace evt) (Table evt) in
    let* cfg := gets config in
    let watermarkReached :=
      if String.eqb streamID (WatermarksTable cfg)
      then (if isWatermark evt watermark then true else watermarkReached)
      else watermarkReached in
    let* ps := gets state in
    match streamsOf ps !! streamID with
    | None => ret (Continue watermarkReached results)
    | Some tableState =>
        if String.eqb (Mode tableState) tableModeIgnore then
          ret (Continue watermarkReached results)
        else if String.eqb (Mode tableState) tableModeActive then
          wrapErr "error handling replication event" (handleChangeEvent evt) ;;
          ret (Continue watermarkReached results)
        else if negb (String.eqb (Mode tableState) tableModeBackfill) then
          fail (errors_New "table in invalid mode")
        else
          let* rowKey := wrapErr "error encoding row key"
                           (lift (encodeRowKey (ScanKey tableState) (Fields evt))) in
          if compareTuples rowKey (Scanned tableState) <=? 0 then
            wrapErr "error handling replication event" (handleChangeEvent evt) ;;
            ret (Continue watermarkReached results)
          else
            let* results := wrapErr "error patching resultset"
                              (lift (resultSet.Patch results streamID evt)) in
            ret (Continue watermarkReached results)
    end.

(** The loop of [streamToWatermark] over the events the channel delivers;
    an empty list is the closed channel.  The result is [results], which
    [Patch] has updated in place. *)
Fixpoint streamToWatermarkLoop (events : list changeEvent) (watermark : string)
    (watermarkReached : bool) (results : RS) : M RS :=
  match events with
  | [] => ret results
  | evt :: rest =>
      receive evt rest ;;
      let* next := streamToWatermarkTurn watermark watermarkReached results evt in
      match next with
      | Continue watermarkReached results =>
          streamToWatermarkLoop rest watermark watermarkReached results
      | Return results => ret results
      end
  end.

Definition streamToWatermark (watermark : string) (results : RS) : M RS :=
  let* repl := gets replStream in
  streamToWatermarkLoop (replication.Events repl) watermark false results.

(** *** emitBuffered and backfillStreams *)

(** The loop of [emitBuffered] over [results.Changes(streamID)]. *)
Fixpoint emitChanges (evts : list changeEvent) : M unit :=
  match evts with
  | [] => ret tt
  | evt :: rest =>
      wrapErr "error handling backfill change" (handleChangeEvent evt) ;;
      emitChanges rest
  end.

(** The loop of [emitBuffered] over [results.Streams()]. *)
Fixpoint emitStreams (streams : list string) (results : RS) : M unit :=
  match streams with
  | [] => ret tt
  | streamID :: rest =>
      emitChanges (resultSet.Changes results streamID) ;;
      (if resultSet.Complete results streamID then
         alterStream streamID (fun ts => mkTableState tableModeActive (ScanKey ts) (Scanned ts)) ;;
         alterStream streamID (fun ts => mkTableState (Mode ts) (ScanKey ts) None)
       else
         alterStream streamID
           (fun ts => mkTableState (Mode ts) (ScanKey ts) (resultSet.Scanned results streamID))) ;;
      emitStreams rest results
  end.

Definition emitBuffered (results : RS) : M unit :=
  emitStreams (resultSet.Streams results) results ;;
  let* ps := gets state in
  emitState ps.

(** The loop of [backfillStreams]. *)
Fixpoint backfillLoop (streams : list string) (results : RS) : M RS :=
  match streams with
  | [] => ret results
  | streamID :: rest =>
      let* ps := gets state in
      match streamsOf ps !! streamID with
      | None => panic
      | Some streamState =>
          let* evts := wrapErr "error scanning table"
                         (onConn (fun w => scanTable w streamID (ScanKey streamState)
                                                     (Scanned streamState))) in
          let* results := wrapErr "error buffering scan results"
                            (lift (resultSet.Buffer results streamID (ScanKey streamState) evts)) in
          backfillLoop rest results
      end
  end.

Definition backfillStreams (streams : list string) : M RS :=
  backfillLoop streams resultSet.new.

(** *** streamChanges *)

(** [writeWatermark(ctx, c.connScan, c.config.WatermarksTable, c.config.SlotName)] *)
Definition writeWatermark_ : M string :=
  let* cfg := gets config in
  onConn (fun w => writeWatermark w (WatermarksTable cfg) (SlotName cfg)).

(** The [for c.state.pendingStreams() != nil] loop.  Nothing in the code
    bounds the number of its turns: [fuel] does. *)
Fixpoint interleave (fuel : nat) (watermark : string) (results : RS) : M unit :=
  let* ps := gets state in
  match pendingStreams ps with
  | [] => ret tt
  | _ :: _ =>
      match fuel with
      | O => outOfFuel
      | S fuel =>
          let* results := wrapErr "error streaming until watermark"
                            (streamToWatermark watermark results) in
          wrapErr "error emitting buffered results" (emitBuffered results) ;;
          let* ps := gets state in
          let* results := wrapErr "error performing backfill"
                            (backfillStreams (pendingStreams ps)) in
          let* watermark := wrapErr "error writing next watermark" writeWatermark_ in
          interleave fuel watermark results
      end
  end.

(** The body of the second loop of [streamChanges], for an event that has
    just been received. *)
Definition streamChangesTurn (evt : changeEvent) : M unit :=
  if String.eqb (Type_ evt) "Commit" then
    let* changes := gets changesSinceLastCheckpoint in
    if 0 <? changes then
      let* repl := gets replStream in
      setCurrentLSN (replication.CurrentLSN repl) ;;
      let* ps := gets state in
      wrapErr "error emitting state update" (emitState ps)
    else ret tt
  else
    let* ps := gets state in
    match streamsOf ps !! joinStreamID (Namespace evt) (Table evt) with
    | Some tableState =>
        if String.eqb (Mode tableState) tableModeActive
        then wrapErr "error handling replication event" (handleChangeEvent evt)
        else ret tt
    | None => ret tt
    end.

Fixpoint streamChangesLoop (events : list changeEvent) : M unit :=
  match events with
  | [] => ret tt
  | evt :: rest =>
      receive evt rest ;;
      streamChangesTurn evt ;;
      streamChangesLoop rest
  end.

(** The first half of [streamChanges]: the interleaved backfill. *)
Definition interleavedBackfill (fuel : nat) : M unit :=
  let* ps := gets state in
  match pendingStreams ps with
  | [] => ret tt
  | _ :: _ =>
      let* watermark := wrapErr "error writing dummy watermark" writeWatermark_ in
      interleave fuel watermark resultSet.nil
  end.

(** The second half of [streamChanges]: streaming. *)
Definition streaming : M unit :=
  let* repl := gets replStream in
  streamChangesLoop (replication.Events repl).

Definition streamChanges (fuel : nat) : M unit :=
  interleavedBackfill fuel ;;
  streaming.

(** What the first loop of [streamChanges] still does after the checkpoint
    of one of its turns, [fuel] turns being left to it. *)
Definition nextTurns (fuel : nat) : M unit :=
  let* ps := gets state in
  let* results := wrapErr "error performing backfill"
                    (backfillStreams (pendingStreams ps)) in
  let* watermark := wrapErr "error writing next watermark" writeWatermark_ in
  interleave fuel watermark results.

(** What [streamChanges] still does after that checkpoint. *)
Definition afterCheckpoint (fuel : nat) : M unit :=
  nextTurns fuel ;;
  streaming.

(** *** RunCapture *)

(** The tail of [RunCapture]: what it returns for what [streamChanges]
    returned. *)
Definition exitStatus (config : Config) (catalog : airbyte.ConfiguredCatalog)
    (r : outcome unit) : outcome unit :=
  match r with
  | Err err =>
      if errors_Is err context_DeadlineExceeded
         && negb (PrimFloat.eqb (MaxLifespanSeconds config) 0%float)
      then Ok tt
      else if errors_Is err context_Canceled && negb (airbyte.Tail catalog)
      then Ok tt
      else Err err
  | r => r
  end.

(** [RunCapture], with an encoder [dest] that has accepted nothing yet.  The
    result is the returned error and what the encoder has accepted at the
    return.  The contexts and their timers are wall-clock matters: in the
    model they show in the context errors that the calls on the connections
    return. *)
Definition RunCapture (fuel : nat) (config : Config)
    (catalog : airbyte.ConfiguredCatalog) (state : PersistentState)
  : outcome unit * list Message :=
  match pgx_Connect (ConnectionURI config) with
  | Err err => (Err (Errorf_w "unable to connect to database for table scan" err), [])
  | Panic => (Panic, [])
  | OutOfFuel => (OutOfFuel, [])
  | Ok connScan =>
      match pgconn_ParseConfig (ConnectionURI config) with
      | Some err => (Err err, [])
      | None =>
          match pgconn_ConnectConfig (ConnectionURI config) with
          | Some err => (Err (Errorf_w "unable to connect to database for replication" err), [])
          | None =>
              match startReplication (SlotName config) (PublicationName config)
                                     (CurrentLSN state) with
              | Err err => (Err (Errorf_w "unable to start replication stream" err), [])
              | Panic => (Panic, [])
              | OutOfFuel => (OutOfFuel, [])
              | Ok replStream =>
                  let c := mkCapture state config catalog [] connScan replStream 0 in
                  match wrapErr "error updating capture state" updateState c with
                  | (Ok _, c) =>
                      let '(r, c) := streamChanges fuel c in
                      (exitStatus config catalog r, encoder c)
                  | (r, c) => (r, encoder c)
                  end
              end
          end
      end
  end.

End Capture.

(** ** Instances of the interfaces *)

(** The instances below stand in for the code that is not in capture.go; the
    examples and the closed instances of the theorems run on them. *)
Module Fixture.

(** [bytes.Compare] on two byte lists. *)
Fixpoint lexCompare (a b : list Byte.byte) : comparison :=
  match a, b with
  | [], [] => Eq
  | [], _ :: _ => Lt
  | _ :: _, [] => Gt
  | x :: a', y :: b' =>
      match N.compare (Byte.to_N x) (Byte.to_N y) with
      | Eq => lexCompare a' b'
      | o => o
      end
  end.

Definition comparisonZ (o : comparison) : Z :=
  match o with Lt => -1 | Eq => 0 | Gt => 1 end.

(** A zero byte inside a string is followed by [0xff], so that the
    terminating zero byte is the only bare one. *)
Fixpoint escapeZero (l : list Byte.byte) : list Byte.byte :=
  match l with
  | [] => []
  | b :: rest =>
      if (Byte.to_N b =? 0)%N then b :: Byte.xff :: escapeZero rest
      else b :: escapeZero rest
  end.

(** Modelled from the spec: the tuple codec (§4.A) on null and string
    components, each with a leading tag; a string ends with a zero byte. *)
Definition encodeElement (v : value) : outcome (list Byte.byte) :=
  match v with
  | VNil => Ok [Byte.x00]
  | VString s => Ok (Byte.x02 :: escapeZero (list_byte_of_string s) ++ [Byte.x00])
  | _ => Err (errors_New "unsupported key component")
  end.

Fixpoint encodeColumns (cols : list string) (fields : gmap string value)
  : outcome (list Byte.byte) :=
  match cols with
  | [] => Ok []
  | col :: rest =>
      match fields !! col with
      | None => Err (errors_New "key column missing from the row")
      | Some v =>
          match encodeElement v, encodeColumns rest fields with
          | Ok a, Ok b => Ok (a ++ b)
          | Ok _, r => r
          | Err e, _ => Err e
          | Panic, _ => Panic
          | OutOfFuel, _ => OutOfFuel
          end
      end
  end.

#[export] Instance codec : TupleCodec := {
  encodeRowKey cols fields :=
    match encodeColumns cols fields with
    | Ok l => Ok (Some l)
    | Err e => Err e
    | Panic => Panic
    | OutOfFuel => OutOfFuel
    end;
  compareTuples a b := comparisonZ (lexCompare (default [] a) (default [] b))
}.

(** Modelled from the spec: one buffered chunk of the result-set buffer
    (§4.B): the rows in ascending order of their encoded key, whether the
    chunk was shorter than the chunk size, and the key of the last row the
    scan returned, the upper end of the chunk's key range. *)
Record chunk : Type := mkChunk {
  keyColumns : list string;
  rows : list (list Byte.byte * changeEvent);
  complete : bool;
  lastKey : bytes
}.

Fixpoint upsertRow (key : list Byte.byte) (evt : changeEvent)
    (rows : list (list Byte.byte * changeEvent)) : list (list Byte.byte * changeEvent) :=
  match rows with
  | [] => [(key, evt)]
  | (k, e) :: rest =>
      match lexCompare key k with
      | Lt => (key, evt) :: rows
      | Eq => (key, evt) :: rest
      | Gt => (k, e) :: upsertRow key evt rest
      end
  end.

Definition removeRow (key : list Byte.byte)
    (rows : list (list Byte.byte * changeEvent)) : list (list Byte.byte * changeEvent) :=
  List.filter (fun kv => negb (match lexCompare key kv.1 with Eq => true | _ => false end)) rows.

(** The rows of a scanned chunk, keyed. *)
Fixpoint bufferRows (keyColumns : list string) (evts : list changeEvent) (acc : chunk)
  : outcome chunk :=
  match evts with
  | [] => Ok acc
  | evt :: rest =>
      match encodeColumns keyColumns (Fields evt) with
      | Ok key =>
          bufferRows keyColumns rest
            (mkChunk keyColumns (upsertRow key evt (rows acc)) (complete acc) (Some key))
      | Err e => Err e
      | Panic => Panic
      | OutOfFuel => OutOfFuel
      end
  end.

Definition asInsert (evt : changeEvent) : changeEvent :=
  mkEvent "Insert" (Namespace evt) (Table evt) (Fields evt) (LSN evt).

(** Modelled from the spec: [patch] (§4.B).  Without a chunk for the stream
    the event is dropped; an event whose key lies in the chunk's key range
    overwrites (Insert, Update) or removes (Delete) the buffered row; an
    event outside the range is dropped. *)
Definition patchChunk (ch : chunk) (evt : changeEvent) : outcome chunk :=
  match encodeColumns (keyColumns ch) (Fields evt) with
  | Ok key =>
      if complete ch || (comparisonZ (lexCompare key (default [] (lastKey ch))) <=? 0) then
        if String.eqb (Type_ evt) "Delete"
        then Ok (mkChunk (keyColumns ch) (removeRow key (rows ch)) (complete ch) (lastKey ch))
        else if String.eqb (Type_ evt) "Insert" || String.eqb (Type_ evt) "Update"
        then Ok (mkChunk (keyColumns ch) (upsertRow key evt (rows ch)) (complete ch) (lastKey ch))
        else Ok ch
      else Ok ch
  | Err e => Err e
  | Panic => Panic
  | OutOfFuel => OutOfFuel
  end.

(** Modelled from the spec: the result-set buffer (§4.B), one chunk per
    stream; the nil buffer holds no chunk.  [changes] gives the rows in key
    order as Insert events, [scanned] the key of the last of them (the end
    of the key range when no row is left), and a chunk is complete when it
    has fewer rows than [chunkSize]. *)
#[export] Instance results (chunkSize : Z) : resultSet.Ops (gmap string chunk) := {
  resultSet.nil := ∅;
  resultSet.new := ∅;
  resultSet.Streams rs := sort_Strings (map_to_list rs).*1;
  resultSet.Changes rs streamID :=
    match rs !! streamID with
    | Some ch => map (fun kv => asInsert kv.2) (rows ch)
    | None => []
    end;
  resultSet.Complete rs streamID :=
    match rs !! streamID with
    | Some ch => complete ch
    | None => false
    end;
  resultSet.Scanned rs streamID :=
    match rs !! streamID with
    | Some ch => match last (rows ch) with
                 | Some kv => Some kv.1
                 | None => lastKey ch
                 end
    | None => None
    end;
  resultSet.Patch rs streamID evt :=
    match rs !! streamID with
    | None => Ok rs
    | Some ch =>
        match patchChunk ch evt with
        | Ok ch' => Ok (<[streamID := ch']> rs)
        | Err e => Err e
        | Panic => Panic
        | OutOfFuel => OutOfFuel
        end
    end;
  resultSet.Buffer rs streamID keyColumns evts :=
    match bufferRows keyColumns evts
            (mkChunk keyColumns [] (Z.of_nat (length evts) <? chunkSize) None) with
    | Ok ch => Ok (<[streamID := ch]> rs)
    | Err e => Err e
    | Panic => Panic
    | OutOfFuel => OutOfFuel
    end
}.

(** A database at rest: its tables (each with its rows in key order), the
    primary keys it reports, and the number of watermarks written so far. *)
Record world : Type := mkWorld {
  tables : gmap string (list changeEvent);
  primaryKeys : gmap string (list string);
  watermarksWritten : Z
}.

(** The rows of a table past the resume key. *)
Definition pastResume (keyColumns : list string) (resume : bytes) (evt : changeEvent) : bool :=
  match resume with
  | None => true
  | Some r =>
      match encodeColumns keyColumns (Fields evt) with
      | Ok key => match lexCompare key r with Gt => true | _ => false end
      | _ => false
      end
  end.

(** A database whose tables do not change, seen through a connection that
    never fails, and a replication slot whose log is [log]. *)
#[export] Instance database (chunkSize : Z) (w0 : world) (log : list changeEvent)
  : Database world := {
  pgx_Connect _ := Ok w0;
  pgconn_ParseConfig _ := None;
  pgconn_ConnectConfig _ := None;
  startReplication _ _ lsn := Ok (replication.mkStream log lsn);
  getPrimaryKeys w := (Ok (primaryKeys w), w);
  writeWatermark w _ _ :=
    (Ok ("watermark-" +:+ itoa (watermarksWritten w)),
     mkWorld (tables w) (primaryKeys w) (watermarksWritten w + 1));
  scanTable w streamID keyColumns resume :=
    (Ok (take (Z.to_nat chunkSize)
              (List.filter (pastResume keyColumns resume)
                           (default [] (tables w !! streamID)))), w)
}.

(** A database that answers every scan from the tables of [w0], whatever
    has been written through the connection since. *)
#[export] Instance snapshot (chunkSize : Z) (w0 : world) (log : list changeEvent)
  : Database world := {
  pgx_Connect _ := Ok w0;
  pgconn_ParseConfig _ := None;
  pgconn_ConnectConfig _ := None;
  startReplication _ _ lsn := Ok (replication.mkStream log lsn);
  getPrimaryKeys w := (Ok (primaryKeys w), w);
  writeWatermark w _ _ :=
    (Ok ("watermark-" +:+ itoa (watermarksWritten w)),
     mkWorld (tables w) (primaryKeys w) (watermarksWritten w + 1));
  scanTable w streamID keyColumns resume :=
    (Ok (take (Z.to_nat chunkSize)
              (List.filter (pastResume keyColumns resume)
                           (default [] (tables w0 !! streamID)))), w)
}.

(** The same database behind a connection whose context ends once the
    primary keys have been read: the queries that follow return [err]. *)
#[export] Instance interrupted (err : error) (w0 : world) (log : list changeEvent)
  : Database world := {
  pgx_Connect _ := Ok w0;
  pgconn_ParseConfig _ := None;
  pgconn_ConnectConfig _ := None;
  startReplication _ _ lsn := Ok (replication.mkStream log lsn);
  getPrimaryKeys w := (Ok (primaryKeys w), w);
  writeWatermark w _ _ := (Err err, w);
  scanTable w _ _ _ := (Err err, w)
}.

(** Modelled from the spec: the replay of the replication slot, which is not
    in capture.go; §4.D has the reader request the replay from
    [current_log_position].  Of the events that the log holds, the slot
    delivers those that lie past the position asked for. *)
Definition replay (log : list changeEvent) (lsn : Z) : list changeEvent :=
  List.filter (fun evt => lsn <? LSN evt) log.

(** The database of [snapshot] behind a replication slot that replays [log]
    from the position asked for. *)
#[export] Instance replayed (chunkSize : Z) (w0 : world) (log : list changeEvent)
  : Database world := {
  pgx_Connect _ := Ok w0;
  pgconn_ParseConfig _ := None;
  pgconn_ConnectConfig _ := None;
  startReplication _ _ lsn := Ok (replication.mkStream (replay log lsn) lsn);
  getPrimaryKeys w := (Ok (primaryKeys w), w);
  writeWatermark w _ _ :=
    (Ok ("watermark-" +:+ itoa (watermarksWritten w)),
     mkWorld (tables w) (primaryKeys w) (watermarksWritten w + 1));
  scanTable w streamID keyColumns resume :=
    (Ok (take (Z.to_nat chunkSize)
              (List.filter (pastResume keyColumns resume)
                           (default [] (tables w0 !! streamID)))), w)
}.

(** The encoder of the tests, which collects the messages in memory. *)
#[export] Instance memory : messageOutput := {
  Encode _ _ := None
}.

End Fixture.

(** ** The vocabulary of the properties *)

(** The query shapes of §4.C, without a statement terminator: the key columns
    and the placeholders [$1, $2, ...] of the resume key, separated by [", "]. *)
Definition scanKeyList (keyColumns : list string) : string :=
  strings_Join keyColumns ", ".

Definition resumePlaceholders (keyColumns : list string) : string :=
  strings_Join (map (fun i => "$" +:+ itoa i) (seqZ 1 (Z.of_nat (length keyColumns)))) ", ".

Definition startQueryShape (N : Z) (keyColumns : list string) (schema table : string) : string :=
  "SELECT * FROM " +:+ schema +:+ "." +:+ table
  +:+ " ORDER BY (" +:+ scanKeyList keyColumns +:+ ") LIMIT " +:+ itoa N.

Definition resumeQueryShape (N : Z) (keyColumns : list string) (schema table : string) : string :=
  "SELECT * FROM " +:+ schema +:+ "." +:+ table
  +:+ " WHERE (" +:+ scanKeyList keyColumns +:+ ") > (" +:+ resumePlaceholders keyColumns
  +:+ ") ORDER BY (" +:+ scanKeyList keyColumns +:+ ") LIMIT " +:+ itoa N.

(** What [strings_Join] adds after the first element. *)
Fixpoint joinTail (sep : string) (elems : list string) : string :=
  match elems with
  | [] => ""
  | x :: rest => sep +:+ x +:+ joinTail sep rest
  end.


(** An emitted record carries a [_change_type] field that holds a string. *)
Definition hasChangeType (m : Message) : Prop :=
  match m with
  | MessageRecord _ _ data => exists t, data !! "_change_type" = Some (VString t)
  | MessageState _ => True
  end.

(** [inv] holds after [m] whenever it holds before, whatever [m] returns. *)
Definition invariant {W A : Type} (inv : @capture W -> Prop) (m : M A) : Prop :=
  forall c, inv c -> inv (m c).2.

(** The flag [watermarkReached] after a row event [evt]. *)
Definition reachedAfter (cfg : Config) (watermark : string) (watermarkReached : bool)
    (evt : changeEvent) : bool :=
  if String.eqb (joinStreamID (Namespace evt) (Table evt)) (WatermarksTable cfg)
  then (if isWatermark evt watermark then true else watermarkReached)
  else watermarkReached.

Definition isCommit (evt : changeEvent) : bool := String.eqb (Type_ evt) "Commit".





(** The invariant of §3: a table in Active mode has no [scanned] value. *)
Definition tableConsistent (ts : TableState) : Prop :=
  Mode ts = tableModeActive -> Scanned ts = None.

Definition stateConsistent (ps : PersistentState) : Prop :=
  forall streamID ts, streamsOf ps !! streamID = Some ts -> tableConsistent ts.

Definition checkpointConsistent (m : Message) : Prop :=
  match m with
  | MessageState ps => stateConsistent ps
  | MessageRecord _ _ _ => True
  end.

(** The table states are consistent and so are all emitted checkpoints. *)
Definition consistent {W : Type} (c : @capture W) : Prop :=
  stateConsistent (state c) /\ Forall checkpointConsistent (encoder c).

(** Modelled from the spec: the result-set buffer holds chunks for the
    streams that have been buffered in it and for no others (§4.B); a nil
    or new buffer holds none, and a patch adds none. *)
Class ResultSetLaws (RS : Type) {Ops : resultSet.Ops RS} : Prop := {
  Streams_nil : resultSet.Streams (resultSet.nil (RS := RS)) = [];
  Streams_new : resultSet.Streams (resultSet.new (RS := RS)) = [];
  Streams_Buffer :
    forall (results results' : RS) streamID keyColumns evts,
      resultSet.Buffer results streamID keyColumns evts = Ok results' ->
      forall s, s ∈ resultSet.Streams results' -> s = streamID \/ s ∈ resultSet.Streams results;
  Streams_Patch :
    forall (results results' : RS) streamID evt,
      resultSet.Patch results streamID evt = Ok results' ->
      forall s, s ∈ resultSet.Streams results' -> s ∈ resultSet.Streams results
}.

(** Every stream with a buffered chunk has an entry that is not in Active
    mode. *)
Definition buffersPending {W RS : Type} {Ops : resultSet.Ops RS}
    (results : RS) (c : @capture W) : Prop :=
  forall s, s ∈ resultSet.Streams results ->
            exists ts, streamsOf (state c) !! s = Some ts /\ Mode ts = tableModeBackfill.

(** What [emitBuffered] makes of the TableState of a flushed stream. *)
Definition flushedTable {RS : Type} {Ops : resultSet.Ops RS} (results : RS)
    (streamID : string) (ts : TableState) : TableState :=
  if resultSet.Complete results streamID
  then mkTableState tableModeActive (ScanKey ts) None
  else mkTableState (Mode ts) (ScanKey ts) (resultSet.Scanned results streamID).

(** The number of records in [emitted] after its last State checkpoint, [n]
    being the number of records before [emitted] since a checkpoint. *)
Fixpoint recordsSince (emitted : list Message) (n : Z) : Z :=
  match emitted with
  | [] => n
  | MessageRecord _ _ _ :: rest => recordsSince rest (n + 1)
  | MessageState _ :: rest => recordsSince rest 0
  end.

Definition recordsSinceCheckpoint (emitted : list Message) : Z := recordsSince emitted 0.

(** The counter of changes counts the records emitted since the last
    checkpoint, as a Go [int] does. *)
Definition counted {W : Type} (c : @capture W) : Prop :=
  changesSinceLastCheckpoint c = wrap_int (recordsSinceCheckpoint (encoder c)).

(** [inv] holds after [m] has returned a value whenever it holds before. *)
Definition preserved {W A : Type} (inv : @capture W -> Prop) (m : M A) : Prop :=
  forall c, inv c -> match m c with (Ok _, c') => inv c' | _ => True end.

(** The rows among the emitted messages. *)
Definition isRecord (m : Message) : bool :=
  match m with
  | MessageRecord _ _ _ => true
  | MessageState _ => false
  end.

Definition records (emitted : list Message) : list Message := List.filter isRecord emitted.

(** One of two sequences of rows continues the other: neither has a row
    that the other has not at the same place, up to the end of the shorter. *)
Definition comparable (rows1 rows2 : list Message) : Prop :=
  rows1 `prefix_of` rows2 \/ rows2 `prefix_of` rows1.

(** The encoder of [c] holds [emitted] and what has been appended to it. *)
Definition appended {W : Type} (emitted : list Message) (c : @capture W) : Prop :=
  exists new, encoder c = emitted ++ new.

(** The replication log holds no row event of a captured stream: the
    captured tables do not change. *)
Definition quietEvent (streams : gmap string TableState) (evt : changeEvent) : Prop :=
  isCommit evt = true \/ streams !! joinStreamID (Namespace evt) (Table evt) = None.

Definition quiet {W : Type} (c : @capture W) : Prop :=
  Forall (quietEvent (streamsOf (state c))) (replication.Events (replStream c)).

(** Two captures, each with its own connections, encoder and replication
    log, that have the same table states, configuration and catalog, on a
    database whose captured tables do not change. *)
Definition related {W1 W2 : Type} (c1 : @capture W1) (c2 : @capture W2) : Prop :=
  Streams (state c1) = Streams (state c2)
  /\ config c1 = config c2
  /\ catalog c1 = catalog c2
  /\ quiet c1 /\ quiet c2.

(** [m1] and [m2] do the same to related captures: the rows that the one
    emits continue the rows that the other emits; when both return, with
    values related by [V], they have emitted the same rows and the captures
    are related again; when one returns and the other does not, the other
    has emitted a prefix of the rows of the one. *)
Definition sim {W1 W2 A1 A2 : Type} (V : A1 -> A2 -> Prop)
    (m1 : @M W1 A1) (m2 : @M W2 A2) : Prop :=
  forall c1 c2,
    related c1 c2 ->
    exists new1 new2,
      encoder (m1 c1).2 = encoder c1 ++ new1
      /\ encoder (m2 c2).2 = encoder c2 ++ new2
      /\ match (m1 c1).1, (m2 c2).1 with
         | Ok a1, Ok a2 =>
             V a1 a2 /\ related (m1 c1).2 (m2 c2).2 /\ records new1 = records new2
         | Ok _, _ => records new2 `prefix_of` records new1
         | _, Ok _ => records new1 `prefix_of` records new2
         | _, _ => comparable (records new1) (records new2)
         end.

(** [m] emits no row and leaves the table states alone, on a quiet log. *)
Definition rowless {W A : Type} (m : @M W A) : Prop :=
  forall c,
    quiet c ->
    exists new,
      encoder (m c).2 = encoder c ++ new
      /\ records new = []
      /\ Streams (state (m c).2) = Streams (state c)
      /\ config (m c).2 = config c
      /\ catalog (m c).2 = catalog c
      /\ quiet (m c).2.

(** The table states are those of the streams of the catalog: what
    [updateState] has left when it returned. *)
Definition settled (catalog : airbyte.ConfiguredCatalog) (ps : PersistentState) : Prop :=
  Streams ps <> None
  /\ (forall catalogStream,
        catalogStream ∈ airbyte.Streams catalog ->
        is_Some (streamsOf ps !! catalogStreamID catalogStream))
  /\ (forall streamID,
        is_Some (streamsOf ps !! streamID) ->
        streamExistsInCatalog (airbyte.Streams catalog) streamID = true).

(** The same streams have table states in [ps'] as in [ps]. *)
Definition sameTables (ps ps' : PersistentState) : Prop :=
  (Streams ps <> None -> Streams ps' <> None)
  /\ forall streamID,
       is_Some (streamsOf ps' !! streamID) <-> is_Some (streamsOf ps !! streamID).

(** [c'] is [c] but for its connection. *)
Definition sameButConn {W : Type} (c c' : @capture W) : Prop :=
  state c' = state c /\ config c' = config c /\ catalog c' = catalog c
  /\ encoder c' = encoder c /\ replStream c' = replStream c.

(** [c'] has the configuration, the catalog and the replication stream of [c]. *)
Definition sameSetup {W : Type} (c c' : @capture W) : Prop :=
  config c' = config c /\ catalog c' = catalog c /\ replStream c' = replStream c.

(** A capture of the streams of [catalog] with the configuration [config],
    on a quiet log, after [updateState]. *)
Definition steady {W : Type} (cfg : Config) (cat : airbyte.ConfiguredCatalog)
    (c : @capture W) : Prop :=
  settled cat (state c) /\ config c = cfg /\ catalog c = cat /\ quiet c.

(** A checkpoint holds the table states [streams]. *)
Definition keepsTables (streams : option (gmap string TableState)) (m : Message) : Prop :=
  match m with
  | MessageState ps => Streams ps = streams
  | MessageRecord _ _ _ => True
  end.

(** The capture [c] has the table states [streams], and what it has emitted
    after [emitted] are rows and checkpoints of these table states. *)
Definition streamingFrom {W : Type} (streams : option (gmap string TableState))
    (emitted : list Message) (c : @capture W) : Prop :=
  Streams (state c) = streams
  /\ exists new, encoder c = emitted ++ new /\ Forall (keepsTables streams) new.

(** From [ps] to [ps'] no stream has got or lost its table state, no scan
    key has changed, and a mode has changed to Active only. *)
Definition progressed (ps ps' : PersistentState) : Prop :=
  forall streamID,
    match streamsOf ps !! streamID, streamsOf ps' !! streamID with
    | Some ts, Some ts' =>
        ScanKey ts' = ScanKey ts /\ (Mode ts' = Mode ts \/ Mode ts' = tableModeActive)
    | None, None => True
    | _, _ => False
    end.

(** The states of the checkpoints among the emitted messages, in order. *)
Definition checkpoints (emitted : list Message) : list PersistentState :=
  omap (fun m => match m with
                 | MessageState ps => Some ps
                 | MessageRecord _ _ _ => None
                 end) emitted.

(** The checkpoints emitted so far and the current state, in this order,
    have progressed from one to the next. *)
Definition chained {W : Type} (c : @capture W) : Prop :=
  StronglySorted progressed (checkpoints (encoder c) ++ [state c]).

(** [m] is the record of the event [evt]: it has the namespace and the
    table of the event, and its data holds, for every field of the event
    and for [_change_type], the translation of the value. *)
Definition recordOf (evt : changeEvent) (m : Message) : Prop :=
  exists data,
    m = MessageRecord (Namespace evt) (Table evt) data
    /\ forall k v',
         data !! k = Some v'
         <-> exists v, <["_change_type" := VString (Type_ evt)]> (Fields evt) !! k = Some v
                       /\ translateRecordField v = Ok v'.

(** A row event of a stream whose table state is in Active mode. *)
Definition activeEvent (streams : gmap string TableState) (evt : changeEvent) : bool :=
  negb (isCommit evt)
  && match streams !! joinStreamID (Namespace evt) (Table evt) with
     | Some ts => String.eqb (Mode ts) tableModeActive
     | None => false
     end.

(** A row event that the drain emits at once: an event of a stream in
    Active mode, or of a stream in Backfill mode when its row key is not
    past what has been scanned. *)
Definition directEvent {Codec : TupleCodec} (streams : gmap string TableState)
    (evt : changeEvent) : bool :=
  negb (isCommit evt)
  && match streams !! joinStreamID (Namespace evt) (Table evt) with
     | Some ts =>
         if String.eqb (Mode ts) tableModeIgnore then false
         else if String.eqb (Mode ts) tableModeActive then true
         else if negb (String.eqb (Mode ts) tableModeBackfill) then false
         else match encodeRowKey (ScanKey ts) (Fields evt) with
              | Ok rowKey => compareTuples rowKey (Scanned ts) <=? 0
              | _ => false
              end
     | None => false
     end.

(** A database whose captured tables do not change between the calls and
    between two captures: a scan that returns rows returns the rows that its
    arguments determine, and the replication log holds no row event of a
    stream of the catalog. *)
Class Unchanged {W : Type} (DB : Database W) (catalog : airbyte.ConfiguredCatalog)
    (scan : string -> list string -> bytes -> list changeEvent) : Prop := {
  scan_unchanged : forall w streamID keyColumns resume evts,
      (scanTable w streamID keyColumns resume).1 = Ok evts ->
      evts = scan streamID keyColumns resume;
  log_unchanged : forall slot publication lsn repl,
      startReplication slot publication lsn = Ok repl ->
      Forall (fun evt => isCommit evt = true
                         \/ streamExistsInCatalog (airbyte.Streams catalog)
                              (joinStreamID (Namespace evt) (Table evt)) = false)
             (replication.Events repl)
}.

(** An emitted record of the configured watermarks table. *)
Definition onWatermarksTable (cfg : Config) (m : Message) : Prop :=
  match m with
  | MessageRecord ns stream _ => joinStreamID ns stream = WatermarksTable cfg
  | MessageState _ => False
  end.

(** The watermarks table is not captured: the state has no entry for it, or
    an entry in Ignore mode. *)
Definition watermarksUncaptured {W : Type} (c : @capture W) : Prop :=
  match streamsOf (state c) !! WatermarksTable (config c) with
  | None => True
  | Some ts => Mode ts = tableModeIgnore
  end.

(** From [c] to [c'] the configuration and the table states have stayed the
    same and no record of the watermarks table has been emitted. *)
Definition emittedNoWatermark {W : Type} (c c' : @capture W) : Prop :=
  config c' = config c
  /\ Streams (state c') = Streams (state c)
  /\ exists new, encoder c' = encoder c ++ new
                 /\ Forall (fun m => ~ onWatermarksTable (config c) m) new.

(** From [c] to [c'] nothing but the encoder and the counter of changes has
    changed. *)
Definition sameButOutput {W : Type} (c c' : @capture W) : Prop :=
  state c' = state c /\ config c' = config c /\ catalog c' = catalog c
  /\ connScan c' = connScan c /\ replStream c' = replStream c.

(** All records in the encoder carry their change type. *)
Definition typed {W : Type} (c : @capture W) : Prop := Forall hasChangeType (encoder c).

(** ** Concrete captures *)

(** A database with the table [public.t] of three rows keyed by [id], the
    watermarks table [public.flow_watermarks], and pieces of a replication
    log. *)
Module Scenario.
Import Fixture.

Definition row (id v : string) : changeEvent :=
  mkEvent "Insert" "public" "t" (<["id" := VString id]> (<["v" := VString v]> ∅)) 0.

Definition db : world :=
  mkWorld (<["public.t" := [row "1" "a"; row "2" "b"; row "3" "c"]]> ∅)
          (<["public.t" := ["id"]]> ∅) 0.

Definition cfg : Config :=
  mkConfig "postgres://localhost" "slot" "publication" "public.flow_watermarks"
           0%float 0%float.

Definition streamT : airbyte.ConfiguredStream :=
  airbyte.mkConfiguredStream (airbyte.mkStream "t" "public") [].

Definition streamWatermarks : airbyte.ConfiguredStream :=
  airbyte.mkConfiguredStream (airbyte.mkStream "flow_watermarks" "public") [["slot"]].

Definition tailing (streams : list airbyte.ConfiguredStream) : airbyte.ConfiguredCatalog :=
  airbyte.mkCatalog streams true.

(** The two events that the [n]-th watermark write leaves in the log. *)
Definition watermarkWrite (n lsn : Z) : list changeEvent :=
  [mkEvent "Update" "public" "flow_watermarks"
           (<["slot" := VString "slot"]>
              (<["watermark" := VString ("watermark-" +:+ itoa n)]> ∅)) lsn;
   mkEvent "Commit" "" "" ∅ (lsn + 1)].

Definition commit (lsn : Z) : changeEvent := mkEvent "Commit" "" "" ∅ lsn.

Definition update (id v : string) (lsn : Z) : changeEvent :=
  mkEvent "Update" "public" "t" (<["id" := VString id]> (<["v" := VString v]> ∅)) lsn.

Definition fresh : PersistentState := mkPersistentState 0 None.

(** [public.t] is in Backfill mode and has been scanned up to the key ["2"]. *)
Definition backfilling : PersistentState :=
  mkPersistentState 0
    (Some (<["public.t" := mkTableState tableModeBackfill ["id"]
                             (Some [Byte.x02; Byte.x32; Byte.x00])]> ∅)).

(** Both [public.t] and the watermarks table are captured and Active. *)
Definition watermarksCaptured : PersistentState :=
  mkPersistentState 0
    (Some (<["public.t" := mkTableState tableModeActive ["id"] None]>
             (<["public.flow_watermarks" := mkTableState tableModeActive ["slot"] None]> ∅))).

(** [cfg] with a [max_lifespan_seconds] of one minute. *)
Definition cfgLifespan : Config :=
  mkConfig "postgres://localhost" "slot" "publication" "public.flow_watermarks"
           0%float 60%float.

Definition active (streams : list string) (lsn : Z) : PersistentState :=
  mkPersistentState lsn
    (Some (list_to_map (map (fun s => (s, mkTableState tableModeActive ["id"] None)) streams))).

(** A capture on [db], with chunks of two rows, at the start of
    [updateState]. *)
Definition start (catalog : airbyte.ConfiguredCatalog) (state : PersistentState)
    (log : list changeEvent) : @capture world :=
  mkCapture state cfg catalog [] db (replication.mkStream log (CurrentLSN state)) 0.

(** A state that was persisted when the key of [public.t] was the one
    column ["a,b"], and a catalog that now names the two columns [a] and [b]. *)
Definition commaKeyState : PersistentState :=
  mkPersistentState 0 (Some (<["public.t" := mkTableState tableModeBackfill ["a,b"] None]> ∅)).

Definition commaKeyCatalog : airbyte.ConfiguredCatalog :=
  tailing [airbyte.mkConfiguredStream (airbyte.mkStream "t" "public") [["a"]; ["b"]]].

(** A connection whose every query returns the one row [("1", "a")] of the
    columns [id] and [v]. *)
Definition oneRow (query : string) (args : list value) : outcome backfill.queryRows :=
  Ok (backfill.mkRows ["id"; "v"] [Ok [VString "1"; VString "a"]]).

(** The log of a database on which nothing is written but watermarks, and
    a row of a table that is not captured. *)
Definition quietLog : list changeEvent :=
  watermarkWrite 0 10 ++ watermarkWrite 1 12
  ++ [mkEvent "Insert" "public" "other" (<["id" := VString "9"]> ∅) 14; commit 15]
  ++ watermarkWrite 2 16 ++ watermarkWrite 3 18.

(** What a capture of [public.t] emits from the fresh state on that
    database, when the first loop of [streamChanges] is given [fuel] turns. *)
Definition firstRun (fuel : nat) : list Message :=
  (RunCapture (DB := snapshot 2 db quietLog) (Ops := results 2) (Codec := codec)
              (Out := memory) fuel cfg (tailing [streamT]) fresh).2.

(** The state of the checkpoint at the place [k] of [emitted]. *)
Definition checkpointAt (k : nat) (emitted : list Message) : PersistentState :=
  match emitted !! k with
  | Some (MessageState ps) => ps
  | _ => fresh
  end.

(** What the capture emits when it is started again from the state [s]. *)
Definition secondRun (fuel : nat) (s : PersistentState) : list Message :=
  (RunCapture (DB := snapshot 2 db quietLog) (Ops := results 2) (Codec := codec)
              (Out := memory) fuel cfg (tailing [streamT]) s).2.

(** A log that ends within a transaction: the writes of the first two
    watermarks, each with its Commit, then an update of the row [1] of
    [public.t] at the position 14, after which the channel is closed before
    the Commit of the update is delivered. *)
Definition cutLog : list changeEvent :=
  watermarkWrite 0 10 ++ watermarkWrite 1 12 ++ [update "1" "x" 14].

(** [db] once that update has been applied, with the two watermarks written. *)
Definition dbUpdated : world :=
  mkWorld (<["public.t" := [row "1" "x"; row "2" "b"; row "3" "c"]]> ∅)
          (<["public.t" := ["id"]]> ∅) 2.

(** The record of a row of [public.t]. *)
Definition recordT (changeType id v : string) : Message :=
  MessageRecord "public" "t"
    (<["_change_type" := VString changeType]>
       (<["id" := VString id]> (<["v" := VString v]> ∅))).

(** The checkpoint of a capture of [public.t] alone. *)
Definition checkpointT (lsn : Z) (mode : string) (scanned : bytes) : Message :=
  MessageState (mkPersistentState lsn
                  (Some (<["public.t" := mkTableState mode ["id"] scanned]> ∅))).

End Scenario.
(** ** Strings: helper lemmas *)

Lemma append_cons (a : ascii) (s t : string) : String a s +:+ t = String a (s +:+ t).
Proof. reflexivity. Qed.

Lemma append_empty_l (s : string) : "" +:+ s = s.
Proof. reflexivity. Qed.

Lemma append_empty_r (s : string) : s +:+ "" = s.
Proof. induction s as [|a s IH]; [reflexivity|]. rewrite append_cons, IH. reflexivity. Qed.

Lemma append_assoc (s t u : string) : (s +:+ t) +:+ u = s +:+ (t +:+ u).
Proof.
  induction s as [|a s IH]; [reflexivity|].
  rewrite !append_cons, IH. reflexivity.
Qed.

Lemma strings_Join_cons (x : string) (rest : list string) (sep : string) :
  strings_Join (x :: rest) sep = x +:+ joinTail sep rest.
Proof.
  revert x. induction rest as [|y rest IH]; intros x.
  - simpl. rewrite append_empty_r. reflexivity.
  - change (strings_Join (x :: y :: rest) sep)
      with (x +:+ sep +:+ strings_Join (y :: rest) sep).
    rewrite IH. reflexivity.
Qed.

Lemma keyLists_tail (keyColumns : list string) (idx : Z) (pkey args : string) :
  0 < idx ->
  backfill.keyLists idx keyColumns pkey args
  = (pkey +:+ joinTail ", " keyColumns,
     args +:+ joinTail ", " (map (fun i => "$" +:+ itoa i)
                                 (seqZ (idx + 1) (Z.of_nat (length keyColumns))))).
Proof.
  revert idx pkey args.
  induction keyColumns as [|col rest IH]; intros idx pkey args Hidx.
  - simpl. rewrite !append_empty_r. reflexivity.
  - cbn [backfill.keyLists].
    assert (Hpos : (0 <? idx) = true) by (apply Z.ltb_lt; exact Hidx).
    rewrite Hpos, IH by lia.
    rewrite (seqZ_cons (idx + 1) (Z.of_nat (length (col :: rest))))
      by (cbn [length]; lia).
    cbn [map joinTail].
    replace (Z.pred (Z.of_nat (length (col :: rest)))) with (Z.of_nat (length rest))
      by (cbn [length]; lia).
    replace (Z.succ (idx + 1)) with (idx + 1 + 1) by lia.
    rewrite !append_assoc. reflexivity.
Qed.

Lemma keyLists_join (keyColumns : list string) :
  backfill.keyLists 0 keyColumns "" "" = (scanKeyList keyColumns, resumePlaceholders keyColumns).
Proof.
  unfold scanKeyList, resumePlaceholders.
  destruct keyColumns as [|col rest]; [reflexivity|].
  cbn [backfill.keyLists].
  change (0 <? 0) with false. cbv iota.
  rewrite keyLists_tail by lia.
  rewrite (seqZ_cons 1 (Z.of_nat (length (col :: rest)))) by (cbn [length]; lia).
  cbn [map].
  rewrite !strings_Join_cons.
  replace (Z.pred (Z.of_nat (length (col :: rest)))) with (Z.of_nat (length rest))
    by (cbn [length]; lia).
  reflexivity.
Qed.

(** ** The scan query (C6) *)

(** C6.  For every list of key columns, schema and table name and every
    chunk size [N], [buildScanQuery] builds the start query
    [SELECT * FROM <schema>.<table> ORDER BY (<scan_key>) LIMIT N] and the
    resume query
    [SELECT * FROM <schema>.<table> WHERE (<scan_key>) > ($1, ..., $k) ORDER BY (<scan_key>) LIMIT N],
    each as one statement, closed by its semicolon.  [ScanTableChunk] runs
    the start query, with no argument, when the resume key is nil, and the
    resume query, with the resume key as its arguments, otherwise, and no
    other query.  The chunk size is a variable, set to 4096 at the start. *)
Theorem C6_buildScanQuery_shape :
  forall (N : Z) (keyColumns : list string) (schemaName tableName : string),
    backfill.buildScanQuery N true keyColumns schemaName tableName
    = startQueryShape N keyColumns schemaName tableName +:+ ";"
    /\ backfill.buildScanQuery N false keyColumns schemaName tableName
       = resumeQueryShape N keyColumns schemaName tableName +:+ ";"
    /\ backfill.defaultChunkSize = 4096
    /\ (forall (Query : string -> list value -> outcome backfill.queryRows)
               (streamID : string) (resumeKey : option (list value)),
          strings_SplitN2 streamID = [schemaName; tableName] ->
          backfill.ScanTableChunk N Query streamID keyColumns resumeKey
          = match
              match resumeKey with
              | None => Query (startQueryShape N keyColumns schemaName tableName +:+ ";") []
              | Some resume =>
                  Query (resumeQueryShape N keyColumns schemaName tableName +:+ ";") resume
              end
            with
            | Ok rows =>
                backfill.scanRows schemaName tableName (backfill.FieldDescriptions rows)
                                  (backfill.Values rows) []
            | Err e => Err (Errorf_w "unable to execute query" e)
            | Panic => Panic
            | OutOfFuel => OutOfFuel
            end).
Proof.
  intros N keyColumns schemaName tableName.
  assert (Hshape : forall start,
             backfill.buildScanQuery N start keyColumns schemaName tableName
             = (if start then startQueryShape N keyColumns schemaName tableName
                else resumeQueryShape N keyColumns schemaName tableName) +:+ ";").
  { intros start.
    unfold backfill.buildScanQuery, startQueryShape, resumeQueryShape.
    rewrite keyLists_join. destruct start; cbn [negb]; rewrite !append_assoc; reflexivity. }
  split; [exact (Hshape true)|]. split; [exact (Hshape false)|]. split; [reflexivity|].
  intros Query streamID resumeKey Hparts.
  unfold backfill.ScanTableChunk. rewrite Hparts, Hshape.
  destruct resumeKey as [resume|]; reflexivity.
Qed.

(** The query of the first chunk of [public.foo] by its key [id], and the
    query of a later chunk by the key [(id, v)], with the default chunk size. *)
Example scan_queries_of_public_foo :
  backfill.buildScanQuery backfill.defaultChunkSize true ["id"] "public" "foo"
  = "SELECT * FROM public.foo ORDER BY (id) LIMIT 4096;"
  /\ backfill.buildScanQuery backfill.defaultChunkSize false ["id"; "v"] "public" "foo"
     = "SELECT * FROM public.foo WHERE (id, v) > ($1, $2) ORDER BY (id, v) LIMIT 4096;".
Proof. vm_compute. split; reflexivity. Qed.

(** ** Invariants of the methods of [*capture] *)

Section Invariants.
Context {W : Type}.
Implicit Types (c : @capture W) (inv : @capture W -> Prop).

Lemma invariant_ret {A} inv (a : A) : invariant inv (ret a).
Proof. intros c Hc. exact Hc. Qed.

Lemma invariant_fail {A} inv (e : error) : invariant inv (@fail W A e).
Proof. intros c Hc. exact Hc. Qed.

Lemma invariant_panic {A} inv : invariant inv (@panic W A).
Proof. intros c Hc. exact Hc. Qed.

Lemma invariant_outOfFuel {A} inv : invariant inv (@outOfFuel W A).
Proof. intros c Hc. exact Hc. Qed.

Lemma invariant_lift {A} inv (o : outcome A) : invariant inv (lift o).
Proof. intros c Hc. exact Hc. Qed.

Lemma invariant_gets {A} inv (f : capture -> A) : invariant inv (gets f).
Proof. intros c Hc. exact Hc. Qed.

Lemma invariant_bind {A B} inv (m : M A) (k : A -> M B) :
  invariant inv m -> (forall a, invariant inv (k a)) -> invariant inv (bind m k).
Proof.
  intros Hm Hk c Hc. unfold bind.
  specialize (Hm c Hc).
  destruct (m c) as [[a|e| |] c1]; cbn [snd andThen] in *; try exact Hm.
  apply Hk. exact Hm.
Qed.

Lemma invariant_wrapErr {A} inv (msg : string) (m : M A) :
  invariant inv m -> invariant inv (wrapErr msg m).
Proof.
  intros Hm c Hc. unfold wrapErr, wrapped. specialize (Hm c Hc).
  destruct (m c) as [[a|e| |] c1]; exact Hm.
Qed.

Lemma invariant_ignoreErr inv (m : M unit) :
  invariant inv m -> invariant inv (ignoreErr m).
Proof.
  intros Hm c Hc. unfold ignoreErr. specialize (Hm c Hc).
  destruct (m c) as [[a|e| |] c1]; exact Hm.
Qed.

End Invariants.

(** Takes a method apart along its binds and case distinctions, down to the
    primitive steps and to the places where the current state is emitted. *)
Ltac invariant_step :=
  lazymatch goal with
  | |- invariant _ (bind (gets state) emitState) => fail
  | |- invariant _ (bind (gets state) (fun ps => wrapErr _ (emitState ps))) => fail
  | |- invariant _ (bind (gets state) (fun ps => ignoreErr (emitState ps))) => fail
  | |- invariant _ (bind _ _) => apply invariant_bind; [|intros ?]
  | |- invariant _ (ret _) => apply invariant_ret
  | |- invariant _ (fail _) => apply invariant_fail
  | |- invariant _ panic => apply invariant_panic
  | |- invariant _ outOfFuel => apply invariant_outOfFuel
  | |- invariant _ (lift _) => apply invariant_lift
  | |- invariant _ (gets _) => apply invariant_gets
  | |- invariant _ (wrapErr _ _) => apply invariant_wrapErr
  | |- invariant _ (ignoreErr _) => apply invariant_ignoreErr
  | |- invariant _ (match ?x with _ => _ end) => destruct x
  | |- invariant _ (let _ := _ in _) => cbv zeta
  end.

Ltac invariant_steps := repeat invariant_step.

(** An invariant that the primitive steps on the connection, the channel
    and the log position keep, and that holds again after a record or the
    current state has been emitted, holds along everything the capture does
    between two changes of its table states. *)
Section Framed.
Context {W RS : Type}.
Context {DB : Database W} {Ops : resultSet.Ops RS} {Codec : TupleCodec}
        {Out : messageOutput}.
Variable inv : @capture W -> Prop.
Hypothesis inv_receive : forall evt rest, invariant inv (receive evt rest).
Hypothesis inv_onConn : forall A (f : W -> outcome A * W), invariant inv (onConn f).
Hypothesis inv_setCurrentLSN : forall lsn, invariant inv (setCurrentLSN lsn).
Hypothesis inv_handleChangeEvent : forall evt, invariant inv (handleChangeEvent evt).
Hypothesis inv_emitState : forall c, inv c -> inv (emitState (state c) c).2.

Lemma framed_checkpoint : invariant inv (bind (gets state) emitState).
Proof. intros c Hc. exact (inv_emitState c Hc). Qed.

Lemma framed_checkpoint_wrapErr (msg : string) :
  invariant inv (bind (gets state) (fun ps => wrapErr msg (emitState ps))).
Proof.
  intros c Hc. pose proof (inv_emitState c Hc) as Hes.
  unfold bind, andThen, gets, wrapErr, wrapped. cbv beta iota.
  destruct (emitState (state c) c) as [[[]|e| |] c']; exact Hes.
Qed.

Lemma framed_checkpoint_ignoreErr :
  invariant inv (bind (gets state) (fun ps => ignoreErr (emitState ps))).
Proof.
  intros c Hc. pose proof (inv_emitState c Hc) as Hes.
  unfold bind, andThen, gets, ignoreErr. cbv beta iota.
  destruct (emitState (state c) c) as [[[]|e| |] c']; exact Hes.
Qed.

Lemma framed_streamToWatermarkTurn (watermark : string) (reached : bool)
    (results : RS) (evt : changeEvent) :
  invariant inv (streamToWatermarkTurn watermark reached results evt).
Proof. unfold streamToWatermarkTurn. invariant_steps; auto. Qed.

Lemma framed_streamToWatermarkLoop (events : list changeEvent) :
  forall (watermark : string) (reached : bool) (results : RS),
    invariant inv (streamToWatermarkLoop events watermark reached results).
Proof.
  induction events as [|evt rest IH]; intros watermark reached results;
    cbn [streamToWatermarkLoop]; invariant_steps;
    auto using framed_streamToWatermarkTurn.
Qed.

Lemma framed_streamToWatermark (watermark : string) (results : RS) :
  invariant inv (streamToWatermark watermark results).
Proof.
  unfold streamToWatermark. invariant_steps. apply framed_streamToWatermarkLoop.
Qed.

Lemma framed_emitChanges (evts : list changeEvent) : invariant inv (emitChanges evts).
Proof.
  induction evts as [|evt rest IH]; cbn [emitChanges]; invariant_steps; auto.
Qed.

Lemma framed_backfillLoop (streams : list string) :
  forall results : RS, invariant inv (backfillLoop streams results).
Proof.
  induction streams as [|streamID rest IH]; intros results;
    cbn [backfillLoop]; invariant_steps; auto.
Qed.

Lemma framed_backfillStreams (streams : list string) :
  invariant inv (backfillStreams (RS := RS) streams).
Proof. apply framed_backfillLoop. Qed.

Lemma framed_writeWatermark : invariant inv writeWatermark_.
Proof. unfold writeWatermark_. invariant_steps. auto. Qed.

Lemma framed_streamChangesTurn (evt : changeEvent) : invariant inv (streamChangesTurn evt).
Proof.
  unfold streamChangesTurn. invariant_steps; auto using framed_checkpoint_wrapErr.
Qed.

Lemma framed_streamChangesLoop (events : list changeEvent) :
  invariant inv (streamChangesLoop events).
Proof.
  induction events as [|evt rest IH]; cbn [streamChangesLoop]; invariant_steps;
    auto using framed_streamChangesTurn.
Qed.

(** Once the table states are settled as well, the invariant holds along
    the whole capture. *)
Hypothesis inv_setState : forall ps, invariant inv (setState ps).

Lemma framed_setStreams (streams : gmap string TableState) : invariant inv (setStreams streams).
Proof. unfold setStreams. invariant_steps. auto. Qed.

Lemma framed_alterStream (streamID : string) (f : TableState -> TableState) :
  invariant inv (alterStream streamID f).
Proof. unfold alterStream. invariant_steps. apply framed_setStreams. Qed.

Lemma framed_updateStreams (dbPrimaryKeys : gmap string (list string))
    (streams : list airbyte.ConfiguredStream) :
  forall stateDirty : bool, invariant inv (updateStreams dbPrimaryKeys streams stateDirty).
Proof.
  induction streams as [|catalogStream rest IH]; intros stateDirty;
    cbn [updateStreams]; invariant_steps; auto using framed_setStreams.
Qed.

Lemma framed_forgetStreams (streams : list airbyte.ConfiguredStream) (stateDirty : bool) :
  invariant inv (forgetStreams streams stateDirty).
Proof. unfold forgetStreams. invariant_steps. apply framed_setStreams. Qed.

Lemma framed_updateState : invariant inv updateState.
Proof.
  unfold updateState. invariant_steps;
    auto using framed_setStreams, framed_updateStreams, framed_forgetStreams,
               framed_checkpoint_ignoreErr.
Qed.

Lemma framed_emitStreams (streams : list string) (results : RS) :
  invariant inv (emitStreams streams results).
Proof.
  induction streams as [|streamID rest IH]; cbn [emitStreams]; invariant_steps;
    auto using framed_emitChanges, framed_alterStream.
Qed.

Lemma framed_emitBuffered (results : RS) : invariant inv (emitBuffered results).
Proof.
  unfold emitBuffered.
  apply invariant_bind; [apply framed_emitStreams|intros _].
  apply framed_checkpoint.
Qed.

Lemma framed_interleave (fuel : nat) :
  forall (watermark : string) (results : RS),
    invariant inv (interleave fuel watermark results).
Proof.
  induction fuel as [|fuel IH]; intros watermark results;
    cbn [interleave]; invariant_steps;
    auto using framed_streamToWatermark, framed_emitBuffered, framed_backfillStreams,
               framed_writeWatermark.
Qed.

Lemma framed_streamChanges (fuel : nat) : invariant inv (streamChanges (RS := RS) fuel).
Proof.
  unfold streamChanges, interleavedBackfill, streaming. invariant_steps;
    auto using framed_writeWatermark, framed_interleave, framed_streamChangesLoop.
Qed.

(** What [RunCapture] has emitted when it returns satisfies whatever the
    invariant implies for the encoder. *)
Lemma framed_RunCapture (P : list Message -> Prop) (fuel : nat) (config : Config)
    (catalog : airbyte.ConfiguredCatalog) (state : PersistentState) :
  P [] ->
  (forall connScan replStream,
      inv (mkCapture state config catalog [] connScan replStream 0)) ->
  (forall c, inv c -> P (encoder c)) ->
  P (RunCapture (RS := RS) fuel config catalog state).2.
Proof.
  intros Hnil Hinit Hout. unfold RunCapture.
  destruct (pgx_Connect _) as [connScan|e| |]; try exact Hnil.
  destruct (pgconn_ParseConfig _); try exact Hnil.
  destruct (pgconn_ConnectConfig _); try exact Hnil.
  destruct (startReplication _ _ _) as [replStream|e| |]; try exact Hnil.
  pose proof (invariant_wrapErr inv "error updating capture state" _ framed_updateState
                _ (Hinit connScan replStream)) as Hupd.
  destruct (wrapErr _ updateState _) as [[[]|e| |] c1]; cbn [snd] in *;
    try (apply Hout; exact Hupd).
  pose proof (framed_streamChanges fuel c1 Hupd) as Hrun.
  destruct (streamChanges fuel c1) as [r c2]. cbn [snd] in *.
  apply Hout. exact Hrun.
Qed.

End Framed.

(** ** Running the methods symbolically *)

(** Unfolds the monad and its primitive steps, so that a method applied to a
    capture reduces as far as the calls it makes. *)
Ltac mrun :=
  cbv beta iota zeta delta
      [bind andThen wrapped gets ret fail panic outOfFuel lift wrapErr ignoreErr setState
       setChanges receive onConn setStreams setCurrentLSN encode emit];
  cbn [state config catalog encoder connScan replStream changesSinceLastCheckpoint
       fst snd].

Ltac mrun_in H :=
  cbv beta iota zeta delta
      [bind andThen wrapped gets ret fail panic outOfFuel lift wrapErr ignoreErr setState
       setChanges receive onConn setStreams setCurrentLSN encode emit] in H;
  cbn [state config catalog encoder connScan replStream changesSinceLastCheckpoint
       fst snd] in H.

Section Frames.
Context {W : Type} {Out : messageOutput}.
Implicit Types (c : @capture W).

Lemma sameButOutput_refl c : sameButOutput c c.
Proof. repeat split. Qed.

Lemma emitState_frame (ps : PersistentState) c : sameButOutput c (emitState ps c).2.
Proof.
  unfold emitState. mrun. destruct (Encode _ _); repeat split.
Qed.

Lemma emitRecord_frame (ns stream : string) (data : gmap string value) c :
  sameButOutput c (emitRecord ns stream data c).2.
Proof.
  unfold emitRecord. mrun.
  destruct (forallb _ _); mrun; [destruct (Encode _ _)|]; repeat split.
Qed.

Lemma handleChangeEvent_frame (evt : changeEvent) c :
  sameButOutput c (handleChangeEvent evt c).2.
Proof.
  unfold handleChangeEvent. mrun.
  destruct (translateFields _ _); try apply sameButOutput_refl.
  apply emitRecord_frame.
Qed.

End Frames.

(** ** Every record carries its change type (C10) *)

Lemma translateFields_other (kvs : list (string * value)) :
  forall (fields out : gmap string value) (k : string),
    translateFields kvs fields = Ok out -> k ∉ kvs.*1 -> out !! k = fields !! k.
Proof.
  induction kvs as [|[id val] rest IH]; intros fields out k Hrun Hk.
  - cbn in Hrun. congruence.
  - cbn [translateFields] in Hrun.
    destruct (translateRecordField val) as [t|e| |]; try discriminate.
    cbn [fmap list_fmap fst] in Hk.
    apply not_elem_of_cons in Hk as [Hne Hrest].
    rewrite (IH _ _ _ Hrun Hrest).
    apply lookup_insert_ne. congruence.
Qed.

Lemma translateFields_key (kvs : list (string * value)) :
  forall (fields out : gmap string value) (k : string) (v : value),
    NoDup kvs.*1 ->
    translateFields kvs fields = Ok out ->
    (k, v) ∈ kvs ->
    exists v', translateRecordField v = Ok v' /\ out !! k = Some v'.
Proof.
  induction kvs as [|[id val] rest IH]; intros fields out k v Hnd Hrun Hin.
  - apply elem_of_nil in Hin. contradiction.
  - cbn [translateFields] in Hrun.
    destruct (translateRecordField val) as [t|e| |] eqn:Ht; try discriminate.
    cbn [fmap list_fmap fst] in Hnd.
    apply NoDup_cons in Hnd as [Hfresh Hnd].
    apply elem_of_cons in Hin as [Heq|Hin].
    + injection Heq as -> ->.
      exists t. split; [exact Ht|].
      rewrite (translateFields_other _ _ _ _ Hrun Hfresh).
      apply lookup_insert_eq.
    + exact (IH _ _ _ _ Hnd Hrun Hin).
Qed.

(** What [translateFields] makes of a whole map: every value translated. *)
Lemma translateFields_map (fields out : gmap string value) :
  translateFields (map_to_list fields) fields = Ok out ->
  forall (k : string) (v' : value),
    out !! k = Some v'
    <-> exists v, fields !! k = Some v /\ translateRecordField v = Ok v'.
Proof.
  intros Hrun k v'. split.
  - intros Hout.
    destruct (fields !! k) as [v|] eqn:Hk.
    + apply elem_of_map_to_list in Hk as Hin.
      destruct (translateFields_key _ _ _ _ _ (NoDup_fst_map_to_list fields) Hrun Hin)
        as (v'' & Hv'' & Hout').
      exists v. split; [reflexivity|]. congruence.
    + rewrite (translateFields_other _ _ _ k Hrun) in Hout; [congruence|].
      intros Hin. apply list_elem_of_fmap in Hin as ([k' v] & -> & Hin).
      apply elem_of_map_to_list in Hin. cbn in Hk. congruence.
  - intros (v & Hk & Hv).
    apply elem_of_map_to_list in Hk.
    destruct (translateFields_key _ _ _ _ _ (NoDup_fst_map_to_list fields) Hrun Hk)
      as (v'' & Hv'' & Hout').
    congruence.
Qed.

(** All rows that [scanRows] adds are Insert events of the scanned table. *)
Lemma scanRows_Insert (schemaName tableName : string) (cols : list string)
    (rows : list (outcome (list value))) :
  forall (events out : list changeEvent),
    backfill.scanRows schemaName tableName cols rows events = Ok out ->
    Forall (fun evt => Type_ evt = "Insert") events ->
    Forall (fun evt => Type_ evt = "Insert") out.
Proof.
  induction rows as [|row rest IH]; intros events out Hrun Hacc.
  - cbn in Hrun. congruence.
  - cbn [backfill.scanRows] in Hrun.
    destruct row as [vals|e| |]; try discriminate.
    destruct (backfill.rowFields cols vals ∅) as [fields|e| |]; try discriminate.
    apply (IH _ _ Hrun).
    apply Forall_app. split; [exact Hacc|].
    apply Forall_singleton. reflexivity.
Qed.

Section ChangeType.
Context {W RS : Type}.
Context {DB : Database W} {Ops : resultSet.Ops RS} {Codec : TupleCodec}
        {Out : messageOutput}.
Implicit Types (c : @capture W).

(** What a call of [emit] leaves in the encoder. *)
Lemma emit_encoder (msg : Message) c :
  match emit msg c with
  | (Ok _, c') => encoder c' = encoder c ++ [msg]
  | (_, c') => encoder c' = encoder c
  end.
Proof. unfold emit, encode. destruct (Encode (encoder c) msg); reflexivity. Qed.

Lemma emitRecord_encoder (ns stream : string) (data : gmap string value) c :
  match emitRecord ns stream data c with
  | (Ok _, c') => encoder c' = encoder c ++ [MessageRecord ns stream data]
  | (_, c') => encoder c' = encoder c
  end.
Proof.
  unfold emitRecord. mrun.
  destruct (forallb _ _); mrun; [destruct (Encode _ _)|]; reflexivity.
Qed.

Lemma emitState_encoder (ps : PersistentState) c :
  match emitState ps c with
  | (Ok _, c') => encoder c' = encoder c ++ [MessageState ps]
  | (_, c') => encoder c' = encoder c
  end.
Proof.
  unfold emitState. mrun. destruct (Encode _ _); reflexivity.
Qed.

(** [handleChangeEvent] emits one record or nothing; the record's data is
    the event's field map with [_change_type] added, every value
    translated. *)
Lemma handleChangeEvent_encoder (evt : changeEvent) c :
  match handleChangeEvent evt c with
  | (Ok _, c') =>
      exists data,
        encoder c' = encoder c ++ [MessageRecord (Namespace evt) (Table evt) data]
        /\ forall k v',
             data !! k = Some v'
             <-> exists v, <["_change_type" := VString (Type_ evt)]> (Fields evt) !! k = Some v
                           /\ translateRecordField v = Ok v'
  | (_, c') => encoder c' = encoder c
  end.
Proof.
  unfold handleChangeEvent, bind, lift.
  destruct (translateFields _ _) as [data|e| |] eqn:Hdata; cbn [andThen];
    try reflexivity.
  pose proof (emitRecord_encoder (Namespace evt) (Table evt) data c) as Hrec.
  destruct (emitRecord _ _ data c) as [[[]|e| |] c']; try exact Hrec.
  exists data. split; [exact Hrec|].
  exact (translateFields_map _ _ Hdata).
Qed.

Lemma typed_handleChangeEvent (evt : changeEvent) : invariant typed (handleChangeEvent (W := W) evt).
Proof.
  intros c Hc. unfold typed in *.
  pose proof (handleChangeEvent_encoder evt c) as Hh.
  destruct (handleChangeEvent evt c) as [[[]|e| |] c']; cbn [snd];
    try (rewrite Hh; exact Hc).
  destruct Hh as (data & -> & Hdata).
  apply Forall_app. split; [exact Hc|].
  apply Forall_singleton. cbn. exists (Type_ evt).
  apply Hdata. exists (VString (Type_ evt)). split; [|reflexivity].
  apply lookup_insert_eq.
Qed.

Lemma typed_emitState c : typed c -> typed (emitState (state c) c).2.
Proof.
  unfold typed. intros Hc.
  pose proof (emitState_encoder (state c) c) as Hs.
  destruct (emitState (state c) c) as [[[]|e| |] c']; cbn [snd];
    rewrite Hs; try exact Hc.
  apply Forall_app. split; [exact Hc|].
  apply Forall_singleton. exact I.
Qed.

(** C10: every record emitted downstream carries a [_change_type] field
    equal to the type of the event it was made from, added to the event's
    field map before the translation of the fields and the emission; the
    rows that the chunk scanner produces are Insert events.  In detail:
    (1) a call of [handleChangeEvent] that succeeds has emitted exactly one
    record, whose data is the translation of the event's fields with
    [_change_type] set to the event's type, and a call that fails has
    emitted nothing; (2) all records that a run of [RunCapture] emits carry
    the field; (3) all events that [ScanTableChunk] returns have type
    Insert. *)
Theorem C10_change_type :
  (forall (evt : changeEvent) c,
      match handleChangeEvent evt c with
      | (Ok _, c') =>
          exists data,
            encoder c' = encoder c ++ [MessageRecord (Namespace evt) (Table evt) data]
            /\ data !! "_change_type" = Some (VString (Type_ evt))
            /\ forall k v',
                 data !! k = Some v'
                 <-> exists v,
                       <["_change_type" := VString (Type_ evt)]> (Fields evt) !! k = Some v
                       /\ translateRecordField v = Ok v'
      | (_, c') => encoder c' = encoder c
      end)
  /\ (forall (fuel : nat) (config : Config) (catalog : airbyte.ConfiguredCatalog)
             (state : PersistentState),
        Forall hasChangeType (RunCapture (W := W) (RS := RS) fuel config catalog state).2)
  /\ (forall (backfillChunkSize : Z) (Query : string -> list value -> outcome backfill.queryRows)
             (streamID : string) (keyColumns : list string)
             (resumeKey : option (list value)),
        match backfill.ScanTableChunk backfillChunkSize Query streamID keyColumns resumeKey with
        | Ok events => Forall (fun evt => Type_ evt = "Insert") events
        | _ => True
        end).
Proof.
  split; [|split].
  - intros evt c.
    pose proof (handleChangeEvent_encoder evt c) as Hh.
    destruct (handleChangeEvent evt c) as [[[]|e| |] c']; try exact Hh.
    destruct Hh as (data & Henc & Hdata).
    exists data. split; [exact Henc|]. split; [|exact Hdata].
    apply Hdata. exists (VString (Type_ evt)). split; [|reflexivity].
    apply lookup_insert_eq.
  - intros fuel config catalog state.
    apply (framed_RunCapture typed) with (P := Forall hasChangeType);
      first [ exact typed_handleChangeEvent
            | exact typed_emitState
            | constructor
            | intros; constructor
            | (intros c Hc; exact Hc)
            | (intros ? c Hc; exact Hc)
            | (intros ? ? c Hc; exact Hc) ].
  - intros N Query streamID keyColumns resumeKey.
    unfold backfill.ScanTableChunk.
    destruct (strings_SplitN2 streamID) as [|schemaName [|tableName [|]]]; try exact I.
    destruct (Query _ _) as [rows|e| |]; try exact I.
    destruct (backfill.scanRows _ _ _ _ _) as [events|e| |] eqn:Hrows; try exact I.
    apply (scanRows_Insert _ _ _ _ _ _ Hrows). constructor.
Qed.

End ChangeType.

(** ** State reconciliation (C8) *)

(** C8, where the code goes wrong: the persisted scan key of [public.t] is
    the one column ["a,b"], the catalog gives the primary key [a], [b].  The
    two keys differ, but [updateState] compares their comma-joined texts,
    which are equal: it returns no error and keeps the persisted scan key. *)
Theorem C8_comma_joined_keys_conflated :
  let c := Scenario.start Scenario.commaKeyCatalog Scenario.commaKeyState [] in
  let run := updateState (DB := Fixture.database 2 Scenario.db [])
                         (Out := Fixture.memory) c in
  ["a"; "b"] <> ["a,b"]
  /\ run.1 = Ok tt
  /\ ScanKey <$> (streamsOf (state run.2) !! "public.t") = Some ["a,b"]
  /\ encoder run.2 = [].
Proof. vm_compute. repeat split; congruence. Qed.

(** ** The exit status of RunCapture (C9) *)

(** C9, as stated, fails: in tailing mode a cancellation of the context is
    not a clean exit.  With a catalog that tails, a stream to backfill and a
    connection whose context is cancelled after [updateState], the first
    watermark write returns [context.Canceled] and [RunCapture] returns that
    error, wrapped. *)
Lemma C9_cancellation_while_tailing_is_an_error :
  exists err,
    (RunCapture (DB := Fixture.interrupted context_Canceled Scenario.db [])
                (Ops := Fixture.results 2) (Codec := Fixture.codec) (Out := Fixture.memory)
                1 Scenario.cfg (Scenario.tailing [Scenario.streamT]) Scenario.fresh).1
    = Err err
    /\ errors_Is err context_Canceled = true.
Proof.
  exists (Errorf_w "error writing dummy watermark" context_Canceled).
  split; vm_compute; reflexivity.
Qed.

Section ExitStatus.
Context {W RS : Type}.
Context {DB : Database W} {Ops : resultSet.Ops RS} {Codec : TupleCodec}
        {Out : messageOutput}.

(** C9, amended: once the connections are open, [RunCapture] returns nil
    when [streamChanges] returns an error that wraps
    [context.DeadlineExceeded] and [max_lifespan_seconds] is not zero, or an
    error that wraps [context.Canceled] and the catalog does not tail; it
    returns every other result of [streamChanges] unchanged, among them
    [context.Canceled] when the catalog tails; and an error of [updateState]
    is returned wrapped, a context error or not. *)
Theorem C9_RunCapture_exit_status :
  forall (fuel : nat) (config : Config) (catalog : airbyte.ConfiguredCatalog)
         (state : PersistentState) (connScan : W)
         (replStream : replication.replicationStream),
    pgx_Connect (ConnectionURI config) = Ok connScan ->
    pgconn_ParseConfig (ConnectionURI config) = None ->
    pgconn_ConnectConfig (ConnectionURI config) = None ->
    startReplication (SlotName config) (PublicationName config) (CurrentLSN state)
    = Ok replStream ->
    let returned := (RunCapture (RS := RS) fuel config catalog state).1 in
    match updateState (mkCapture state config catalog [] connScan replStream 0) with
    | (Ok _, c) =>
        returned
        = match (streamChanges (RS := RS) fuel c).1 with
          | Err err =>
              if (errors_Is err context_DeadlineExceeded
                  && negb (PrimFloat.eqb (MaxLifespanSeconds config) 0%float))
                 || (errors_Is err context_Canceled && negb (airbyte.Tail catalog))
              then Ok tt
              else Err err
          | r => r
          end
    | (Err err, _) => returned = Err (Errorf_w "error updating capture state" err)
    | (r, _) => returned = r
    end.
Proof.
  intros fuel config catalog state connScan replStream Hconn Hparse Hrepl Hstart.
  unfold RunCapture. rewrite Hconn, Hparse, Hrepl, Hstart.
  unfold wrapErr.
  destruct (updateState _) as [[[]|e| |] c]; cbv beta iota zeta; cbn [fst wrapped];
    try reflexivity.
  destruct (streamChanges fuel c) as [[[]|e| |] c']; cbn [fst exitStatus];
    try reflexivity.
  destruct (errors_Is e context_DeadlineExceeded
            && negb (PrimFloat.eqb (MaxLifespanSeconds config) 0%float)); reflexivity.
Qed.

End ExitStatus.

(** An instance of C9: with a [max_lifespan_seconds] of one minute, a
    watermark write that the deadline interrupts ends the capture with nil. *)
Lemma C9_RunCapture_exit_status_witness :
  (RunCapture (DB := Fixture.interrupted context_DeadlineExceeded Scenario.db [])
              (Ops := Fixture.results 2) (Codec := Fixture.codec) (Out := Fixture.memory)
              1 Scenario.cfgLifespan (Scenario.tailing [Scenario.streamT]) Scenario.fresh).1
  = Ok tt.
Proof.
  exact (C9_RunCapture_exit_status
           (DB := Fixture.interrupted context_DeadlineExceeded Scenario.db [])
           (Ops := Fixture.results 2) (Codec := Fixture.codec) (Out := Fixture.memory)
           1 Scenario.cfgLifespan (Scenario.tailing [Scenario.streamT]) Scenario.fresh
           Scenario.db (replication.mkStream [] 0)
           eq_refl eq_refl eq_refl eq_refl).
Defined.

(** ** Events of the watermarks table (C7) *)

(** C7, as stated, fails: when the watermarks table is itself a configured
    stream in Active mode, the event that a watermark write leaves in the
    replication log is emitted downstream as a record. *)
Lemma C7_captured_watermarks_are_emitted :
  Exists (onWatermarksTable Scenario.cfg)
    (RunCapture (DB := Fixture.database 2 Scenario.db (Scenario.watermarkWrite 7 10))
                (Ops := Fixture.results 2) (Codec := Fixture.codec) (Out := Fixture.memory)
                1 Scenario.cfg
                (Scenario.tailing [Scenario.streamT; Scenario.streamWatermarks])
                Scenario.watermarksCaptured).2.
Proof. vm_compute. apply Exists_cons_hd. reflexivity. Qed.

Section Watermarks.
Context {W RS : Type}.
Context {DB : Database W} {Ops : resultSet.Ops RS} {Codec : TupleCodec}
        {Out : messageOutput}.
Implicit Types (c : @capture W).

Lemma emittedNoWatermark_refl c : emittedNoWatermark c c.
Proof.
  split; [reflexivity|]. split; [reflexivity|].
  exists []. split; [symmetry; apply app_nil_r|constructor].
Qed.

Lemma emittedNoWatermark_trans c1 c2 c3 :
  emittedNoWatermark c1 c2 -> emittedNoWatermark c2 c3 -> emittedNoWatermark c1 c3.
Proof.
  intros (Hcfg1 & Hst1 & new1 & Henc1 & Hnew1) (Hcfg2 & Hst2 & new2 & Henc2 & Hnew2).
  split; [congruence|]. split; [congruence|].
  exists (new1 ++ new2). split.
  - rewrite Henc2, Henc1. symmetry. apply app_assoc.
  - apply Forall_app. split; [exact Hnew1|]. rewrite <- Hcfg1. exact Hnew2.
Qed.

Lemma watermarksUncaptured_step c c' :
  emittedNoWatermark c c' -> watermarksUncaptured c -> watermarksUncaptured c'.
Proof.
  intros (Hcfg & Hst & _) Hc. unfold watermarksUncaptured, streamsOf in *.
  rewrite Hcfg, Hst. exact Hc.
Qed.

(** A record of a stream other than the watermarks table. *)
Lemma handleChangeEvent_noWatermark (evt : changeEvent) c :
  joinStreamID (Namespace evt) (Table evt) <> WatermarksTable (config c) ->
  emittedNoWatermark c (handleChangeEvent evt c).2.
Proof.
  intros Hne.
  pose proof (handleChangeEvent_frame evt c) as (Hst & Hcfg & _).
  pose proof (handleChangeEvent_encoder evt c) as Henc.
  destruct (handleChangeEvent evt c) as [r c']. cbn [snd andThen wrapped] in *.
  split; [exact Hcfg|]. split; [congruence|].
  destruct r as [[]|e| |].
  - destruct Henc as (data & Henc & _).
    eexists. split; [exact Henc|].
    apply Forall_singleton. exact Hne.
  - exists []. split; [rewrite Henc; symmetry; apply app_nil_r|constructor].
  - exists []. split; [rewrite Henc; symmetry; apply app_nil_r|constructor].
  - exists []. split; [rewrite Henc; symmetry; apply app_nil_r|constructor].
Qed.

(** An event whose stream has an entry that is not in Ignore mode is not an
    event of an uncaptured watermarks table. *)
Lemma captured_not_watermarks (evt : changeEvent) (ts : TableState) c :
  watermarksUncaptured c ->
  streamsOf (state c) !! joinStreamID (Namespace evt) (Table evt) = Some ts ->
  String.eqb (Mode ts) tableModeIgnore = false ->
  joinStreamID (Namespace evt) (Table evt) <> WatermarksTable (config c).
Proof.
  intros Hc Hts Hmode Heq. unfold watermarksUncaptured in Hc.
  rewrite <- Heq, Hts in Hc.
  apply String.eqb_neq in Hmode. contradiction.
Qed.

Lemma streamToWatermarkTurn_noWatermark (watermark : string) (reached : bool)
    (results : RS) (evt : changeEvent) c :
  watermarksUncaptured c ->
  emittedNoWatermark c (streamToWatermarkTurn watermark reached results evt c).2.
Proof.
  intros Hc. unfold streamToWatermarkTurn.
  destruct (String.eqb (Type_ evt) "Commit").
  { mrun. destruct reached; cbn [snd];
      (split; [reflexivity|]; split; [reflexivity|];
       exists []; split; [symmetry; apply app_nil_r|constructor]). }
  mrun.
  destruct (streamsOf (state c) !! joinStreamID (Namespace evt) (Table evt))
    as [ts|] eqn:Hts; [|apply emittedNoWatermark_refl].
  destruct (String.eqb (Mode ts) tableModeIgnore) eqn:Hignore;
    [apply emittedNoWatermark_refl|].
  pose proof (handleChangeEvent_noWatermark evt c
                (captured_not_watermarks evt ts c Hc Hts Hignore)) as Hh.
  destruct (String.eqb (Mode ts) tableModeActive).
  { destruct (handleChangeEvent evt c) as [[[]|e| |] c']; exact Hh. }
  destruct (negb (String.eqb (Mode ts) tableModeBackfill));
    [apply emittedNoWatermark_refl|].
  destruct (encodeRowKey (ScanKey ts) (Fields evt)) as [rowKey|e| |];
    try apply emittedNoWatermark_refl.
  destruct (compareTuples rowKey (Scanned ts) <=? 0).
  { destruct (handleChangeEvent evt c) as [[[]|e| |] c']; exact Hh. }
  destruct (resultSet.Patch results _ evt); apply emittedNoWatermark_refl.
Qed.

Lemma receive_noWatermark (evt : changeEvent) (rest : list changeEvent) c :
  emittedNoWatermark c (receive evt rest c).2.
Proof.
  mrun. split; [reflexivity|]. split; [reflexivity|].
  exists []. split; [symmetry; apply app_nil_r|constructor].
Qed.

Lemma streamToWatermarkLoop_noWatermark (events : list changeEvent) :
  forall (watermark : string) (reached : bool) (results : RS) c,
    watermarksUncaptured c ->
    emittedNoWatermark c (streamToWatermarkLoop events watermark reached results c).2.
Proof.
  induction events as [|evt rest IH]; intros watermark reached results c Hc.
  - apply emittedNoWatermark_refl.
  - cbn [streamToWatermarkLoop]. unfold bind at 1.
    pose proof (receive_noWatermark evt rest c) as H1.
    destruct (receive evt rest c) as [[[]|e| |] c1] eqn:Hrecv;
      cbn [snd andThen wrapped] in *; try exact H1.
    pose proof (watermarksUncaptured_step _ _ H1 Hc) as Hc1.
    unfold bind at 1.
    pose proof (streamToWatermarkTurn_noWatermark watermark reached results evt c1 Hc1)
      as H2.
    destruct (streamToWatermarkTurn watermark reached results evt c1)
      as [[[reached' results'|results']|e| |] c2]; cbn [snd andThen wrapped] in *;
      try exact (emittedNoWatermark_trans _ _ _ H1 H2).
    apply (emittedNoWatermark_trans _ c2); [exact (emittedNoWatermark_trans _ _ _ H1 H2)|].
    apply IH. exact (watermarksUncaptured_step _ _ H2 Hc1).
Qed.

Lemma streamChangesTurn_noWatermark (evt : changeEvent) c :
  watermarksUncaptured c ->
  emittedNoWatermark c (streamChangesTurn evt c).2.
Proof.
  intros Hc. unfold streamChangesTurn.
  destruct (String.eqb (Type_ evt) "Commit").
  { mrun. destruct (0 <? changesSinceLastCheckpoint c); [|apply emittedNoWatermark_refl].
    unfold emitState. mrun.
    destruct (Encode _ _); cbn [snd];
      (split; [reflexivity|]; split; [reflexivity|]).
    - exists []. split; [symmetry; apply app_nil_r|constructor].
    - eexists. split; [reflexivity|]. apply Forall_singleton. intros []. }
  mrun.
  destruct (streamsOf (state c) !! joinStreamID (Namespace evt) (Table evt))
    as [ts|] eqn:Hts; [|apply emittedNoWatermark_refl].
  destruct (String.eqb (Mode ts) tableModeActive) eqn:Hactive;
    [|apply emittedNoWatermark_refl].
  assert (Hignore : String.eqb (Mode ts) tableModeIgnore = false).
  { apply String.eqb_eq in Hactive. rewrite Hactive. reflexivity. }
  pose proof (handleChangeEvent_noWatermark evt c
                (captured_not_watermarks evt ts c Hc Hts Hignore)) as Hh.
  destruct (handleChangeEvent evt c) as [[[]|e| |] c']; exact Hh.
Qed.

Lemma streamChangesLoop_noWatermark (events : list changeEvent) :
  forall c, watermarksUncaptured c ->
            emittedNoWatermark c (streamChangesLoop events c).2.
Proof.
  induction events as [|evt rest IH]; intros c Hc.
  - apply emittedNoWatermark_refl.
  - cbn [streamChangesLoop]. unfold bind at 1.
    pose proof (receive_noWatermark evt rest c) as H1.
    destruct (receive evt rest c) as [[[]|e| |] c1] eqn:Hrecv;
      cbn [snd andThen wrapped] in *; try exact H1.
    pose proof (watermarksUncaptured_step _ _ H1 Hc) as Hc1.
    unfold bind at 1.
    pose proof (streamChangesTurn_noWatermark evt c1 Hc1) as H2.
    destruct (streamChangesTurn evt c1) as [[[]|e| |] c2]; cbn [snd andThen wrapped] in *;
      try exact (emittedNoWatermark_trans _ _ _ H1 H2).
    apply (emittedNoWatermark_trans _ c2); [exact (emittedNoWatermark_trans _ _ _ H1 H2)|].
    apply IH. exact (watermarksUncaptured_step _ _ H2 Hc1).
Qed.

(** C7, amended: as long as the watermarks table is not captured (the state
    has no entry for it, or an entry in Ignore mode), neither the Phase-1
    drain nor Phase-2 streaming emits a record of the watermarks table,
    whatever the replication stream delivers: its events are consumed
    internally only.  (When the watermarks table is a configured stream,
    its events are emitted like those of any other stream.) *)
Theorem C7_uncaptured_watermarks_not_emitted :
  forall c,
    watermarksUncaptured c ->
    (forall (watermark : string) (results : RS),
        emittedNoWatermark c (streamToWatermark watermark results c).2)
    /\ (forall events : list changeEvent,
           emittedNoWatermark c (streamChangesLoop events c).2).
Proof.
  intros c Hc. split.
  - intros watermark results. unfold streamToWatermark. mrun.
    apply streamToWatermarkLoop_noWatermark. exact Hc.
  - intros events. apply streamChangesLoop_noWatermark. exact Hc.
Qed.

End Watermarks.

(** An instance of C7: [public.t] is Active, the watermarks table is not
    captured, and the log holds a watermark write between two updates. *)
Lemma C7_uncaptured_watermarks_not_emitted_witness :
  let c := Scenario.start (Scenario.tailing [Scenario.streamT])
             (Scenario.active ["public.t"] 0)
             (Scenario.update "1" "x" 8 :: Scenario.watermarkWrite 0 10
              ++ [Scenario.update "2" "y" 12; Scenario.commit 13]) in
  emittedNoWatermark c
    (streamChangesLoop (Out := Fixture.memory)
       (replication.Events (replStream c)) c).2.
Proof.
  intros c.
  refine (proj2 (C7_uncaptured_watermarks_not_emitted
                   (RS := gmap string Fixture.chunk)
                   (Ops := Fixture.results 2) (Codec := Fixture.codec) (Out := Fixture.memory)
                   c _) _).
  vm_compute. exact I.
Defined.

(** ** Row events of a stream in Backfill mode (C2) *)

(** C2: during the drain, a row event of a stream whose TableState is in
    Backfill mode, with the row key that [encodeRowKey] gives for the scan-key
    columns, is emitted directly (through [handleChangeEvent], the result set
    untouched) when the key compares less than or equal to [scanned], and is
    patched into the buffered result set (nothing emitted, the capture
    untouched) otherwise; the two cases exclude each other.  In the result-set
    buffer as the spec describes it, [Patch] drops the event when no chunk is
    buffered for the stream. *)
Theorem C2_backfill_event_routing :
  (forall (W RS : Type) (Ops : resultSet.Ops RS) (Codec : TupleCodec) (Out : messageOutput)
          (watermark : string) (watermarkReached : bool) (results : RS)
          (evt : changeEvent) (c : @capture W) (tableState : TableState) (rowKey : bytes),
      String.eqb (Type_ evt) "Commit" = false ->
      streamsOf (state c) !! joinStreamID (Namespace evt) (Table evt) = Some tableState ->
      Mode tableState = tableModeBackfill ->
      encodeRowKey (ScanKey tableState) (Fields evt) = Ok rowKey ->
      let reached := reachedAfter (config c) watermark watermarkReached evt in
      streamToWatermarkTurn watermark watermarkReached results evt c
      = if compareTuples rowKey (Scanned tableState) <=? 0
        then match handleChangeEvent evt c with
             | (Ok _, c') => (Ok (Continue reached results), c')
             | (Err err, c') => (Err (Errorf_w "error handling replication event" err), c')
             | (Panic, c') => (Panic, c')
             | (OutOfFuel, c') => (OutOfFuel, c')
             end
        else match resultSet.Patch results (joinStreamID (Namespace evt) (Table evt)) evt with
             | Ok results' => (Ok (Continue reached results'), c)
             | Err err => (Err (Errorf_w "error patching resultset" err), c)
             | Panic => (Panic, c)
             | OutOfFuel => (OutOfFuel, c)
             end)
  /\ (forall (chunkSize : Z) (results : gmap string Fixture.chunk) (streamID : string)
             (evt : changeEvent),
         results !! streamID = None ->
         resultSet.Patch (Ops := Fixture.results chunkSize) results streamID evt = Ok results).
Proof.
  split.
  - intros W RS Ops Codec Out watermark watermarkReached results evt c tableState rowKey
           Hrow Hts Hmode Hkey reached.
    unfold streamToWatermarkTurn. rewrite Hrow. mrun.
    rewrite Hts, Hmode, Hkey. cbn [String.eqb Ascii.eqb Bool.eqb negb tableModeBackfill
      tableModeIgnore tableModeActive]. cbv beta iota.
    destruct (compareTuples rowKey (Scanned tableState) <=? 0).
    + destruct (handleChangeEvent evt c) as [[[]|e| |] c']; reflexivity.
    + destruct (resultSet.Patch results _ evt); reflexivity.
  - intros chunkSize results streamID evt Hnone. cbn. rewrite Hnone. reflexivity.
Qed.

(** An instance of C2: with [public.t] scanned up to the key ["2"], an update
    of the row ["1"] is emitted directly. *)
Lemma C2_backfill_event_routing_witness :
  let c := Scenario.start (Scenario.tailing [Scenario.streamT]) Scenario.backfilling [] in
  let evt := Scenario.update "1" "x" 8 in
  streamToWatermarkTurn (Ops := Fixture.results 2) (Codec := Fixture.codec)
    (Out := Fixture.memory) "watermark-0" false ∅ evt c
  = match handleChangeEvent (Out := Fixture.memory) evt c with
    | (Ok _, c') => (Ok (Continue false ∅), c')
    | (Err err, c') => (Err (Errorf_w "error handling replication event" err), c')
    | (Panic, c') => (Panic, c')
    | (OutOfFuel, c') => (OutOfFuel, c')
    end.
Proof.
  intros c evt.
  exact (proj1 C2_backfill_event_routing _ _ (Fixture.results 2) Fixture.codec Fixture.memory
           "watermark-0" false ∅ evt c
           (mkTableState tableModeBackfill ["id"] (Some [Byte.x02; Byte.x32; Byte.x00]))
           (Some [Byte.x02; Byte.x31; Byte.x00])
           eq_refl eq_refl eq_refl eq_refl).
Defined.

(** ** Where the drain ends (C3) *)


Section Drain.
Context {W RS : Type}.
Context {Ops : resultSet.Ops RS} {Codec : TupleCodec} {Out : messageOutput}.
Implicit Types (c : @capture W).







(** One turn of the loop. *)
Lemma streamToWatermarkLoop_cons (evt : changeEvent) (rest : list changeEvent)
    (watermark : string) (reached : bool) (results : RS) c :
  streamToWatermarkLoop (evt :: rest) watermark reached results c
  = match streamToWatermarkTurn watermark reached results evt (receive evt rest c).2 with
    | (Ok (Continue reached' results'), c') =>
        streamToWatermarkLoop rest watermark reached' results' c'
    | (Ok (Return results'), c') => (Ok results', c')
    | (Err e, c') => (Err e, c')
    | (Panic, c') => (Panic, c')
    | (OutOfFuel, c') => (OutOfFuel, c')
    end.
Proof.
  cbn [streamToWatermarkLoop]. unfold bind, receive, ret. cbn [snd andThen].
  destruct (streamToWatermarkTurn _ _ _ _ _) as [[[? ?|?]|?| |] ?]; reflexivity.
Qed.



End Drain.

(** The drain of a log that holds the watermark of the cycle: it returns at
    the Commit of the watermark write and leaves what follows on the
    channel. *)
Example drain_stops_after_watermark_commit :
  let c := Scenario.start (Scenario.tailing [Scenario.streamT]) Scenario.backfilling
             (Scenario.watermarkWrite 0 10 ++ [Scenario.update "1" "x" 12; Scenario.commit 13]) in
  let r := streamToWatermark (Ops := Fixture.results 2) (Codec := Fixture.codec)
             (Out := Fixture.memory) "watermark-0" ∅ c in
  r.1 = Ok ∅
  /\ replication.Events (replStream r.2) = [Scenario.update "1" "x" 12; Scenario.commit 13]
  /\ encoder r.2 = [].
Proof. vm_compute. repeat split; reflexivity. Qed.

(** ** Which streams are pending, and which are buffered *)

Lemma elem_of_insert_sorted (x y : string) (l : list string) :
  y ∈ insert_sorted x l <-> y = x \/ y ∈ l.
Proof.
  induction l as [|z l IH]; cbn [insert_sorted].
  - rewrite list_elem_of_singleton, elem_of_nil. tauto.
  - destruct (String.leb x z).
    + rewrite elem_of_cons. tauto.
    + rewrite !elem_of_cons, IH. tauto.
Qed.

Lemma elem_of_sort_Strings (y : string) (l : list string) :
  y ∈ sort_Strings l <-> y ∈ l.
Proof.
  unfold sort_Strings. induction l as [|x l IH]; cbn [foldr]; [tauto|].
  rewrite elem_of_insert_sorted, elem_of_cons, IH. tauto.
Qed.

Lemma sort_Strings_nil (l : list string) : sort_Strings l = [] -> l = [].
Proof.
  destruct l as [|x l]; [reflexivity|]. intros Hnil.
  assert (Hx : x ∈ sort_Strings (x :: l)) by (apply elem_of_sort_Strings; left).
  rewrite Hnil in Hx. apply elem_of_nil in Hx. contradiction.
Qed.

(** A pending stream has an entry in Backfill mode, and conversely. *)
Lemma elem_of_pendingStreams (ps : PersistentState) (s : string) :
  s ∈ pendingStreams ps
  <-> exists ts, streamsOf ps !! s = Some ts /\ Mode ts = tableModeBackfill.
Proof.
  unfold pendingStreams. rewrite elem_of_sort_Strings, list_elem_of_fmap. split.
  - intros ([s' ts] & -> & Hin).
    apply elem_of_map_to_list in Hin.
    apply map_lookup_filter_Some in Hin as [Hts Hmode].
    exists ts. split; assumption.
  - intros (ts & Hts & Hmode).
    exists (s, ts). split; [reflexivity|].
    apply elem_of_map_to_list, map_lookup_filter_Some. split; assumption.
Qed.

Section Streams.
Context {W RS : Type}.
Context {DB : Database W} {Ops : resultSet.Ops RS} {Codec : TupleCodec}
        {Out : messageOutput} {Laws : ResultSetLaws RS}.
Implicit Types (c : @capture W).

(** A turn of the drain leaves the table states alone; the streams of the
    result set it returns were buffered before. *)
Lemma streamToWatermarkTurn_streams (watermark : string) (reached : bool)
    (results : RS) (evt : changeEvent) c :
  let r := streamToWatermarkTurn watermark reached results evt c in
  Streams (state r.2) = Streams (state c)
  /\ match r.1 with
     | Ok (Continue _ results') | Ok (Return results') =>
         forall s, s ∈ resultSet.Streams results' -> s ∈ resultSet.Streams results
     | _ => True
     end.
Proof.
  unfold streamToWatermarkTurn.
  destruct (String.eqb (Type_ evt) "Commit").
  { mrun. destruct reached; cbn [fst snd state Streams]; split; auto. }
  mrun.
  pose proof (handleChangeEvent_frame evt c) as (Hst & _).
  destruct (streamsOf (state c) !! _) as [ts|]; mrun; [|split; auto].
  destruct (String.eqb (Mode ts) tableModeIgnore); mrun; [split; auto|].
  destruct (String.eqb (Mode ts) tableModeActive); mrun.
  { destruct (handleChangeEvent evt c) as [[[]|e| |] c']; cbn [fst snd andThen wrapped] in *;
      rewrite Hst; split; auto. }
  destruct (negb _); mrun; [split; auto|].
  destruct (encodeRowKey _ _) as [rowKey|e| |]; mrun; try (split; auto; fail).
  destruct (compareTuples _ _ <=? 0); mrun.
  { destruct (handleChangeEvent evt c) as [[[]|e| |] c']; cbn [fst snd andThen wrapped] in *;
      rewrite Hst; split; auto. }
  destruct (resultSet.Patch _ _ _) as [results'|e| |] eqn:Hpatch; cbn [fst snd];
    split; auto.
  exact (Streams_Patch _ _ _ _ Hpatch).
Qed.

Lemma streamToWatermarkLoop_streams (events : list changeEvent) :
  forall (watermark : string) (reached : bool) (results : RS) c,
    let r := streamToWatermarkLoop events watermark reached results c in
    Streams (state r.2) = Streams (state c)
    /\ match r.1 with
       | Ok results' =>
           forall s, s ∈ resultSet.Streams results' -> s ∈ resultSet.Streams results
       | _ => True
       end.
Proof.
  induction events as [|evt rest IH]; intros watermark reached results c; cbn zeta.
  - cbn. split; auto.
  - rewrite streamToWatermarkLoop_cons.
    set (c1 := (receive evt rest c).2).
    assert (Hst1 : Streams (state c1) = Streams (state c)) by reflexivity.
    clearbody c1.
    pose proof (streamToWatermarkTurn_streams watermark reached results evt c1)
      as Hturn. cbn zeta in Hturn.
    destruct (streamToWatermarkTurn watermark reached results evt c1)
      as [[[reached' results'|results']|e| |] c2]; cbn [fst snd andThen wrapped] in *;
      destruct Hturn as [Hst2 Hsub]; try (split; [congruence|auto]; fail).
    specialize (IH watermark reached' results' c2). cbn zeta in IH.
    destruct IH as [Hst3 Hsub3]. split; [congruence|].
    destruct (streamToWatermarkLoop rest watermark reached' results' c2).1; auto.
Qed.

Lemma streamToWatermark_streams (watermark : string) (results : RS) c :
  let r := streamToWatermark watermark results c in
  Streams (state r.2) = Streams (state c)
  /\ match r.1 with
     | Ok results' =>
         forall s, s ∈ resultSet.Streams results' -> s ∈ resultSet.Streams results
     | _ => True
     end.
Proof. unfold streamToWatermark. mrun. apply streamToWatermarkLoop_streams. Qed.

(** [backfillStreams] leaves the state alone and buffers chunks for the
    streams it was given only. *)
Lemma backfillLoop_streams (streams : list string) :
  forall (results : RS) c,
    let r := backfillLoop streams results c in
    state r.2 = state c
    /\ match r.1 with
       | Ok results' =>
           forall s, s ∈ resultSet.Streams results' ->
                     s ∈ streams \/ s ∈ resultSet.Streams results
       | _ => True
       end.
Proof.
  induction streams as [|streamID rest IH]; intros results c; cbn zeta.
  - cbn. split; auto.
  - cbn [backfillLoop]. mrun.
    destruct (streamsOf (state c) !! streamID) as [streamState|]; mrun; [|split; auto].
    destruct (scanTable (connScan c) streamID _ _) as [[evts|e| |] w]; mrun;
      try (split; auto; fail).
    destruct (resultSet.Buffer results streamID _ evts) as [results1|e| |] eqn:Hbuf;
      mrun; try (split; auto; fail).
    match goal with
    | |- context [backfillLoop rest results1 ?c1] =>
        specialize (IH results1 c1); cbn zeta in IH; destruct IH as [Hst Hsub];
        destruct (backfillLoop rest results1 c1) as [r c2]
    end.
    cbn [fst snd state] in *. split; [exact Hst|].
    destruct r as [results'|e| |]; auto.
    intros s Hs. destruct (Hsub s Hs) as [Hin|Hin].
    + left. right. exact Hin.
    + destruct (Streams_Buffer _ _ _ _ _ Hbuf s Hin) as [->|Hin'].
      * left. left.
      * right. exact Hin'.
Qed.

Lemma backfillStreams_pending (ps : PersistentState) c :
  state c = ps ->
  let r := backfillStreams (RS := RS) (pendingStreams ps) c in
  state r.2 = state c
  /\ match r.1 with
     | Ok results' => buffersPending results' r.2
     | _ => True
     end.
Proof.
  intros Hps. cbn zeta. unfold backfillStreams.
  pose proof (backfillLoop_streams (pendingStreams ps) resultSet.new c) as Hloop.
  cbn zeta in Hloop. destruct Hloop as [Hst Hsub]. split; [exact Hst|].
  destruct (backfillLoop _ _ c) as [[results'|e| |] c']; cbn [fst snd andThen wrapped] in *; auto.
  intros s Hs. rewrite Hst, Hps.
  destruct (Hsub s Hs) as [Hin|Hin].
  - apply elem_of_pendingStreams. exact Hin.
  - rewrite Streams_new in Hin. apply elem_of_nil in Hin. contradiction.
Qed.

Lemma writeWatermark_state c : state (writeWatermark_ c).2 = state c.
Proof. unfold writeWatermark_. mrun. reflexivity. Qed.

End Streams.

(** ** Flushing the buffer, and the consistency of checkpoints (C4) *)

(** The buffer of the fixture keeps the laws of the result set. *)
Lemma fixture_Streams_elem (chunkSize : Z) (results : gmap string Fixture.chunk) (s : string) :
  s ∈ resultSet.Streams (Ops := Fixture.results chunkSize) results <-> is_Some (results !! s).
Proof.
  cbn. rewrite elem_of_sort_Strings, list_elem_of_fmap. split.
  - intros ([s' ch] & -> & Hin). apply elem_of_map_to_list in Hin. eauto.
  - intros [ch Hch]. exists (s, ch). split; [reflexivity|].
    apply elem_of_map_to_list. exact Hch.
Qed.

#[export] Instance fixture_laws (chunkSize : Z) :
  ResultSetLaws (gmap string Fixture.chunk) (Ops := Fixture.results chunkSize).
Proof.
  split.
  - cbn. rewrite map_to_list_empty. reflexivity.
  - cbn. rewrite map_to_list_empty. reflexivity.
  - intros results results' streamID keyColumns evts Hbuf s Hs.
    apply fixture_Streams_elem in Hs. cbn in Hbuf.
    destruct (Fixture.bufferRows _ _ _) as [ch|e| |]; try discriminate.
    injection Hbuf as <-.
    destruct (decide (s = streamID)) as [->|Hne]; [left; reflexivity|right].
    apply fixture_Streams_elem. rewrite lookup_insert_ne in Hs by congruence. exact Hs.
  - intros results results' streamID evt Hpatch s Hs.
    apply fixture_Streams_elem in Hs. apply fixture_Streams_elem. cbn in Hpatch.
    destruct (results !! streamID) as [ch|] eqn:Hch.
    + destruct (Fixture.patchChunk ch evt) as [ch'|e| |]; try discriminate.
      injection Hpatch as <-.
      destruct (decide (s = streamID)) as [->|Hne]; [rewrite Hch; eauto|].
      rewrite lookup_insert_ne in Hs by congruence. exact Hs.
    + injection Hpatch as <-. exact Hs.
Qed.

Section Consistency.
Context {W RS : Type}.
Context {DB : Database W} {Ops : resultSet.Ops RS} {Codec : TupleCodec}
        {Out : messageOutput} {Laws : ResultSetLaws RS}.
Implicit Types (c : @capture W).

Lemma sameButOutput_trans c1 c2 c3 :
  sameButOutput c1 c2 -> sameButOutput c2 c3 -> sameButOutput c1 c3.
Proof. unfold sameButOutput. intuition congruence. Qed.

Lemma emitChanges_frame (evts : list changeEvent) :
  forall c, sameButOutput c (emitChanges evts c).2.
Proof.
  induction evts as [|evt rest IH]; intros c; [apply sameButOutput_refl|].
  cbn [emitChanges]. mrun.
  pose proof (handleChangeEvent_frame evt c) as Hh.
  destruct (handleChangeEvent evt c) as [[[]|e| |] c1]; cbn [snd andThen wrapped] in *; try exact Hh.
  exact (sameButOutput_trans _ _ _ Hh (IH c1)).
Qed.

(** *** The primitive steps keep the checkpoints consistent *)

Lemma consistent_receive (evt : changeEvent) (rest : list changeEvent) :
  invariant consistent (receive (W := W) evt rest).
Proof. intros c Hc. exact Hc. Qed.

Lemma consistent_onConn (A : Type) (f : W -> outcome A * W) :
  invariant consistent (onConn f).
Proof. intros c Hc. exact Hc. Qed.

Lemma consistent_setCurrentLSN (lsn : Z) : invariant consistent (setCurrentLSN (W := W) lsn).
Proof. intros c Hc. exact Hc. Qed.

Lemma consistent_handleChangeEvent (evt : changeEvent) :
  invariant consistent (handleChangeEvent (W := W) evt).
Proof.
  intros c [Hst Henc].
  pose proof (handleChangeEvent_frame evt c) as (Hsame & _).
  pose proof (handleChangeEvent_encoder evt c) as Hout.
  destruct (handleChangeEvent evt c) as [r c']. cbn [snd andThen wrapped] in *.
  split; [rewrite Hsame; exact Hst|].
  destruct r as [[]|e| |]; try (rewrite Hout; exact Henc).
  destruct Hout as (data & -> & _).
  apply Forall_app. split; [exact Henc|]. apply Forall_singleton. exact I.
Qed.

Lemma consistent_emitState c : consistent c -> consistent (emitState (state c) c).2.
Proof.
  intros [Hst Henc].
  pose proof (emitState_frame (state c) c) as (Hsame & _).
  pose proof (emitState_encoder (state c) c) as Hout.
  destruct (emitState (state c) c) as [r c']. cbn [snd andThen wrapped] in *.
  split; [rewrite Hsame; exact Hst|].
  destruct r as [[]|e| |]; rewrite Hout; try exact Henc.
  apply Forall_app. split; [exact Henc|]. apply Forall_singleton. exact Hst.
Qed.

(** *** updateState *)

Lemma consistent_setStreams (streams : gmap string TableState) c :
  consistent c ->
  (forall s ts, streams !! s = Some ts -> tableConsistent ts) ->
  consistent (setStreams streams c).2.
Proof. intros [_ Henc] Hstreams. split; [exact Hstreams|exact Henc]. Qed.

Lemma consistent_updateStreams (dbPrimaryKeys : gmap string (list string))
    (streams : list airbyte.ConfiguredStream) :
  forall (stateDirty : bool) c,
    consistent c -> consistent (updateStreams dbPrimaryKeys streams stateDirty c).2.
Proof.
  induction streams as [|catalogStream rest IH]; intros stateDirty c Hc; [exact Hc|].
  cbn [updateStreams]. mrun.
  destruct (catalogKeyColumns _ _) as [catalogPrimaryKey|e| |]; mrun; try exact Hc.
  destruct (bool_decide _); mrun; [exact Hc|].
  destruct (streamsOf (state c) !! catalogStreamID catalogStream) as [streamState|] eqn:Hts;
    mrun.
  - destruct (negb _); mrun; [exact Hc|]. apply IH. exact Hc.
  - apply IH.
    apply (consistent_setStreams _ c Hc).
    intros s ts Hs. apply lookup_insert_Some in Hs as [[_ <-]|[_ Hs]].
    + intros Hmode. discriminate Hmode.
    + exact (proj1 Hc s ts Hs).
Qed.

Lemma consistent_forgetStreams (streams : list airbyte.ConfiguredStream)
    (stateDirty : bool) c :
  consistent c -> consistent (forgetStreams streams stateDirty c).2.
Proof.
  intros Hc. unfold forgetStreams. mrun.
  destruct (forallb _ _); mrun; [exact Hc|].
  apply (consistent_setStreams _ c Hc).
  intros s ts Hs. apply map_lookup_filter_Some in Hs as [Hs _].
  exact (proj1 Hc s ts Hs).
Qed.

Lemma consistent_updateState : invariant consistent (updateState (W := W)).
Proof.
  intros c Hc. unfold updateState.
  apply invariant_bind; [apply invariant_gets| |exact Hc]. intros ps.
  apply invariant_bind.
  { destruct (Streams ps); [apply invariant_ret|].
    apply invariant_bind; [|intros; apply invariant_ret].
    intros c0 Hc0. apply (consistent_setStreams _ c0 Hc0).
    intros s ts Hs. rewrite lookup_empty in Hs. discriminate. }
  intros stateDirty.
  apply invariant_bind; [apply invariant_wrapErr, consistent_onConn|]. intros pks.
  apply invariant_bind; [apply invariant_gets|]. intros catalog.
  apply invariant_bind; [intros c0; apply consistent_updateStreams|]. intros dirty1.
  apply invariant_bind; [intros c0; apply consistent_forgetStreams|]. intros dirty2.
  destruct dirty2; [|apply invariant_ret].
  apply framed_checkpoint_ignoreErr. exact consistent_emitState.
Qed.

(** *** emitBuffered *)

Lemma streamsOf_mk (lsn : Z) (streams : gmap string TableState) :
  streamsOf (mkPersistentState lsn (Some streams)) = streams.
Proof. reflexivity. Qed.

(** The assignments of [emitBuffered] to the TableState of one stream. *)
Lemma flushStream_run (results : RS) (streamID : string) c :
  (if resultSet.Complete results streamID
   then bind (alterStream streamID
                (fun ts => mkTableState tableModeActive (ScanKey ts) (Scanned ts)))
             (fun _ => alterStream streamID
                         (fun ts => mkTableState (Mode ts) (ScanKey ts) None))
   else alterStream streamID
          (fun ts => mkTableState (Mode ts) (ScanKey ts)
                                  (resultSet.Scanned results streamID))) c
  = match streamsOf (state c) !! streamID with
    | Some ts =>
        (Ok tt, mkCapture (mkPersistentState (CurrentLSN (state c))
                             (Some (<[streamID := flushedTable results streamID ts]>
                                      (streamsOf (state c)))))
                          (config c) (catalog c) (encoder c) (connScan c) (replStream c)
                          (changesSinceLastCheckpoint c))
    | None => (Panic, c)
    end.
Proof.
  unfold flushedTable, alterStream.
  destruct (resultSet.Complete results streamID); mrun;
    destruct (streamsOf (state c) !! streamID) as [ts|] eqn:Hts; mrun; try reflexivity.
  rewrite !streamsOf_mk, lookup_insert_eq. mrun.
  rewrite ?streamsOf_mk, insert_insert_eq. reflexivity.
Qed.

Lemma emitStreams_cons (streamID : string) (rest : list string) (results : RS) c :
  emitStreams (streamID :: rest) results c
  = match emitChanges (resultSet.Changes results streamID) c with
    | (Ok _, c1) =>
        match streamsOf (state c1) !! streamID with
        | Some ts =>
            emitStreams rest results
              (mkCapture (mkPersistentState (CurrentLSN (state c1))
                            (Some (<[streamID := flushedTable results streamID ts]>
                                     (streamsOf (state c1)))))
                         (config c1) (catalog c1) (encoder c1) (connScan c1)
                         (replStream c1) (changesSinceLastCheckpoint c1))
        | None => (Panic, c1)
        end
    | (Err e, c1) => (Err e, c1)
    | (Panic, c1) => (Panic, c1)
    | (OutOfFuel, c1) => (OutOfFuel, c1)
    end.
Proof.
  cbn [emitStreams]. unfold bind at 1.
  destruct (emitChanges _ c) as [[[]|e| |] c1]; cbn [andThen]; try reflexivity.
  unfold bind at 1. rewrite flushStream_run.
  destruct (streamsOf (state c1) !! streamID); reflexivity.
Qed.

Lemma flushedTable_idem (results : RS) (streamID : string) (ts : TableState) :
  flushedTable results streamID (flushedTable results streamID ts)
  = flushedTable results streamID ts.
Proof. unfold flushedTable. destruct (resultSet.Complete _ _); reflexivity. Qed.

(** What a successful flush has done to the table states. *)
Lemma emitStreams_effect (results : RS) (streams : list string) :
  forall c,
    match emitStreams streams results c with
    | (Ok _, c') =>
        (forall s, s ∈ streams ->
                   exists ts, streamsOf (state c) !! s = Some ts
                              /\ streamsOf (state c') !! s
                                 = Some (flushedTable results s ts))
        /\ (forall s, s ∉ streams -> streamsOf (state c') !! s = streamsOf (state c) !! s)
    | _ => True
    end.
Proof.
  induction streams as [|streamID rest IH]; intros c.
  - cbn. split; [intros s Hs; apply elem_of_nil in Hs; contradiction|reflexivity].
  - rewrite emitStreams_cons.
    pose proof (emitChanges_frame (resultSet.Changes results streamID) c) as (Hst & _).
    destruct (emitChanges _ c) as [[[]|e| |] c1]; cbn [snd andThen wrapped] in *; try exact I.
    rewrite Hst.
    destruct (streamsOf (state c) !! streamID) as [ts|] eqn:Hts; [|exact I].
    match goal with |- context [emitStreams rest results ?c2] => specialize (IH c2) end.
    destruct (emitStreams rest results _) as [[[]|e| |] c']; try exact I.
    destruct IH as [Hin Hout]. cbn [state] in Hin, Hout.
    rewrite streamsOf_mk in Hin, Hout.
    split.
    + intros s Hs.
      destruct (decide (s ∈ rest)) as [Hrest|Hrest].
      * destruct (Hin s Hrest) as (ts1 & Hts1 & Hts').
        destruct (decide (s = streamID)) as [->|Hne].
        -- rewrite lookup_insert_eq in Hts1. injection Hts1 as <-.
           exists ts. split; [exact Hts|]. rewrite Hts'. f_equal. apply flushedTable_idem.
        -- rewrite lookup_insert_ne in Hts1 by congruence. exists ts1. split; assumption.
      * apply elem_of_cons in Hs as [->|Hs]; [|contradiction].
        exists ts. split; [exact Hts|].
        rewrite (Hout streamID Hrest). apply lookup_insert_eq.
    + intros s Hs. apply not_elem_of_cons in Hs as [Hne Hrest].
      rewrite (Hout s Hrest). apply lookup_insert_ne. congruence.
Qed.

(** A flush keeps the checkpoints consistent when every stream it flushes
    is either complete or not in Active mode. *)
Lemma consistent_emitStreams (results : RS) (streams : list string) :
  forall c,
    consistent c ->
    (forall s, s ∈ streams ->
               resultSet.Complete results s = true
               \/ exists ts, streamsOf (state c) !! s = Some ts
                             /\ Mode ts <> tableModeActive) ->
    consistent (emitStreams streams results c).2.
Proof.
  induction streams as [|streamID rest IH]; intros c Hc Hstreams; [exact Hc|].
  rewrite emitStreams_cons.
  pose proof (emitChanges_frame (resultSet.Changes results streamID) c) as (Hst & _).
  pose proof (framed_emitChanges consistent consistent_handleChangeEvent
                (resultSet.Changes results streamID) c Hc) as Hc1.
  destruct (emitChanges _ c) as [[[]|e| |] c1]; cbn [snd andThen wrapped] in *; try exact Hc1.
  rewrite Hst.
  destruct (streamsOf (state c) !! streamID) as [ts|] eqn:Hts; [|exact Hc1].
  apply IH.
  - split; [|exact (proj2 Hc1)].
    intros s ts' Hs. cbn [state] in Hs. rewrite streamsOf_mk in Hs.
    apply lookup_insert_Some in Hs as [[<- <-]|[_ Hs]].
    + unfold flushedTable, tableConsistent.
      destruct (resultSet.Complete results streamID) eqn:Hcomplete; [reflexivity|].
      cbn [Mode Scanned]. intros Hmode.
      destruct (Hstreams streamID) as [Hc'|(ts0 & Hts0 & Hmode0)]; [left|congruence|].
      rewrite Hts in Hts0. injection Hts0 as <-. contradiction.
    + exact (proj1 Hc s ts' Hs).
  - intros s Hs. cbn [state]. rewrite streamsOf_mk.
    destruct (Hstreams s) as [Hcomplete|(ts0 & Hts0 & Hmode0)];
      [right; exact Hs|left; exact Hcomplete|].
    destruct (decide (s = streamID)) as [->|Hne].
    + rewrite Hts in Hts0. injection Hts0 as <-.
      destruct (resultSet.Complete results streamID) eqn:Hcomplete; [left; reflexivity|].
      right. rewrite lookup_insert_eq. eexists. split; [reflexivity|].
      unfold flushedTable. rewrite Hcomplete. exact Hmode0.
    + right. rewrite lookup_insert_ne by congruence. exists ts0. split; assumption.
Qed.

Lemma consistent_emitBuffered (results : RS) c :
  consistent c -> buffersPending results c -> consistent (emitBuffered results c).2.
Proof.
  intros Hc Hpending. unfold emitBuffered.
  change (bind ?m ?k c) with (andThen (m c) k).
  assert (Hc1 : consistent (emitStreams (resultSet.Streams results) results c).2).
  { apply consistent_emitStreams; [exact Hc|].
    intros s Hs. right. destruct (Hpending s Hs) as (ts & Hts & Hmode).
    exists ts. split; [exact Hts|]. rewrite Hmode. discriminate. }
  destruct (emitStreams _ results c) as [[[]|e| |] c1]; cbn [snd andThen] in *;
    try exact Hc1.
  exact (framed_checkpoint consistent consistent_emitState c1 Hc1).
Qed.

(** One turn of the loop of the interleaved backfill. *)
Lemma interleave_S (fuel : nat) (watermark : string) (results : RS) c :
  interleave (S fuel) watermark results c
  = match pendingStreams (state c) with
    | [] => (Ok tt, c)
    | _ :: _ =>
        andThen (wrapped "error streaming until watermark"
                   (streamToWatermark watermark results c))
          (fun results c =>
             andThen (wrapped "error emitting buffered results" (emitBuffered results c))
               (fun _ c =>
                  andThen (wrapped "error performing backfill"
                             (backfillStreams (pendingStreams (state c)) c))
                    (fun results c =>
                       andThen (wrapped "error writing next watermark" (writeWatermark_ c))
                         (fun watermark c => interleave fuel watermark results c))))
    end.
Proof.
  cbn [interleave]. unfold bind at 1. unfold gets. cbn [andThen].
  destruct (pendingStreams _); reflexivity.
Qed.

Lemma buffersPending_frame (results results' : RS) c c' :
  Streams (state c') = Streams (state c) ->
  (forall s, s ∈ resultSet.Streams results' -> s ∈ resultSet.Streams results) ->
  buffersPending results c -> buffersPending results' c'.
Proof.
  intros Hst Hsub Hpending s Hs. unfold streamsOf. rewrite Hst.
  exact (Hpending s (Hsub s Hs)).
Qed.

Lemma consistent_interleave (fuel : nat) :
  forall (watermark : string) (results : RS) c,
    consistent c -> buffersPending results c ->
    consistent (interleave fuel watermark results c).2.
Proof.
  induction fuel as [|fuel IH]; intros watermark results c Hc Hpending.
  - cbn [interleave]. mrun. destruct (pendingStreams _); exact Hc.
  - rewrite interleave_S.
    destruct (pendingStreams (state c)) as [|pending0 pending]; [exact Hc|].
    pose proof (framed_streamToWatermark consistent consistent_receive
                  consistent_setCurrentLSN consistent_handleChangeEvent
                  watermark results c Hc) as Hc1.
    pose proof (streamToWatermark_streams watermark results c) as Hs1.
    cbn zeta in Hs1. destruct Hs1 as [Hst1 Hsub1].
    destruct (streamToWatermark watermark results c) as [[results1|e| |] c1];
      cbn [fst snd andThen wrapped] in *; try exact Hc1.
    pose proof (consistent_emitBuffered results1 c1 Hc1
                  (buffersPending_frame _ _ _ _ Hst1 Hsub1 Hpending)) as Hc2.
    destruct (emitBuffered results1 c1) as [[[]|e| |] c2];
      cbn [fst snd andThen wrapped] in *; try exact Hc2.
    pose proof (framed_backfillStreams consistent consistent_onConn
                  (pendingStreams (state c2)) c2 Hc2) as Hc3.
    pose proof (backfillStreams_pending (state c2) c2 eq_refl) as Hs3.
    cbn zeta in Hs3. destruct Hs3 as [Hst3 Hpending3].
    destruct (backfillStreams (pendingStreams (state c2)) c2) as [[results3|e| |] c3];
      cbn [fst snd andThen wrapped] in *; try exact Hc3.
    pose proof (framed_writeWatermark consistent consistent_onConn c3 Hc3) as Hc4.
    pose proof (writeWatermark_state c3) as Hst4.
    destruct (writeWatermark_ c3) as [[watermark'|e| |] c4];
      cbn [fst snd andThen wrapped] in *; try exact Hc4.
    apply IH; [exact Hc4|].
    apply (buffersPending_frame results3 results3 c3 c4); [congruence|auto|exact Hpending3].
Qed.

Lemma consistent_streamChanges (fuel : nat) :
  invariant consistent (streamChanges (RS := RS) fuel).
Proof.
  intros c Hc. unfold streamChanges, interleavedBackfill, streaming.
  apply invariant_bind; [| |exact Hc].
  - apply invariant_bind; [apply invariant_gets|]. intros ps.
    destruct (pendingStreams ps) as [|pending0 pending]; [apply invariant_ret|].
    apply invariant_bind;
      [apply invariant_wrapErr, framed_writeWatermark, consistent_onConn|].
    intros watermark c0 Hc0. apply consistent_interleave; [exact Hc0|].
    intros s Hs. rewrite Streams_nil in Hs. apply elem_of_nil in Hs. contradiction.
  - intros _. apply invariant_bind; [apply invariant_gets|]. intros repl.
    apply framed_streamChangesLoop.
    + exact consistent_receive.
    + exact consistent_setCurrentLSN.
    + exact consistent_handleChangeEvent.
    + exact consistent_emitState.
Qed.

(** C4: when a flush succeeds, every stream flushed from the result-set
    buffer has its TableState updated: if the chunk was complete, the mode
    is Active and [scanned] is cleared, otherwise [scanned] is what the
    result set gives as the key scanned up to and the mode is unchanged; in
    both cases the scan key is kept, the other streams are untouched, and
    the state so updated is the State checkpoint emitted last.
    Consequently, in a capture that starts from a state in which Active
    implies that [scanned] is absent (a fresh state, or a state that an
    earlier capture has emitted), every State checkpoint that is emitted
    satisfies: mode Active implies [scanned] absent. *)
Theorem C4_flush_updates_and_checkpoints_consistent :
  (forall (results : RS) c,
      match emitBuffered results c with
      | (Ok _, c') =>
          (forall s, s ∈ resultSet.Streams results ->
                     exists ts ts',
                       streamsOf (state c) !! s = Some ts
                       /\ streamsOf (state c') !! s = Some ts'
                       /\ ScanKey ts' = ScanKey ts
                       /\ if resultSet.Complete results s
                          then Mode ts' = tableModeActive /\ Scanned ts' = None
                          else Mode ts' = Mode ts
                               /\ Scanned ts' = resultSet.Scanned results s)
          /\ (forall s, s ∉ resultSet.Streams results ->
                        streamsOf (state c') !! s = streamsOf (state c) !! s)
          /\ exists emitted, encoder c' = emitted ++ [MessageState (state c')]
      | _ => True
      end)
  /\ (forall (fuel : nat) (config : Config) (catalog : airbyte.ConfiguredCatalog)
             (state : PersistentState),
        stateConsistent state ->
        Forall checkpointConsistent
               (RunCapture (W := W) (RS := RS) fuel config catalog state).2).
Proof.
  split.
  - intros results c. unfold emitBuffered.
    change (bind ?m ?k c) with (andThen (m c) k).
    pose proof (emitStreams_effect results (resultSet.Streams results) c) as Heff.
    destruct (emitStreams _ results c) as [[[]|e| |] c1]; cbn [andThen]; try exact I.
    mrun.
    pose proof (emitState_frame (state c1) c1) as (Hst & _).
    pose proof (emitState_encoder (state c1) c1) as Henc.
    destruct (emitState (state c1) c1) as [[[]|e| |] c']; cbn [snd andThen wrapped] in *; try exact I.
    rewrite Hst. destruct Heff as [Hin Hout].
    split; [|split; [exact Hout|exists (encoder c1); exact Henc]].
    intros s Hs. destruct (Hin s Hs) as (ts & Hts & Hts').
    exists ts, (flushedTable results s ts).
    split; [exact Hts|]. split; [exact Hts'|].
    unfold flushedTable. destruct (resultSet.Complete results s); cbn; auto.
  - intros fuel config catalog state Hstate. unfold RunCapture.
    destruct (pgx_Connect _) as [connScan|e| |]; try constructor.
    destruct (pgconn_ParseConfig _); try constructor.
    destruct (pgconn_ConnectConfig _); try constructor.
    destruct (startReplication _ _ _) as [replStream|e| |]; try constructor.
    set (c0 := mkCapture state config catalog [] connScan replStream 0).
    assert (Hc0 : consistent c0) by (split; [exact Hstate|constructor]).
    pose proof (invariant_wrapErr consistent "error updating capture state" _
                  consistent_updateState c0 Hc0) as Hc1.
    destruct (wrapErr _ updateState c0) as [[[]|e| |] c1]; cbn [snd andThen wrapped] in *;
      try exact (proj2 Hc1).
    pose proof (consistent_streamChanges fuel c1 Hc1) as Hc2.
    destruct (streamChanges fuel c1) as [r c2]. exact (proj2 Hc2).
Qed.

End Consistency.

(** An instance of C4: the capture of [public.t] from a fresh state, in
    chunks of two rows. *)
Lemma C4_flush_updates_and_checkpoints_consistent_witness :
  Forall checkpointConsistent
    (RunCapture (DB := Fixture.database 2 Scenario.db
                         (Scenario.watermarkWrite 0 10 ++ Scenario.watermarkWrite 1 20
                          ++ Scenario.watermarkWrite 2 30 ++ Scenario.watermarkWrite 3 40))
                (Ops := Fixture.results 2) (Codec := Fixture.codec) (Out := Fixture.memory)
                10 Scenario.cfg (Scenario.tailing [Scenario.streamT]) Scenario.fresh).2.
Proof.
  apply (proj2 (C4_flush_updates_and_checkpoints_consistent
                  (Laws := fixture_laws 2))).
  intros s ts Hs. vm_compute in Hs. discriminate Hs.
Defined.

(** ** What holds after every call that returns a value *)

Section Preserved.
Context {W : Type}.
Implicit Types (c : @capture W) (inv : @capture W -> Prop).

Lemma preserved_ret {A} inv (a : A) : preserved inv (ret a).
Proof. intros c Hc. exact Hc. Qed.

Lemma preserved_fail {A} inv (e : error) : preserved inv (@fail W A e).
Proof. intros c Hc. exact I. Qed.

Lemma preserved_panic {A} inv : preserved inv (@panic W A).
Proof. intros c Hc. exact I. Qed.

Lemma preserved_outOfFuel {A} inv : preserved inv (@outOfFuel W A).
Proof. intros c Hc. exact I. Qed.

Lemma preserved_lift {A} inv (o : outcome A) : preserved inv (lift o).
Proof. intros c Hc. unfold lift. destruct o; [exact Hc|exact I..]. Qed.

Lemma preserved_gets {A} inv (f : capture -> A) : preserved inv (gets f).
Proof. intros c Hc. exact Hc. Qed.

Lemma preserved_bind {A B} inv (m : M A) (k : A -> M B) :
  preserved inv m -> (forall a, preserved inv (k a)) -> preserved inv (bind m k).
Proof.
  intros Hm Hk c Hc. unfold bind.
  specialize (Hm c Hc).
  destruct (m c) as [[a|e| |] c1]; cbn [andThen]; try exact I.
  exact (Hk a c1 Hm).
Qed.

Lemma preserved_wrapErr {A} inv (msg : string) (m : M A) :
  preserved inv m -> preserved inv (wrapErr msg m).
Proof.
  intros Hm c Hc. unfold wrapErr, wrapped. specialize (Hm c Hc).
  destruct (m c) as [[a|e| |] c1]; exact Hm.
Qed.

End Preserved.

(** Takes a method apart like [invariant_step] does. *)
Ltac preserved_step :=
  lazymatch goal with
  | |- preserved _ (bind (gets state) emitState) => fail
  | |- preserved _ (bind (gets state) (fun ps => wrapErr _ (emitState ps))) => fail
  | |- preserved _ (bind _ _) => apply preserved_bind; [|intros ?]
  | |- preserved _ (ret _) => apply preserved_ret
  | |- preserved _ (fail _) => apply preserved_fail
  | |- preserved _ panic => apply preserved_panic
  | |- preserved _ outOfFuel => apply preserved_outOfFuel
  | |- preserved _ (lift _) => apply preserved_lift
  | |- preserved _ (gets _) => apply preserved_gets
  | |- preserved _ (wrapErr _ _) => apply preserved_wrapErr
  | |- preserved _ (match ?x with _ => _ end) => destruct x
  | |- preserved _ (let _ := _ in _) => cbv zeta
  end.

Ltac preserved_steps := repeat preserved_step.

(** A property of the encoder and the counter that the emission of a record
    and of the current state re-establish holds after every part of
    [streamChanges] that returns a value. *)
Section FramedOk.
Context {W RS : Type}.
Context {DB : Database W} {Ops : resultSet.Ops RS} {Codec : TupleCodec}
        {Out : messageOutput}.
Variable inv : @capture W -> Prop.
Hypothesis ok_receive : forall evt rest, preserved inv (receive evt rest).
Hypothesis ok_onConn : forall A (f : W -> outcome A * W), preserved inv (onConn f).
Hypothesis ok_setState : forall ps, preserved inv (setState ps).
Hypothesis ok_handleChangeEvent : forall evt, preserved inv (handleChangeEvent evt).
Hypothesis ok_emitState :
  forall c, inv c -> match emitState (state c) c with (Ok _, c') => inv c' | _ => True end.

Lemma ok_checkpoint : preserved inv (bind (gets state) emitState).
Proof. intros c Hc. exact (ok_emitState c Hc). Qed.

Lemma ok_checkpoint_wrapErr (msg : string) :
  preserved inv (bind (gets state) (fun ps => wrapErr msg (emitState ps))).
Proof.
  intros c Hc. pose proof (ok_emitState c Hc) as Hes.
  unfold bind, andThen, gets, wrapErr, wrapped. cbv beta iota.
  destruct (emitState (state c) c) as [[[]|e| |] c']; exact Hes.
Qed.

Lemma ok_setStreams (streams : gmap string TableState) : preserved inv (setStreams streams).
Proof. unfold setStreams. preserved_steps. auto. Qed.

Lemma ok_setCurrentLSN (lsn : Z) : preserved inv (setCurrentLSN lsn).
Proof. unfold setCurrentLSN. preserved_steps. auto. Qed.

Lemma ok_alterStream (streamID : string) (f : TableState -> TableState) :
  preserved inv (alterStream streamID f).
Proof. unfold alterStream. preserved_steps. apply ok_setStreams. Qed.

Lemma ok_streamToWatermarkTurn (watermark : string) (reached : bool)
    (results : RS) (evt : changeEvent) :
  preserved inv (streamToWatermarkTurn watermark reached results evt).
Proof. unfold streamToWatermarkTurn. preserved_steps; auto using ok_setCurrentLSN. Qed.

Lemma ok_streamToWatermarkLoop (events : list changeEvent) :
  forall (watermark : string) (reached : bool) (results : RS),
    preserved inv (streamToWatermarkLoop events watermark reached results).
Proof.
  induction events as [|evt rest IH]; intros watermark reached results;
    cbn [streamToWatermarkLoop]; preserved_steps;
    auto using ok_streamToWatermarkTurn.
Qed.

Lemma ok_streamToWatermark (watermark : string) (results : RS) :
  preserved inv (streamToWatermark watermark results).
Proof. unfold streamToWatermark. preserved_steps. apply ok_streamToWatermarkLoop. Qed.

Lemma ok_emitChanges (evts : list changeEvent) : preserved inv (emitChanges evts).
Proof.
  induction evts as [|evt rest IH]; cbn [emitChanges]; preserved_steps; auto.
Qed.

Lemma ok_emitStreams (streams : list string) (results : RS) :
  preserved inv (emitStreams streams results).
Proof.
  induction streams as [|streamID rest IH]; cbn [emitStreams]; preserved_steps;
    auto using ok_emitChanges, ok_alterStream.
Qed.

Lemma ok_emitBuffered (results : RS) : preserved inv (emitBuffered results).
Proof.
  unfold emitBuffered.
  apply preserved_bind; [apply ok_emitStreams|intros _].
  apply ok_checkpoint.
Qed.

Lemma ok_backfillLoop (streams : list string) :
  forall results : RS, preserved inv (backfillLoop streams results).
Proof.
  induction streams as [|streamID rest IH]; intros results;
    cbn [backfillLoop]; preserved_steps; auto.
Qed.

Lemma ok_writeWatermark : preserved inv writeWatermark_.
Proof. unfold writeWatermark_. preserved_steps. auto. Qed.

Lemma ok_interleave (fuel : nat) :
  forall (watermark : string) (results : RS),
    preserved inv (interleave fuel watermark results).
Proof.
  induction fuel as [|fuel IH]; intros watermark results;
    cbn [interleave]; preserved_steps;
    auto using ok_streamToWatermark, ok_emitBuffered, ok_backfillLoop, ok_writeWatermark.
  apply ok_backfillLoop.
Qed.

Lemma ok_interleavedBackfill (fuel : nat) :
  preserved inv (interleavedBackfill (RS := RS) fuel).
Proof.
  unfold interleavedBackfill. preserved_steps; auto using ok_writeWatermark, ok_interleave.
Qed.

Lemma ok_streamChangesTurn (evt : changeEvent) : preserved inv (streamChangesTurn evt).
Proof.
  unfold streamChangesTurn. preserved_steps;
    auto using ok_setCurrentLSN, ok_checkpoint_wrapErr.
Qed.

End FramedOk.

(** ** Checkpoints on commits (C5) *)

Lemma wrap_int_small (n : Z) : - 2 ^ 63 <= n < 2 ^ 63 -> wrap_int n = n.
Proof.
  intros Hn. unfold wrap_int.
  rewrite Z.mod_small by lia. lia.
Qed.

Lemma wrap_int_succ (n : Z) : wrap_int (wrap_int n + 1) = wrap_int (n + 1).
Proof.
  unfold wrap_int.
  replace ((n + 2 ^ 63) mod 2 ^ 64 - 2 ^ 63 + 1 + 2 ^ 63)
    with ((n + 2 ^ 63) mod 2 ^ 64 + 1) by lia.
  rewrite Z.add_mod_idemp_l by lia.
  replace (n + 2 ^ 63 + 1) with (n + 1 + 2 ^ 63) by lia. reflexivity.
Qed.

Lemma recordsSince_record (emitted : list Message) (ns stream : string)
    (data : gmap string value) :
  forall n, recordsSince (emitted ++ [MessageRecord ns stream data]) n
            = recordsSince emitted n + 1.
Proof.
  induction emitted as [|[ns' stream' data'|ps] rest IH]; intros n; cbn; auto.
Qed.

Lemma recordsSince_state (emitted : list Message) (ps : PersistentState) :
  forall n, recordsSince (emitted ++ [MessageState ps]) n = 0.
Proof.
  induction emitted as [|[ns' stream' data'|ps'] rest IH]; intros n; cbn; auto.
Qed.

Lemma recordsSince_nonneg (emitted : list Message) :
  forall n, 0 <= n -> 0 <= recordsSince emitted n.
Proof.
  induction emitted as [|[ns' stream' data'|ps'] rest IH]; intros n Hn; cbn;
    [exact Hn|apply IH; lia|apply IH; lia].
Qed.

Section Counter.
Context {W RS : Type}.
Context {DB : Database W} {Ops : resultSet.Ops RS} {Codec : TupleCodec}
        {Out : messageOutput}.
Implicit Types (c : @capture W).

(** [emitRecord] counts the record before it emits it. *)
Lemma handleChangeEvent_counter (evt : changeEvent) c :
  match handleChangeEvent evt c with
  | (Ok _, c') =>
      changesSinceLastCheckpoint c' = wrap_int (changesSinceLastCheckpoint c + 1)
  | _ => True
  end.
Proof.
  unfold handleChangeEvent. mrun.
  destruct (translateFields _ _) as [data|e| |]; mrun; try exact I.
  unfold emitRecord. mrun.
  destruct (forallb _ _); mrun; [|exact I].
  destruct (Encode _ _); [exact I|reflexivity].
Qed.

Lemma counted_handleChangeEvent (evt : changeEvent) :
  preserved counted (handleChangeEvent (W := W) evt).
Proof.
  intros c Hc. unfold counted in *.
  pose proof (handleChangeEvent_counter evt c) as Hn.
  pose proof (handleChangeEvent_encoder evt c) as Henc.
  destruct (handleChangeEvent evt c) as [[[]|e| |] c']; try exact I.
  destruct Henc as (data & -> & _).
  rewrite Hn, Hc. unfold recordsSinceCheckpoint.
  rewrite recordsSince_record. apply wrap_int_succ.
Qed.

Lemma emitState_counter (ps : PersistentState) c :
  changesSinceLastCheckpoint (emitState ps c).2 = 0.
Proof. unfold emitState. mrun. destruct (Encode _ _); reflexivity. Qed.

Lemma counted_emitState c :
  counted c -> match emitState (state c) c with (Ok _, c') => counted c' | _ => True end.
Proof.
  intros _. unfold counted.
  pose proof (emitState_counter (state c) c) as Hn.
  pose proof (emitState_encoder (state c) c) as Henc.
  destruct (emitState (state c) c) as [[[]|e| |] c']; try exact I.
  cbn [snd] in Hn. rewrite Hn, Henc. unfold recordsSinceCheckpoint.
  rewrite recordsSince_state. reflexivity.
Qed.

Lemma counted_receive (evt : changeEvent) (rest : list changeEvent) :
  preserved counted (receive (W := W) evt rest).
Proof. intros c Hc. exact Hc. Qed.

Lemma counted_onConn (A : Type) (f : W -> outcome A * W) : preserved counted (onConn f).
Proof.
  intros c Hc. unfold onConn. destruct (f (connScan c)).1; [exact Hc|exact I..].
Qed.

Lemma counted_setState (ps : PersistentState) : preserved counted (setState (W := W) ps).
Proof. intros c Hc. exact Hc. Qed.

(** [updateState] emits no record: from a capture that has emitted nothing
    it leaves an encoder that holds at most the state, and a counter of 0. *)
Lemma counted_updateState c :
  encoder c = [] -> changesSinceLastCheckpoint c = 0 -> counted (updateState c).2.
Proof.
  intros Henc Hn.
  set (quiet := fun c' : @capture W =>
                  encoder c' = [] /\ changesSinceLastCheckpoint c' = 0).
  assert (Hsilent : forall ps, invariant quiet (setState ps)).
  { intros ps c0 Hc0. exact Hc0. }
  unfold updateState.
  change (bind ?m ?k c) with (andThen (m c) k). unfold gets. cbn [andThen].
  change (bind ?m ?k c) with (andThen (m c) k).
  assert (H1 : quiet (match Streams (state c) with
                      | Some _ => ret false
                      | None => bind (setStreams ∅) (fun _ => ret true)
                      end c).2).
  { destruct (Streams (state c)); [split; assumption|].
    apply invariant_bind; [apply framed_setStreams; exact Hsilent| |split; assumption].
    intros; apply invariant_ret. }
  destruct (match Streams (state c) with _ => _ end c) as [[dirty0|e| |] c1];
    cbn [snd andThen] in *; try (unfold counted; rewrite (proj1 H1), (proj2 H1); reflexivity).
  change (bind ?m ?k c1) with (andThen (m c1) k).
  assert (H2 : quiet (wrapErr "error querying database about primary keys"
                        (onConn getPrimaryKeys) c1).2).
  { apply invariant_wrapErr; [|exact H1]. intros c0 Hc0. exact Hc0. }
  destruct (wrapErr _ (onConn getPrimaryKeys) c1) as [[pks|e| |] c2];
    cbn [snd andThen] in *; try (unfold counted; rewrite (proj1 H2), (proj2 H2); reflexivity).
  change (bind ?m ?k c2) with (andThen (m c2) k). unfold gets. cbn [andThen].
  change (bind ?m ?k c2) with (andThen (m c2) k).
  pose proof (framed_updateStreams quiet Hsilent pks (airbyte.Streams (catalog c2))
                dirty0 c2 H2) as H3.
  destruct (updateStreams pks _ dirty0 c2) as [[dirty1|e| |] c3];
    cbn [snd andThen] in *; try (unfold counted; rewrite (proj1 H3), (proj2 H3); reflexivity).
  change (bind ?m ?k c3) with (andThen (m c3) k).
  pose proof (framed_forgetStreams quiet Hsilent (airbyte.Streams (catalog c2))
                dirty1 c3 H3) as H4.
  destruct (forgetStreams _ dirty1 c3) as [[dirty2|e| |] c4];
    cbn [snd andThen] in *; try (unfold counted; rewrite (proj1 H4), (proj2 H4); reflexivity).
  destruct dirty2; [|unfold counted; cbn; rewrite (proj1 H4), (proj2 H4); reflexivity].
  mrun. unfold ignoreErr.
  pose proof (emitState_counter (state c4) c4) as Hn5.
  pose proof (emitState_encoder (state c4) c4) as Henc5.
  unfold counted.
  destruct (emitState (state c4) c4) as [[[]|e| |] c5]; cbn [snd] in *;
    rewrite Hn5, Henc5, (proj1 H4); reflexivity.
Qed.

(** C5: in Phase 2, a Commit makes the capture emit a State checkpoint whose
    [current_log_position] is the position of the Commit if and only if at
    least one record has been emitted since the last checkpoint; a Commit
    with no record emitted since then emits nothing and leaves the state as
    it is.  In detail, for one turn of the streaming loop on a Commit [evt]:
    (1) when the counter of changes counts the records emitted since the
    last checkpoint and these are fewer than 2^63, the turn is as just said
    (and when the encoder refuses the checkpoint, the turn returns its
    error); (2) the counter does count these records when streaming starts
    in a capture that [RunCapture] has set up, and (3) after every turn of
    the streaming loop that returns. *)
Theorem C5_commit_checkpoint_iff_records_emitted :
  (forall (evt : changeEvent) (rest : list changeEvent) c,
      counted c ->
      isCommit evt = true ->
      recordsSinceCheckpoint (encoder c) < 2 ^ 63 ->
      let ps := mkPersistentState (LSN evt) (Streams (state c)) in
      let repl := replication.received evt rest (replStream c) in
      andThen (receive evt rest c) (fun _ => streamChangesTurn evt)
      = if 0 <? recordsSinceCheckpoint (encoder c)
        then match Encode (encoder c) (MessageState ps) with
             | None =>
                 (Ok tt, mkCapture ps (config c) (catalog c)
                                   (encoder c ++ [MessageState ps]) (connScan c) repl 0)
             | Some err =>
                 (Err (Errorf_w "error emitting state update" err),
                  mkCapture ps (config c) (catalog c) (encoder c) (connScan c) repl 0)
             end
        else (Ok tt, mkCapture (state c) (config c) (catalog c) (encoder c) (connScan c)
                               repl (changesSinceLastCheckpoint c)))
  /\ (forall (fuel : nat) (config : Config) (catalog : airbyte.ConfiguredCatalog)
             (state : PersistentState) (connScan : W)
             (replStream : replication.replicationStream) c1 c2,
         updateState (mkCapture state config catalog [] connScan replStream 0) = (Ok tt, c1) ->
         interleavedBackfill (RS := RS) fuel c1 = (Ok tt, c2) ->
         counted c2)
  /\ (forall (evt : changeEvent) (rest : list changeEvent) c c',
         counted c ->
         andThen (receive evt rest c) (fun _ => streamChangesTurn evt) = (Ok tt, c') ->
         counted c').
Proof.
  split; [|split].
  - intros evt rest c Hc Hcommit Hbound ps repl.
    unfold counted in Hc.
    assert (Hn : changesSinceLastCheckpoint c = recordsSinceCheckpoint (encoder c)).
    { rewrite Hc. apply wrap_int_small. split; [|exact Hbound].
      pose proof (recordsSince_nonneg (encoder c) 0 ltac:(lia)) as Hpos.
      unfold recordsSinceCheckpoint. lia. }
    subst ps repl.
    unfold receive, streamChangesTurn, replication.received. unfold isCommit in Hcommit.
    cbn [andThen]. rewrite Hcommit. mrun. rewrite Hn.
    destruct (0 <? recordsSinceCheckpoint (encoder c)); [|reflexivity].
    unfold emitState. mrun. cbn [replication.CurrentLSN].
    destruct (Encode _ _); reflexivity.
  - intros fuel config catalog state connScan replStream c1 c2 Hupd Hback.
    pose proof (counted_updateState
                  (mkCapture state config catalog [] connScan replStream 0)
                  eq_refl eq_refl) as H1.
    rewrite Hupd in H1. cbn [snd] in H1.
    pose proof (ok_interleavedBackfill (W := W) (RS := RS) counted) as Hok.
    specialize (Hok counted_receive counted_onConn counted_setState
                    counted_handleChangeEvent counted_emitState fuel c1 H1).
    rewrite Hback in Hok. exact Hok.
  - intros evt rest c c' Hc Hturn.
    pose proof (ok_streamChangesTurn (W := W) counted) as Hok.
    specialize (Hok counted_setState counted_handleChangeEvent counted_emitState evt
                    (receive evt rest c).2 Hc).
    unfold receive in Hturn at 1. cbn [andThen] in Hturn.
    unfold receive in Hok. cbn [snd] in Hok.
    rewrite Hturn in Hok. exact Hok.
Qed.

End Counter.

(** An instance of C5: [public.t] is Active, one record has been emitted
    since the last checkpoint, and a Commit at position 9 arrives. *)
Lemma C5_commit_checkpoint_iff_records_emitted_witness :
  let c0 := Scenario.start (Scenario.tailing [Scenario.streamT])
              (Scenario.active ["public.t"] 0) [] in
  let c := (handleChangeEvent (Out := Fixture.memory) (Scenario.update "1" "x" 8) c0).2 in
  (andThen (receive (Scenario.commit 9) [] c)
           (fun _ => streamChangesTurn (Out := Fixture.memory) (Scenario.commit 9))).1
  = Ok tt
  /\ last (encoder (andThen (receive (Scenario.commit 9) [] c)
                            (fun _ => streamChangesTurn (Out := Fixture.memory)
                                        (Scenario.commit 9))).2)
     = Some (MessageState (mkPersistentState 9 (Streams (state c)))).
Proof.
  intros c0 c.
  rewrite (proj1 (C5_commit_checkpoint_iff_records_emitted
                    (RS := gmap string Fixture.chunk)
                    (DB := Fixture.database 2 Scenario.db [])
                    (Ops := Fixture.results 2) (Codec := Fixture.codec)
                    (Out := Fixture.memory))
                 (Scenario.commit 9) [] c).
  - vm_compute. split; reflexivity.
  - vm_compute. reflexivity.
  - reflexivity.
  - vm_compute. reflexivity.
Defined.

(** ** The encoder only grows *)

Section Appended.
Context {W RS : Type}.
Context {DB : Database W} {Ops : resultSet.Ops RS} {Codec : TupleCodec}
        {Out : messageOutput}.
Implicit Types (c : @capture W).

Lemma appended_refl c : appended (encoder c) c.
Proof. exists []. symmetry. apply app_nil_r. Qed.

Lemma appended_receive (emitted : list Message) (evt : changeEvent)
    (rest : list changeEvent) :
  invariant (appended emitted) (receive (W := W) evt rest).
Proof. intros c Hc. exact Hc. Qed.

Lemma appended_onConn (emitted : list Message) (A : Type) (f : W -> outcome A * W) :
  invariant (appended emitted) (onConn f).
Proof. intros c Hc. exact Hc. Qed.

Lemma appended_setState (emitted : list Message) (ps : PersistentState) :
  invariant (appended emitted) (setState (W := W) ps).
Proof. intros c Hc. exact Hc. Qed.

Lemma appended_setCurrentLSN (emitted : list Message) (lsn : Z) :
  invariant (appended emitted) (setCurrentLSN (W := W) lsn).
Proof. intros c Hc. exact Hc. Qed.

Lemma appended_handleChangeEvent (emitted : list Message) (evt : changeEvent) :
  invariant (appended emitted) (handleChangeEvent (W := W) evt).
Proof.
  intros c [new Hc]. unfold appended.
  pose proof (handleChangeEvent_encoder evt c) as Henc.
  destruct (handleChangeEvent evt c) as [[[]|e| |] c']; cbn [snd];
    try (exists new; congruence).
  destruct Henc as (data & -> & _). rewrite Hc.
  eexists. symmetry. apply app_assoc.
Qed.

Lemma appended_emitState (emitted : list Message) c :
  appended emitted c -> appended emitted (emitState (state c) c).2.
Proof.
  intros [new Hc]. unfold appended.
  pose proof (emitState_encoder (state c) c) as Henc.
  destruct (emitState (state c) c) as [[[]|e| |] c']; cbn [snd];
    try (exists new; congruence).
  rewrite Henc, Hc. eexists. symmetry. apply app_assoc.
Qed.

Lemma appended_encode (emitted : list Message) (msg : Message) :
  invariant (appended emitted) (encode (W := W) msg).
Proof.
  intros c [new Hc]. unfold encode, appended.
  destruct (Encode (encoder c) msg); cbn [snd encoder]; [exists new; exact Hc|].
  rewrite Hc. eexists. symmetry. apply app_assoc.
Qed.

Lemma appended_setChanges (emitted : list Message) (n : Z) :
  invariant (appended emitted) (setChanges (W := W) n).
Proof. intros c Hc. exact Hc. Qed.

Lemma appended_emitState_any (emitted : list Message) (ps : PersistentState) :
  invariant (appended emitted) (emitState (W := W) ps).
Proof.
  unfold emitState, emit. invariant_steps; auto using appended_setChanges, appended_encode.
Qed.

Lemma appended_emitRecord (emitted : list Message) (ns stream : string)
    (data : gmap string value) :
  invariant (appended emitted) (emitRecord (W := W) ns stream data).
Proof.
  unfold emitRecord, emit. invariant_steps; auto using appended_setChanges, appended_encode.
Qed.

Lemma appended_checkpoint (emitted : list Message) :
  invariant (appended emitted) (bind (gets state) (emitState (W := W))).
Proof.
  apply framed_checkpoint. apply appended_emitState.
Qed.

Lemma appended_emitChanges (emitted : list Message) (evts : list changeEvent) :
  invariant (appended emitted) (emitChanges (W := W) evts).
Proof. apply framed_emitChanges. apply appended_handleChangeEvent. Qed.

Lemma appended_alterStream (emitted : list Message) (streamID : string)
    (f : TableState -> TableState) :
  invariant (appended emitted) (alterStream (W := W) streamID f).
Proof. apply framed_alterStream. apply appended_setState. Qed.

Lemma appended_emitStreams (emitted : list Message) (streams : list string)
    (results : RS) :
  invariant (appended emitted) (emitStreams (W := W) streams results).
Proof.
  apply framed_emitStreams; auto using appended_handleChangeEvent, appended_setState.
Qed.

Lemma appended_backfillLoop (emitted : list Message) (streams : list string)
    (results : RS) :
  invariant (appended emitted) (backfillLoop (W := W) streams results).
Proof. apply framed_backfillLoop. apply appended_onConn. Qed.

Lemma appended_streamToWatermark (emitted : list Message) (watermark : string)
    (results : RS) :
  invariant (appended emitted) (streamToWatermark (W := W) watermark results).
Proof.
  apply framed_streamToWatermark;
    auto using appended_receive, appended_setCurrentLSN, appended_handleChangeEvent.
Qed.

Lemma appended_emitBuffered (emitted : list Message) (results : RS) :
  invariant (appended emitted) (emitBuffered (W := W) results).
Proof.
  apply framed_emitBuffered;
    auto using appended_handleChangeEvent, appended_emitState, appended_setState.
Qed.

Lemma appended_backfillStreams (emitted : list Message) (streams : list string) :
  invariant (appended emitted) (backfillStreams (W := W) (RS := RS) streams).
Proof. apply framed_backfillStreams. apply appended_onConn. Qed.

Lemma appended_writeWatermark (emitted : list Message) :
  invariant (appended emitted) (writeWatermark_ (W := W)).
Proof. apply framed_writeWatermark. apply appended_onConn. Qed.

Lemma appended_interleave (emitted : list Message) (fuel : nat) (watermark : string)
    (results : RS) :
  invariant (appended emitted) (interleave (W := W) fuel watermark results).
Proof.
  apply framed_interleave;
    auto using appended_receive, appended_onConn, appended_setCurrentLSN,
               appended_handleChangeEvent, appended_emitState, appended_setState.
Qed.

Lemma appended_streaming (emitted : list Message) :
  invariant (appended emitted) (streaming (W := W)).
Proof.
  unfold streaming. apply invariant_bind; [apply invariant_gets|]. intros repl.
  apply framed_streamChangesLoop;
    auto using appended_receive, appended_setCurrentLSN,
               appended_handleChangeEvent, appended_emitState.
Qed.

Lemma appended_streamChanges (emitted : list Message) (fuel : nat) :
  invariant (appended emitted) (streamChanges (W := W) (RS := RS) fuel).
Proof.
  apply framed_streamChanges;
    auto using appended_receive, appended_onConn, appended_setCurrentLSN,
               appended_handleChangeEvent, appended_emitState, appended_setState.
Qed.

Lemma appended_updateState (emitted : list Message) :
  invariant (appended emitted) (updateState (W := W)).
Proof.
  apply framed_updateState;
    auto using appended_onConn, appended_emitState, appended_setState.
Qed.

Lemma appended_nextTurns (emitted : list Message) (fuel : nat) :
  invariant (appended emitted) (nextTurns (W := W) (RS := RS) fuel).
Proof.
  unfold nextTurns. invariant_steps;
    auto using appended_backfillStreams, appended_writeWatermark, appended_interleave.
Qed.

Lemma appended_interleavedBackfill (emitted : list Message) (fuel : nat) :
  invariant (appended emitted) (interleavedBackfill (W := W) (RS := RS) fuel).
Proof.
  unfold interleavedBackfill. invariant_steps;
    auto using appended_writeWatermark, appended_interleave.
Qed.

Lemma appended_afterCheckpoint (emitted : list Message) (fuel : nat) :
  invariant (appended emitted) (afterCheckpoint (W := W) (RS := RS) fuel).
Proof.
  unfold afterCheckpoint. invariant_steps; auto using appended_nextTurns, appended_streaming.
Qed.

End Appended.

Create HintDb appended.

#[export] Hint Resolve appended_receive appended_onConn appended_setState
  appended_setCurrentLSN appended_handleChangeEvent appended_encode appended_setChanges
  appended_emitRecord appended_emitState_any
  appended_checkpoint appended_emitChanges appended_alterStream appended_emitStreams
  appended_backfillLoop appended_streamToWatermark appended_emitBuffered
  appended_backfillStreams appended_writeWatermark appended_interleave
  appended_streaming appended_streamChanges appended_updateState
  appended_afterCheckpoint appended_nextTurns appended_interleavedBackfill : appended.

Ltac appended_solve := intros; cbv beta; invariant_steps; eauto with appended.

(** ** Two captures on an unchanged database *)

Lemma records_app (l1 l2 : list Message) : records (l1 ++ l2) = records l1 ++ records l2.
Proof. apply List.filter_app. Qed.

Lemma comparable_sym (rows1 rows2 : list Message) :
  comparable rows1 rows2 -> comparable rows2 rows1.
Proof. intros [H|H]; [right|left]; exact H. Qed.

Lemma comparable_app (rows rows1 rows2 : list Message) :
  comparable rows1 rows2 -> comparable (rows ++ rows1) (rows ++ rows2).
Proof. intros [H|H]; [left|right]; apply prefix_app, H. Qed.

Lemma quietEvent_insert (streams : gmap string TableState) (streamID : string)
    (ts ts' : TableState) (evt : changeEvent) :
  streams !! streamID = Some ts ->
  quietEvent streams evt -> quietEvent (<[streamID := ts']> streams) evt.
Proof.
  intros Hts [Hcommit|Hnone]; [left; exact Hcommit|right].
  rewrite lookup_insert_ne; [exact Hnone|]. intros Heq. rewrite Heq in Hts. congruence.
Qed.

Ltac sim_cases :=
  repeat match goal with
         | |- context [records (_ ++ _)] => rewrite records_app
         | H : records _ = records _ |- _ => rewrite H
         end;
  first
    [ assumption
    | apply prefix_app; assumption
    | apply prefix_app_r; assumption
    | apply prefix_app_r; reflexivity
    | left; apply prefix_app; assumption
    | right; apply prefix_app; assumption
    | left; apply prefix_app_r; assumption
    | right; apply prefix_app_r; assumption
    | left; apply prefix_app_r; reflexivity
    | right; apply prefix_app_r; reflexivity
    | apply comparable_app; assumption ].

Section Sim.
Context {W1 W2 RS : Type}.
Context {DB1 : Database W1} {DB2 : Database W2} {Ops : resultSet.Ops RS}
        {Codec : TupleCodec} {Out1 Out2 : messageOutput}.

Lemma sim_silent {A1 A2 : Type} (V : A1 -> A2 -> Prop) (m1 : @M W1 A1) (m2 : @M W2 A2) :
  (forall c1 c2,
      related c1 c2 ->
      encoder (m1 c1).2 = encoder c1 /\ encoder (m2 c2).2 = encoder c2
      /\ match (m1 c1).1, (m2 c2).1 with
         | Ok a1, Ok a2 => V a1 a2 /\ related (m1 c1).2 (m2 c2).2
         | _, _ => True
         end) ->
  sim V m1 m2.
Proof.
  intros H c1 c2 Hrel. destruct (H c1 c2 Hrel) as (E1 & E2 & Hok).
  exists [], []. rewrite !app_nil_r. split; [exact E1|]. split; [exact E2|].
  destruct (m1 c1).1, (m2 c2).1; cbn [records List.filter];
    try (left; reflexivity); try reflexivity.
  destruct Hok as [HV Hr]. split; [exact HV|]. split; [exact Hr|reflexivity].
Qed.

Lemma sim_ret {A1 A2 : Type} (V : A1 -> A2 -> Prop) (a1 : A1) (a2 : A2) :
  V a1 a2 -> sim V (ret (W := W1) a1) (ret (W := W2) a2).
Proof.
  intros HV. apply sim_silent. intros c1 c2 Hrel. unfold ret. cbn [fst snd].
  split; [reflexivity|]. split; [reflexivity|]. split; assumption.
Qed.

Lemma sim_stop {A1 A2 : Type} (V : A1 -> A2 -> Prop) (m1 : @M W1 A1) (m2 : @M W2 A2) :
  (forall c1, (m1 c1).2 = c1 /\ forall a, (m1 c1).1 <> Ok a) ->
  (forall c2, (m2 c2).2 = c2 /\ forall a, (m2 c2).1 <> Ok a) ->
  sim V m1 m2.
Proof.
  intros H1 H2. apply sim_silent. intros c1 c2 Hrel.
  destruct (H1 c1) as [E1 N1], (H2 c2) as [E2 N2]. rewrite E1, E2.
  split; [reflexivity|]. split; [reflexivity|].
  destruct (m1 c1).1 as [a1| | |]; [|exact I..].
  destruct (N1 a1 eq_refl).
Qed.

Lemma sim_lift {A : Type} (o : outcome A) :
  sim eq (lift (W := W1) o) (lift (W := W2) o).
Proof.
  apply sim_silent. intros c1 c2 Hrel. unfold lift. cbn [fst snd].
  split; [reflexivity|]. split; [reflexivity|].
  destruct o; try exact I. split; [reflexivity|exact Hrel].
Qed.

Lemma sim_gets {A1 A2 : Type} (V : A1 -> A2 -> Prop) (f1 : @capture W1 -> A1)
    (f2 : @capture W2 -> A2) :
  (forall c1 c2, related c1 c2 -> V (f1 c1) (f2 c2)) ->
  sim V (gets f1) (gets f2).
Proof.
  intros HV. apply sim_silent. intros c1 c2 Hrel. unfold gets. cbn [fst snd].
  split; [reflexivity|]. split; [reflexivity|]. split; [apply HV|]; exact Hrel.
Qed.

Lemma sim_weaken {A1 A2 : Type} (V V' : A1 -> A2 -> Prop) (m1 : @M W1 A1) (m2 : @M W2 A2) :
  (forall a1 a2, V a1 a2 -> V' a1 a2) -> sim V m1 m2 -> sim V' m1 m2.
Proof.
  intros HV Hm c1 c2 Hrel. destruct (Hm c1 c2 Hrel) as (n1 & n2 & E1 & E2 & H).
  exists n1, n2. split; [exact E1|]. split; [exact E2|].
  destruct (m1 c1).1, (m2 c2).1; try exact H.
  destruct H as (H & Hr & Hn). split; [apply HV, H|]. split; assumption.
Qed.

Lemma sim_bind {A1 A2 B1 B2 : Type} (V : A1 -> A2 -> Prop) (V' : B1 -> B2 -> Prop)
    (m1 : @M W1 A1) (m2 : @M W2 A2) (k1 : A1 -> @M W1 B1) (k2 : A2 -> @M W2 B2) :
  sim V m1 m2 ->
  (forall a1 a2, V a1 a2 -> sim V' (k1 a1) (k2 a2)) ->
  (forall a emitted, invariant (appended emitted) (k1 a)) ->
  (forall a emitted, invariant (appended emitted) (k2 a)) ->
  sim V' (bind m1 k1) (bind m2 k2).
Proof.
  intros Hm Hk Hk1 Hk2 c1 c2 Hrel.
  destruct (Hm c1 c2 Hrel) as (n1 & n2 & E1 & E2 & H). unfold bind.
  destruct (m1 c1) as [r1 c1'], (m2 c2) as [r2 c2']. cbn [fst snd] in E1, E2, H.
  destruct r1 as [a1|e1| |], r2 as [a2|e2| |]; cbn [andThen fst snd];
    try (exists n1, n2; split; [exact E1|]; split; [exact E2|]; exact H).
  - destruct H as (HV & Hrel' & Hn).
    destruct (Hk a1 a2 HV c1' c2' Hrel') as (n1' & n2' & F1 & F2 & H').
    exists (n1 ++ n1'), (n2 ++ n2').
    split; [rewrite F1, E1; symmetry; apply app_assoc|].
    split; [rewrite F2, E2; symmetry; apply app_assoc|].
    destruct (k1 a1 c1').1, (k2 a2 c2').1; try sim_cases.
    destruct H' as (HV' & Hr' & Hn'). rewrite !records_app, Hn, Hn'.
    split; [exact HV'|]. split; [exact Hr'|reflexivity].
  - destruct (Hk1 a1 (encoder c1') c1' (appended_refl c1')) as [n1' F1].
    exists (n1 ++ n1'), n2.
    split; [rewrite F1, E1; symmetry; apply app_assoc|]. split; [exact E2|].
    destruct (k1 a1 c1').1; sim_cases.
  - destruct (Hk1 a1 (encoder c1') c1' (appended_refl c1')) as [n1' F1].
    exists (n1 ++ n1'), n2.
    split; [rewrite F1, E1; symmetry; apply app_assoc|]. split; [exact E2|].
    destruct (k1 a1 c1').1; sim_cases.
  - destruct (Hk1 a1 (encoder c1') c1' (appended_refl c1')) as [n1' F1].
    exists (n1 ++ n1'), n2.
    split; [rewrite F1, E1; symmetry; apply app_assoc|]. split; [exact E2|].
    destruct (k1 a1 c1').1; sim_cases.
  - destruct (Hk2 a2 (encoder c2') c2' (appended_refl c2')) as [n2' F2].
    exists n1, (n2 ++ n2').
    split; [exact E1|]. split; [rewrite F2, E2; symmetry; apply app_assoc|].
    destruct (k2 a2 c2').1; sim_cases.
  - destruct (Hk2 a2 (encoder c2') c2' (appended_refl c2')) as [n2' F2].
    exists n1, (n2 ++ n2').
    split; [exact E1|]. split; [rewrite F2, E2; symmetry; apply app_assoc|].
    destruct (k2 a2 c2').1; sim_cases.
  - destruct (Hk2 a2 (encoder c2') c2' (appended_refl c2')) as [n2' F2].
    exists n1, (n2 ++ n2').
    split; [exact E1|]. split; [rewrite F2, E2; symmetry; apply app_assoc|].
    destruct (k2 a2 c2').1; sim_cases.
Qed.

Lemma sim_wrapErr {A1 A2 : Type} (V : A1 -> A2 -> Prop) (msg1 msg2 : string)
    (m1 : @M W1 A1) (m2 : @M W2 A2) :
  sim V m1 m2 -> sim V (wrapErr msg1 m1) (wrapErr msg2 m2).
Proof.
  intros Hm c1 c2 Hrel. destruct (Hm c1 c2 Hrel) as (n1 & n2 & E1 & E2 & H).
  unfold wrapErr. exists n1, n2.
  destruct (m1 c1) as [[a1|e1| |] c1'], (m2 c2) as [[a2|e2| |] c2'];
    cbn [wrapped fst snd] in *; (split; [exact E1|]; split; [exact E2|]; exact H).
Qed.

Lemma sim_stop_l {A1 A2 : Type} (V : A1 -> A2 -> Prop) (m1 : @M W1 A1) (m2 : @M W2 A2) :
  (forall c1, (m1 c1).2 = c1 /\ forall a, (m1 c1).1 <> Ok a) ->
  (forall emitted, invariant (appended emitted) m2) ->
  sim V m1 m2.
Proof.
  intros H1 H2 c1 c2 Hrel. destruct (H1 c1) as [E1 N1].
  destruct (H2 (encoder c2) c2 (appended_refl c2)) as [n2 E2].
  exists [], n2. rewrite E1, app_nil_r. split; [reflexivity|]. split; [exact E2|].
  destruct (m1 c1).1 as [a1| | |]; [destruct (N1 a1 eq_refl)|..];
    destruct (m2 c2).1; cbn [records List.filter];
    first [apply prefix_nil | left; apply prefix_nil].
Qed.

Lemma sim_stop_r {A1 A2 : Type} (V : A1 -> A2 -> Prop) (m1 : @M W1 A1) (m2 : @M W2 A2) :
  (forall emitted, invariant (appended emitted) m1) ->
  (forall c2, (m2 c2).2 = c2 /\ forall a, (m2 c2).1 <> Ok a) ->
  sim V m1 m2.
Proof.
  intros H1 H2 c1 c2 Hrel. destruct (H2 c2) as [E2 N2].
  destruct (H1 (encoder c1) c1 (appended_refl c1)) as [n1 E1].
  exists n1, []. rewrite E2, app_nil_r. split; [exact E1|]. split; [reflexivity|].
  destruct (m2 c2).1 as [a2| | |]; [destruct (N2 a2 eq_refl)|..];
    destruct (m1 c1).1; cbn [records List.filter];
    first [apply prefix_nil | right; apply prefix_nil].
Qed.

(** A step that emits no row on either side. *)
Lemma sim_rowless {A1 A2 : Type} (V : A1 -> A2 -> Prop) (m1 : @M W1 A1) (m2 : @M W2 A2) :
  rowless m1 -> rowless m2 ->
  (forall c1 c2 a1 a2,
      related c1 c2 -> (m1 c1).1 = Ok a1 -> (m2 c2).1 = Ok a2 -> V a1 a2) ->
  sim V m1 m2.
Proof.
  intros H1 H2 HV c1 c2 Hrel. pose proof Hrel as (Hst & Hcfg & Hcat & Hq1 & Hq2).
  destruct (H1 c1 Hq1) as (n1 & E1 & R1 & S1 & G1 & C1 & Q1).
  destruct (H2 c2 Hq2) as (n2 & E2 & R2 & S2 & G2 & C2 & Q2).
  exists n1, n2. split; [exact E1|]. split; [exact E2|]. rewrite R1, R2.
  specialize (HV c1 c2).
  destruct (m1 c1).1 as [a1| | |], (m2 c2).1 as [a2| | |];
    try reflexivity; try (left; reflexivity).
  split; [apply HV; auto|]. split; [|reflexivity].
  unfold related. rewrite S1, S2, G1, G2, C1, C2. repeat split; assumption.
Qed.

Lemma sim_onConn {A : Type} (f1 : W1 -> outcome A * W1) (f2 : W2 -> outcome A * W2) :
  (forall w1 w2, (f1 w1).1 = (f2 w2).1) -> sim eq (onConn f1) (onConn f2).
Proof.
  intros Hf. apply sim_silent. intros c1 c2 Hrel. unfold onConn. cbn [fst snd encoder].
  split; [reflexivity|]. split; [reflexivity|].
  rewrite (Hf (connScan c1) (connScan c2)).
  destruct (f2 (connScan c2)).1; try exact I. split; [reflexivity|exact Hrel].
Qed.

Lemma sim_onConn_ok {A : Type} (f1 : W1 -> outcome A * W1) (f2 : W2 -> outcome A * W2) :
  (forall w1 w2 a1 a2, (f1 w1).1 = Ok a1 -> (f2 w2).1 = Ok a2 -> a1 = a2) ->
  sim eq (onConn f1) (onConn f2).
Proof.
  intros Hf. apply sim_silent. intros c1 c2 Hrel. unfold onConn. cbn [fst snd encoder].
  split; [reflexivity|]. split; [reflexivity|].
  specialize (Hf (connScan c1) (connScan c2)).
  destruct (f1 (connScan c1)).1, (f2 (connScan c2)).1; try exact I.
  split; [apply Hf; reflexivity|exact Hrel].
Qed.

Lemma sim_onConn_any {A1 A2 : Type} (f1 : W1 -> outcome A1 * W1)
    (f2 : W2 -> outcome A2 * W2) :
  sim (fun _ _ => True) (onConn f1) (onConn f2).
Proof.
  apply sim_silent. intros c1 c2 Hrel. unfold onConn. cbn [fst snd encoder].
  split; [reflexivity|]. split; [reflexivity|].
  destruct (f1 (connScan c1)).1, (f2 (connScan c2)).1; try exact I.
  split; [exact I|exact Hrel].
Qed.

Lemma sim_setChanges (n1 n2 : Z) :
  sim eq (setChanges (W := W1) n1) (setChanges (W := W2) n2).
Proof.
  apply sim_silent. intros c1 c2 Hrel. unfold setChanges. cbn [fst snd encoder].
  split; [reflexivity|]. split; [reflexivity|]. split; [reflexivity|exact Hrel].
Qed.

Lemma sim_encode (msg : Message) :
  sim eq (encode (W := W1) (Out := Out1) msg) (encode (W := W2) (Out := Out2) msg).
Proof.
  intros c1 c2 Hrel. unfold encode.
  destruct (Encode (encoder c1) msg), (Encode (encoder c2) msg); cbn [fst snd encoder].
  - exists [], []. rewrite !app_nil_r. repeat split. left. reflexivity.
  - exists [], [msg]. rewrite !app_nil_r. repeat split. apply prefix_nil.
  - exists [msg], []. rewrite !app_nil_r. repeat split. apply prefix_nil.
  - exists [msg], [msg]. split; [reflexivity|]. split; [reflexivity|].
    split; [reflexivity|]. split; [exact Hrel|reflexivity].
Qed.

Lemma sim_emitRecord (ns stream : string) (data : gmap string value) :
  sim eq (emitRecord (W := W1) (Out := Out1) ns stream data)
         (emitRecord (W := W2) (Out := Out2) ns stream data).
Proof.
  unfold emitRecord.
  apply sim_bind with (V := fun _ _ => True);
    [apply sim_gets; intros; exact I| |appended_solve..].
  intros n1 n2 _.
  apply sim_bind with (V := eq); [apply sim_setChanges| |appended_solve..].
  intros _ _ _. destruct (forallb _ _).
  - apply sim_encode.
  - apply sim_stop; intros c; (split; [reflexivity|discriminate]).
Qed.

Lemma sim_handleChangeEvent (evt : changeEvent) :
  sim eq (handleChangeEvent (W := W1) (Out := Out1) evt)
         (handleChangeEvent (W := W2) (Out := Out2) evt).
Proof.
  unfold handleChangeEvent. cbv zeta.
  apply sim_bind with (V := eq); [apply sim_lift| |appended_solve..].
  intros data _ <-. apply sim_emitRecord.
Qed.

Lemma sim_emitChanges (evts : list changeEvent) :
  sim eq (emitChanges (W := W1) (Out := Out1) evts)
         (emitChanges (W := W2) (Out := Out2) evts).
Proof.
  induction evts as [|evt rest IH]; cbn [emitChanges].
  - apply sim_ret. reflexivity.
  - apply sim_bind with (V := eq);
      [apply sim_wrapErr, sim_handleChangeEvent| |appended_solve..].
    intros _ _ _. exact IH.
Qed.

End Sim.

(** ** On a quiet log *)

Lemma quietEvent_ext (streams streams' : gmap string TableState) (evt : changeEvent) :
  streams = streams' -> quietEvent streams evt -> quietEvent streams' evt.
Proof. intros <-. exact id. Qed.

Lemma streamsOf_ext (ps ps' : PersistentState) :
  Streams ps = Streams ps' -> streamsOf ps = streamsOf ps'.
Proof. intros Hst. unfold streamsOf. rewrite Hst. reflexivity. Qed.

Section Rowless.
Context {W RS : Type}.
Context {DB : Database W} {Ops : resultSet.Ops RS} {Codec : TupleCodec}
        {Out : messageOutput}.
Implicit Types (c : @capture W).

Lemma rowless_frame {A : Type} (m : @M W A) :
  (forall c, sameButOutput c (m c).2) ->
  (forall c, exists new, encoder (m c).2 = encoder c ++ new /\ records new = []) ->
  rowless m.
Proof.
  intros Hframe Hout c Hq.
  destruct (Hframe c) as (Hst & Hcfg & Hcat & _ & Hrepl).
  destruct (Hout c) as (new & Henc & Hrec).
  exists new. split; [exact Henc|]. split; [exact Hrec|].
  rewrite Hst, Hcfg, Hcat. repeat split.
  unfold quiet. rewrite Hst, Hrepl. exact Hq.
Qed.

Lemma rowless_checkpoint : rowless (bind (gets state) (emitState (W := W))).
Proof.
  apply rowless_frame; intros c; unfold bind, gets; cbn [andThen].
  - apply emitState_frame.
  - pose proof (emitState_encoder (state c) c) as Henc.
    destruct (emitState (state c) c) as [[[]|e| |] c']; cbn [snd];
      first [exists [MessageState (state c)]; split; [exact Henc|reflexivity]
            |exists []; rewrite app_nil_r; split; [exact Henc|reflexivity]].
Qed.

Lemma rowless_writeWatermark : rowless (writeWatermark_ (W := W)).
Proof.
  intros c Hq. exists []. unfold writeWatermark_. mrun. rewrite app_nil_r.
  repeat split. exact Hq.
Qed.

(** A turn of the drain on a quiet event: nothing is emitted or buffered. *)
Lemma streamToWatermarkTurn_quiet (watermark : string) (reached : bool) (results : RS)
    (evt : changeEvent) c :
  quietEvent (streamsOf (state c)) evt ->
  let r := streamToWatermarkTurn watermark reached results evt c in
  (exists reached', r.1 = Ok (Continue reached' results) \/ r.1 = Ok (Return results))
  /\ encoder r.2 = encoder c
  /\ Streams (state r.2) = Streams (state c)
  /\ config r.2 = config c /\ catalog r.2 = catalog c
  /\ replStream r.2 = replStream c.
Proof.
  intros Hq. cbn zeta. unfold streamToWatermarkTurn.
  destruct (String.eqb (Type_ evt) "Commit") eqn:Hcommit; mrun.
  - destruct reached; mrun; (split; [exists false; auto|repeat split]).
  - destruct Hq as [Hq|Hq]; [unfold isCommit in Hq; congruence|].
    rewrite Hq. mrun. split; [eexists; left; reflexivity|repeat split].
Qed.

Lemma streamToWatermarkLoop_quiet (events : list changeEvent) :
  forall (watermark : string) (reached : bool) (results : RS) c,
    Forall (quietEvent (streamsOf (state c))) events ->
    quiet c ->
    let r := streamToWatermarkLoop events watermark reached results c in
    r.1 = Ok results
    /\ encoder r.2 = encoder c
    /\ Streams (state r.2) = Streams (state c)
    /\ config r.2 = config c /\ catalog r.2 = catalog c
    /\ quiet r.2.
Proof.
  induction events as [|evt rest IH]; intros watermark reached results c Hevents Hq;
    cbn zeta.
  - cbn. repeat split. exact Hq.
  - rewrite streamToWatermarkLoop_cons.
    apply Forall_cons in Hevents as [Hevt Hrest].
    pose proof (streamToWatermarkTurn_quiet watermark reached results evt
                  (receive evt rest c).2 Hevt) as Hturn.
    cbn zeta in Hturn. destruct Hturn as ([reached' Hr] & Henc & Hst & Hcfg & Hcat & Hrepl).
    destruct (streamToWatermarkTurn _ _ _ _ _) as [r c1]. cbn [fst snd] in *.
    unfold receive in Henc, Hst, Hcfg, Hcat, Hrepl.
    cbn [snd state config catalog encoder replStream] in Henc, Hst, Hcfg, Hcat, Hrepl.
    assert (Hq1 : Forall (quietEvent (streamsOf (state c1))) rest).
    { rewrite (streamsOf_ext _ _ Hst). exact Hrest. }
    destruct Hr as [->| ->].
    + specialize (IH watermark reached' results c1 Hq1). cbn zeta in IH.
      destruct IH as (Hr' & Henc' & Hst' & Hcfg' & Hcat' & Hq').
      { unfold quiet. rewrite Hrepl. exact Hq1. }
      rewrite Henc', Hst', Hcfg', Hcat'. repeat split; assumption.
    + cbn [fst snd]. repeat split; try assumption.
      unfold quiet. rewrite Hrepl. exact Hq1.
Qed.

Lemma streamToWatermark_quiet (watermark : string) (results : RS) c :
  quiet c ->
  let r := streamToWatermark watermark results c in
  r.1 = Ok results
  /\ encoder r.2 = encoder c
  /\ Streams (state r.2) = Streams (state c)
  /\ config r.2 = config c /\ catalog r.2 = catalog c
  /\ quiet r.2.
Proof.
  intros Hq. unfold streamToWatermark. mrun.
  apply streamToWatermarkLoop_quiet; exact Hq.
Qed.

Lemma rowless_streamToWatermark (watermark : string) (results : RS) :
  rowless (streamToWatermark (W := W) watermark results).
Proof.
  intros c Hq. destruct (streamToWatermark_quiet watermark results c Hq)
    as (_ & Henc & Hst & Hcfg & Hcat & Hq').
  exists []. rewrite app_nil_r. repeat split; assumption.
Qed.

(** A turn of the streaming loop on a quiet event: at most a checkpoint. *)
Lemma streamChangesTurn_quiet (evt : changeEvent) c :
  quietEvent (streamsOf (state c)) evt ->
  let r := streamChangesTurn evt c in
  exists new,
    encoder r.2 = encoder c ++ new /\ records new = []
    /\ Streams (state r.2) = Streams (state c)
    /\ config r.2 = config c /\ catalog r.2 = catalog c
    /\ replStream r.2 = replStream c.
Proof.
  intros Hq. cbn zeta. unfold streamChangesTurn.
  destruct (String.eqb (Type_ evt) "Commit") eqn:Hcommit; mrun.
  - destruct (0 <? changesSinceLastCheckpoint c); mrun.
    + match goal with
      | |- context [emitState ?ps ?c0] =>
          pose proof (emitState_encoder ps c0) as Henc;
          pose proof (emitState_frame ps c0) as (Hst & Hcfg & Hcat & _ & Hrepl);
          destruct (emitState ps c0) as [[[]|e| |] c']
      end; cbn [snd fst wrapped state config catalog encoder replStream] in *;
        rewrite Henc, Hst, Hcfg, Hcat, Hrepl;
        first [ eexists [_]; repeat split; reflexivity
              | exists []; rewrite app_nil_r; repeat split ].
    + exists []. rewrite app_nil_r. repeat split.
  - destruct Hq as [Hq|Hq]; [unfold isCommit in Hq; congruence|].
    rewrite Hq. mrun. exists []. rewrite app_nil_r. repeat split.
Qed.

Lemma streamChangesLoop_quiet (events : list changeEvent) :
  forall c,
    Forall (quietEvent (streamsOf (state c))) events ->
    quiet c ->
    let r := streamChangesLoop events c in
    exists new,
      encoder r.2 = encoder c ++ new /\ records new = []
      /\ Streams (state r.2) = Streams (state c)
      /\ config r.2 = config c /\ catalog r.2 = catalog c
      /\ quiet r.2.
Proof.
  induction events as [|evt rest IH]; intros c Hevents Hq; cbn zeta.
  - exists []. cbn. rewrite app_nil_r. repeat split. exact Hq.
  - cbn [streamChangesLoop]. mrun.
    apply Forall_cons in Hevents as [Hevt Hrest].
    pose proof (streamChangesTurn_quiet evt (receive evt rest c).2 Hevt) as Hturn.
    cbn zeta in Hturn. unfold receive in Hturn at 2 3 4 5 6 7.
    cbn [snd state config catalog encoder replStream] in Hturn.
    unfold receive in Hturn.
    destruct Hturn as (new & Henc & Hrec & Hst & Hcfg & Hcat & Hrepl).
    destruct (streamChangesTurn evt _) as [r c1]. cbn [fst snd] in *.
    assert (Hq1 : Forall (quietEvent (streamsOf (state c1))) rest).
    { rewrite (streamsOf_ext _ _ Hst). exact Hrest. }
    assert (Hq1' : quiet c1) by (unfold quiet; rewrite Hrepl; exact Hq1).
    destruct r as [[]|e| |]; cbn [andThen fst snd];
      try (exists new; repeat split; assumption).
    destruct (IH c1 Hq1 Hq1') as (new' & Henc' & Hrec' & Hst' & Hcfg' & Hcat' & Hq').
    exists (new ++ new'). rewrite Henc', Henc, records_app, Hrec, Hrec', Hst', Hcfg', Hcat'.
    split; [symmetry; apply app_assoc|]. repeat split; assumption.
Qed.

Lemma rowless_streaming : rowless (streaming (W := W)).
Proof.
  intros c Hq. unfold streaming. mrun. apply streamChangesLoop_quiet; exact Hq.
Qed.

Lemma interleave_done (fuel : nat) (watermark : string) (results : RS) c :
  pendingStreams (state c) = [] -> interleave fuel watermark results c = (Ok tt, c).
Proof.
  intros HP. destruct fuel; cbn [interleave]; mrun; rewrite HP; reflexivity.
Qed.

(** A restarted capture with pending streams writes a watermark, drains the
    log and checkpoints before it goes on as the first loop does after a
    checkpoint: the nil buffer holds nothing to flush. *)
Lemma interleavedBackfill_resume `{!ResultSetLaws RS} (fuel : nat) c :
  quiet c ->
  pendingStreams (state c) <> [] ->
  exists new c',
    records new = []
    /\ encoder c' = encoder c ++ new
    /\ Streams (state c') = Streams (state c)
    /\ config c' = config c /\ catalog c' = catalog c
    /\ quiet c'
    /\ (interleavedBackfill (S fuel) c = nextTurns fuel c'
        \/ ((interleavedBackfill (S fuel) c).2 = c'
            /\ forall a, (interleavedBackfill (S fuel) c).1 <> Ok a)).
Proof.
  intros Hq HP. unfold interleavedBackfill. mrun.
  destruct (pendingStreams (state c)) as [|pending0 pending] eqn:HPc; [congruence|].
  unfold writeWatermark_. mrun.
  destruct (writeWatermark (connScan c) _ _) as [[watermark|e| |] conn'];
    cbn [fst snd wrapped andThen];
    try (exists [], (mkCapture (state c) (config c) (catalog c) (encoder c) conn'
                               (replStream c) (changesSinceLastCheckpoint c));
         cbn [state config catalog encoder]; rewrite app_nil_r;
         split; [reflexivity|]; split; [reflexivity|]; split; [reflexivity|];
         split; [reflexivity|]; split; [reflexivity|]; split; [exact Hq|];
         right; split; [reflexivity|discriminate]).
  rewrite interleave_S. cbn [state]. rewrite HPc.
  match goal with
  | |- context [streamToWatermark watermark resultSet.nil ?c0] =>
      pose proof (streamToWatermark_quiet watermark resultSet.nil c0 Hq)
        as (Hr & Henc & Hst & Hcfg & Hcat & Hq1);
      destruct (streamToWatermark watermark resultSet.nil c0) as [r c1]
  end.
  cbn [fst snd state config catalog encoder] in Hr, Henc, Hst, Hcfg, Hcat. subst r.
  cbn [wrapped andThen]. unfold emitBuffered. rewrite Streams_nil. cbn [emitStreams]. mrun.
  pose proof (emitState_encoder (state c1) c1) as Henc2.
  pose proof (emitState_frame (state c1) c1) as (Hst2 & Hcfg2 & Hcat2 & _ & Hrepl2).
  assert (Hq2 : quiet (emitState (state c1) c1).2)
    by (unfold quiet; rewrite Hst2, Hrepl2; exact Hq1).
  destruct (emitState (state c1) c1) as [[[]|e| |] c2];
    cbn [fst snd wrapped andThen] in *;
    [ exists [MessageState (state c1)], c2 | exists [], c2; rewrite app_nil_r.. ];
    (split; [reflexivity|]); (split; [congruence|]); (split; [congruence|]);
    (split; [congruence|]); (split; [congruence|]); (split; [exact Hq2|]);
    [left; reflexivity|right; split; [reflexivity|discriminate]..].
Qed.

End Rowless.

(** ** The steps of the capture on two related captures *)

Lemma streamsOf_related {W1 W2 : Type} (c1 : @capture W1) (c2 : @capture W2) :
  related c1 c2 -> streamsOf (state c1) = streamsOf (state c2).
Proof. intros (Hst & _). unfold streamsOf. rewrite Hst. reflexivity. Qed.

Lemma pendingStreams_ext (ps1 ps2 : PersistentState) :
  Streams ps1 = Streams ps2 -> pendingStreams ps1 = pendingStreams ps2.
Proof. intros Hst. unfold pendingStreams, streamsOf. rewrite Hst. reflexivity. Qed.

Section SimCapture.
Context {W1 W2 RS : Type}.
Context {DB1 : Database W1} {DB2 : Database W2} {Ops : resultSet.Ops RS}
        {Codec : TupleCodec} {Out1 Out2 : messageOutput}.

Lemma sim_alterStream (streamID : string) (f : TableState -> TableState) :
  sim eq (alterStream (W := W1) streamID f) (alterStream (W := W2) streamID f).
Proof.
  apply sim_silent. intros c1 c2 Hrel.
  pose proof (streamsOf_related c1 c2 Hrel) as Hso.
  destruct Hrel as (Hst & Hcfg & Hcat & Hq1 & Hq2).
  unfold alterStream. mrun. rewrite <- Hso.
  destruct (streamsOf (state c1) !! streamID) as [ts|] eqn:Hts; mrun.
  - split; [reflexivity|]. split; [reflexivity|]. split; [reflexivity|].
    unfold related, quiet. cbn [state config catalog replStream Streams].
    rewrite !streamsOf_mk.
    split; [reflexivity|]. split; [exact Hcfg|]. split; [exact Hcat|].
    split.
    + eapply Forall_impl; [exact Hq1|]. intros evt. apply quietEvent_insert with ts.
      exact Hts.
    + unfold quiet in Hq2. rewrite <- Hso in Hq2.
      eapply Forall_impl; [exact Hq2|]. intros evt. apply quietEvent_insert with ts.
      exact Hts.
  - repeat split.
Qed.

Lemma sim_emitStreams (results : RS) (streams : list string) :
  sim eq (emitStreams (W := W1) (Out := Out1) streams results)
         (emitStreams (W := W2) (Out := Out2) streams results).
Proof.
  induction streams as [|streamID rest IH]; cbn [emitStreams].
  - apply sim_ret. reflexivity.
  - apply sim_bind with (V := eq); [apply sim_emitChanges| |appended_solve..].
    intros _ _ _.
    apply sim_bind with (V := eq); [| |appended_solve..].
    + destruct (resultSet.Complete results streamID).
      * apply sim_bind with (V := eq); [apply sim_alterStream| |appended_solve..].
        intros _ _ _. apply sim_alterStream.
      * apply sim_alterStream.
    + intros _ _ _. exact IH.
Qed.

Lemma sim_checkpoint :
  sim eq (bind (gets state) (emitState (W := W1) (Out := Out1)))
         (bind (gets state) (emitState (W := W2) (Out := Out2))).
Proof.
  apply sim_rowless; [apply rowless_checkpoint..|].
  intros c1 c2 [] [] _ _ _. reflexivity.
Qed.

Lemma sim_emitBuffered (results : RS) :
  sim eq (emitBuffered (W := W1) (Out := Out1) results)
         (emitBuffered (W := W2) (Out := Out2) results).
Proof.
  unfold emitBuffered.
  apply sim_bind with (V := eq); [apply sim_emitStreams| |appended_solve..].
  intros _ _ _. apply sim_checkpoint.
Qed.

Lemma sim_streamToWatermark (watermark1 watermark2 : string) (results : RS) :
  sim eq (streamToWatermark (W := W1) (Out := Out1) watermark1 results)
         (streamToWatermark (W := W2) (Out := Out2) watermark2 results).
Proof.
  apply sim_rowless; [apply rowless_streamToWatermark..|].
  intros c1 c2 a1 a2 (_ & _ & _ & Hq1 & Hq2) H1 H2.
  destruct (streamToWatermark_quiet (Out := Out1) watermark1 results c1 Hq1) as (E1 & _).
  destruct (streamToWatermark_quiet (Out := Out2) watermark2 results c2 Hq2) as (E2 & _).
  congruence.
Qed.

Lemma sim_writeWatermark :
  sim (fun _ _ => True) (writeWatermark_ (W := W1)) (writeWatermark_ (W := W2)).
Proof.
  apply sim_rowless; [apply rowless_writeWatermark..|]. intros; exact I.
Qed.

Lemma sim_streaming :
  sim eq (streaming (W := W1) (Out := Out1)) (streaming (W := W2) (Out := Out2)).
Proof.
  apply sim_rowless; [apply rowless_streaming..|].
  intros c1 c2 [] [] _ _ _. reflexivity.
Qed.

Section Scans.
Context {catalog : airbyte.ConfiguredCatalog}
        {scan : string -> list string -> bytes -> list changeEvent}.
Context {U1 : Unchanged DB1 catalog scan} {U2 : Unchanged DB2 catalog scan}.

Lemma sim_backfillLoop (streams : list string) :
  forall results : RS,
    sim eq (backfillLoop (W := W1) streams results) (backfillLoop (W := W2) streams results).
Proof.
  induction streams as [|streamID rest IH]; intros results; cbn [backfillLoop].
  - apply sim_ret. reflexivity.
  - apply sim_bind with (V := fun ps1 ps2 => streamsOf ps1 = streamsOf ps2);
      [apply sim_gets; intros c1 c2; apply streamsOf_related| |appended_solve..].
    intros ps1 ps2 ->.
    destruct (streamsOf ps2 !! streamID) as [streamState|].
    + apply sim_bind with (V := eq); [| |appended_solve..].
      * apply sim_wrapErr, sim_onConn_ok. intros w1 w2 evts1 evts2 H1 H2.
        rewrite (scan_unchanged (DB := DB1) _ _ _ _ _ H1).
        rewrite (scan_unchanged (DB := DB2) _ _ _ _ _ H2). reflexivity.
      * intros evts _ <-.
        apply sim_bind with (V := eq); [apply sim_wrapErr, sim_lift| |appended_solve..].
        intros results' _ <-. apply IH.
    + apply sim_stop; intros c; (split; [reflexivity|discriminate]).
Qed.

Lemma sim_backfillStreams (streams : list string) :
  sim eq (backfillStreams (W := W1) (RS := RS) streams)
         (backfillStreams (W := W2) (RS := RS) streams).
Proof. apply sim_backfillLoop. Qed.

Lemma sim_interleave (fuel1 : nat) :
  forall (fuel2 : nat) (watermark1 watermark2 : string) (results : RS),
    sim eq (interleave (W := W1) (Out := Out1) fuel1 watermark1 results)
           (interleave (W := W2) (Out := Out2) fuel2 watermark2 results).
Proof.
  induction fuel1 as [|fuel1 IH]; intros fuel2 watermark1 watermark2 results;
    destruct fuel2 as [|fuel2]; cbn [interleave];
    (apply sim_bind with (V := fun ps1 ps2 => Streams ps1 = Streams ps2);
     [apply sim_gets; intros c1 c2 Hrel; apply Hrel| |appended_solve..]);
    intros ps1 ps2 Hps; rewrite (pendingStreams_ext ps1 ps2 Hps);
    (destruct (pendingStreams ps2) as [|pending0 pending]; [apply sim_ret; reflexivity|]).
  - apply sim_stop; intros c; (split; [reflexivity|discriminate]).
  - apply sim_stop_l; [intros c; split; [reflexivity|discriminate]|appended_solve].
  - apply sim_stop_r; [appended_solve|intros c; split; [reflexivity|discriminate]].
  - apply sim_bind with (V := eq);
      [apply sim_wrapErr, sim_streamToWatermark| |appended_solve..].
    intros results' _ <-.
    apply sim_bind with (V := eq); [apply sim_wrapErr, sim_emitBuffered| |appended_solve..].
    intros _ _ _.
    apply sim_bind with (V := fun ps1 ps2 => Streams ps1 = Streams ps2);
      [apply sim_gets; intros c1 c2 Hrel; apply Hrel| |appended_solve..].
    intros ps1' ps2' Hps'. rewrite (pendingStreams_ext ps1' ps2' Hps').
    apply sim_bind with (V := eq); [apply sim_wrapErr, sim_backfillStreams| |appended_solve..].
    intros results'' _ <-.
    apply sim_bind with (V := fun _ _ => True);
      [apply sim_wrapErr, sim_writeWatermark| |appended_solve..].
    intros watermark1' watermark2' _. apply IH.
Qed.

Lemma sim_nextTurns (fuel1 fuel2 : nat) :
  sim eq (nextTurns (W := W1) (Out := Out1) (RS := RS) fuel1)
         (nextTurns (W := W2) (Out := Out2) (RS := RS) fuel2).
Proof.
  unfold nextTurns.
  apply sim_bind with (V := fun ps1 ps2 => Streams ps1 = Streams ps2);
    [apply sim_gets; intros c1 c2 Hrel; apply Hrel| |appended_solve..].
  intros ps1 ps2 Hps. rewrite (pendingStreams_ext ps1 ps2 Hps).
  apply sim_bind with (V := eq); [apply sim_wrapErr, sim_backfillStreams| |appended_solve..].
  intros results _ <-.
  apply sim_bind with (V := fun _ _ => True);
    [apply sim_wrapErr, sim_writeWatermark| |appended_solve..].
  intros watermark1 watermark2 _. apply sim_interleave.
Qed.

Lemma sim_interleavedBackfill (fuel1 fuel2 : nat) :
  sim eq (interleavedBackfill (W := W1) (Out := Out1) (RS := RS) fuel1)
         (interleavedBackfill (W := W2) (Out := Out2) (RS := RS) fuel2).
Proof.
  unfold interleavedBackfill.
  apply sim_bind with (V := fun ps1 ps2 => Streams ps1 = Streams ps2);
    [apply sim_gets; intros c1 c2 Hrel; apply Hrel| |appended_solve..].
  intros ps1 ps2 Hps. rewrite (pendingStreams_ext ps1 ps2 Hps).
  destruct (pendingStreams ps2) as [|pending0 pending]; [apply sim_ret; reflexivity|].
  apply sim_bind with (V := fun _ _ => True);
    [apply sim_wrapErr, sim_writeWatermark| |appended_solve..].
  intros watermark1 watermark2 _. apply sim_interleave.
Qed.

Lemma sim_streamChanges (fuel1 fuel2 : nat) :
  sim eq (streamChanges (W := W1) (Out := Out1) (RS := RS) fuel1)
         (streamChanges (W := W2) (Out := Out2) (RS := RS) fuel2).
Proof.
  unfold streamChanges.
  apply sim_bind with (V := eq); [apply sim_interleavedBackfill| |appended_solve..].
  intros _ _ _. apply sim_streaming.
Qed.

(** After a checkpoint the first capture goes on with the backfill of the
    pending streams; a second capture that starts from the state of that
    checkpoint comes to the same point without emitting a row. *)
Lemma sim_resume `{!ResultSetLaws RS} (fuel1 fuel2 : nat) :
  sim eq (nextTurns (W := W1) (Out := Out1) (RS := RS) fuel1)
         (interleavedBackfill (W := W2) (Out := Out2) (RS := RS) fuel2).
Proof.
  intros c1 c2 Hrel.
  destruct (appended_nextTurns (DB := DB1) (Out := Out1) (RS := RS) (encoder c1) fuel1 c1
              (appended_refl c1)) as [n1 E1].
  pose proof Hrel as (Hst & Hcfg & Hcat & Hq1 & Hq2).
  pose proof (pendingStreams_ext _ _ Hst) as HP1.
  destruct (pendingStreams (state c2)) as [|pending0 pending] eqn:HP2.
  - clear n1 E1. exists [], []. rewrite !app_nil_r.
    unfold interleavedBackfill, nextTurns. mrun. rewrite HP1, HP2.
    unfold backfillStreams. cbn [backfillLoop]. unfold writeWatermark_. mrun.
    destruct (writeWatermark (connScan c1) _ _) as [[watermark|e| |] conn'];
      cbn [fst snd wrapped andThen encoder];
      try (split; [reflexivity|]; split; [reflexivity|]; reflexivity).
    rewrite interleave_done by (cbn [state]; exact HP1). cbn [fst snd encoder].
    split; [reflexivity|]. split; [reflexivity|]. split; [reflexivity|].
    split; [exact Hrel|reflexivity].
  - destruct fuel2 as [|fuel2].
    + exists n1, []. rewrite app_nil_r. split; [exact E1|].
      unfold interleavedBackfill. mrun. rewrite HP2. unfold writeWatermark_. mrun.
      destruct (writeWatermark (connScan c2) _ _) as [[watermark|e| |] conn'];
        cbn [fst snd wrapped andThen encoder interleave]; mrun;
        try (cbn [state]; rewrite HP2; mrun);
        (split; [reflexivity|]);
        destruct (nextTurns fuel1 c1).1; first [apply prefix_nil|right; apply prefix_nil].
    + destruct (interleavedBackfill_resume (DB := DB2) (Out := Out2) fuel2 c2 Hq2)
        as (n & c2' & Hn & En & Hst' & Hcfg' & Hcat' & Hq' & [Heq|[Heq Hstop]]);
        [rewrite HP2; discriminate| |].
      * assert (Hrel' : related c1 c2').
        { unfold related. rewrite Hst', Hcfg', Hcat'. repeat split; assumption. }
        destruct (sim_nextTurns fuel1 fuel2 c1 c2' Hrel') as (n1' & n2' & F1 & F2 & H).
        rewrite Heq. exists n1', (n ++ n2').
        split; [exact F1|]. split; [rewrite F2, En; symmetry; apply app_assoc|].
        rewrite records_app, Hn. exact H.
      * exists n1, n. split; [exact E1|]. rewrite Heq. split; [exact En|].
        rewrite Hn.
        destruct (interleavedBackfill (S fuel2) c2).1 as [a| | |];
          [destruct (Hstop a eq_refl)|..];
          destruct (nextTurns fuel1 c1).1; first [apply prefix_nil|right; apply prefix_nil].
Qed.

Lemma sim_afterCheckpoint `{!ResultSetLaws RS} (fuel1 fuel2 : nat) :
  sim eq (afterCheckpoint (W := W1) (Out := Out1) (RS := RS) fuel1)
         (streamChanges (W := W2) (Out := Out2) (RS := RS) fuel2).
Proof.
  unfold afterCheckpoint, streamChanges.
  apply sim_bind with (V := eq); [apply sim_resume| |appended_solve..].
  intros _ _ _. apply sim_streaming.
Qed.

End Scans.

End SimCapture.

(** ** The table states after [updateState] *)

Lemma streamExistsInCatalog_self (streams : list airbyte.ConfiguredStream)
    (catalogStream : airbyte.ConfiguredStream) :
  catalogStream ∈ streams ->
  streamExistsInCatalog streams (catalogStreamID catalogStream) = true.
Proof.
  intros Hin. unfold streamExistsInCatalog. apply existsb_exists.
  exists catalogStream. split; [apply list_elem_of_In, Hin|apply String.eqb_refl].
Qed.

Lemma settled_sameTables (cat : airbyte.ConfiguredCatalog) (ps ps' : PersistentState) :
  sameTables ps ps' -> settled cat ps -> settled cat ps'.
Proof.
  intros [Hsome Hdom] (Hst & Hcat & Hexists). split; [auto|]. split.
  - intros cs Hcs. apply Hdom, Hcat, Hcs.
  - intros streamID Hs. apply Hexists, Hdom, Hs.
Qed.

Lemma quietEvent_sameTables (ps ps' : PersistentState) (evt : changeEvent) :
  sameTables ps ps' ->
  quietEvent (streamsOf ps) evt -> quietEvent (streamsOf ps') evt.
Proof.
  intros [_ Hdom] [Hcommit|Hnone]; [left; exact Hcommit|right].
  apply eq_None_not_Some. intros Hs. apply Hdom in Hs. rewrite Hnone in Hs.
  destruct Hs as [? Hs]. discriminate.
Qed.

Lemma sameTables_refl (ps : PersistentState) : sameTables ps ps.
Proof. split; [exact id|reflexivity]. Qed.

Lemma sameTables_trans (ps1 ps2 ps3 : PersistentState) :
  sameTables ps1 ps2 -> sameTables ps2 ps3 -> sameTables ps1 ps3.
Proof.
  intros [Hs1 Hd1] [Hs2 Hd2]. split; [auto|].
  intros streamID. rewrite Hd2. apply Hd1.
Qed.

Lemma sameTables_ext (ps ps' : PersistentState) :
  Streams ps' = Streams ps -> sameTables ps ps'.
Proof.
  intros Hst. split; [rewrite Hst; exact id|].
  intros streamID. unfold streamsOf. rewrite Hst. reflexivity.
Qed.

Section Settled.
Context {W : Type}.
Context {DB : Database W} {Out : messageOutput}.
Implicit Types (c : @capture W).

(** The first loop of [updateState] forgets no table state and leaves one
    for every stream of the catalog it has gone through. *)
Lemma updateStreams_entries (dbPrimaryKeys : gmap string (list string))
    (streams : list airbyte.ConfiguredStream) :
  forall (stateDirty : bool) c,
    Streams (state c) <> None ->
    match updateStreams dbPrimaryKeys streams stateDirty c with
    | (Ok _, c') =>
        Streams (state c') <> None
        /\ (forall streamID, is_Some (streamsOf (state c) !! streamID) ->
                             is_Some (streamsOf (state c') !! streamID))
        /\ (forall catalogStream, catalogStream ∈ streams ->
              is_Some (streamsOf (state c') !! catalogStreamID catalogStream))
    | _ => True
    end.
Proof.
  induction streams as [|catalogStream rest IH]; intros stateDirty c Hsome.
  - cbn. split; [exact Hsome|]. split; [auto|].
    intros cs Hcs. apply elem_of_nil in Hcs. contradiction.
  - cbn [updateStreams]. mrun.
    destruct (catalogKeyColumns _ _) as [catalogPrimaryKey|e| |]; mrun; try exact I.
    destruct (bool_decide _); mrun; [exact I|].
    destruct (streamsOf (state c) !! catalogStreamID catalogStream) as [streamState|] eqn:Hs;
      mrun.
    + destruct (negb _); mrun; [exact I|].
      specialize (IH stateDirty c Hsome).
      destruct (updateStreams dbPrimaryKeys rest stateDirty c) as [[dirty|e| |] c'];
        try exact I.
      destruct IH as (Hsome' & Hkeep & Hrest). split; [exact Hsome'|]. split; [exact Hkeep|].
      intros cs Hcs. apply elem_of_cons in Hcs as [->|Hcs]; [|apply Hrest, Hcs].
      apply Hkeep. rewrite Hs. eexists. reflexivity.
    + match goal with
      | |- context [updateStreams dbPrimaryKeys rest true ?c1] =>
          specialize (IH true c1);
          destruct (updateStreams dbPrimaryKeys rest true c1) as [[dirty|e| |] c']
      end; try exact I.
      cbn [state Streams] in IH. rewrite streamsOf_mk in IH.
      destruct IH as (Hsome' & Hkeep & Hrest); [discriminate|].
      split; [exact Hsome'|]. split.
      * intros streamID Hid. apply Hkeep.
        destruct (decide (catalogStreamID catalogStream = streamID)) as [<-|Hne].
        -- rewrite lookup_insert_eq. eexists. reflexivity.
        -- rewrite lookup_insert_ne by exact Hne. exact Hid.
      * intros cs Hcs. apply elem_of_cons in Hcs as [->|Hcs]; [|apply Hrest, Hcs].
        apply Hkeep. rewrite lookup_insert_eq. eexists. reflexivity.
Qed.

(** The second loop leaves the table states of the streams of the catalog,
    and no others. *)
Lemma forgetStreams_entries (streams : list airbyte.ConfiguredStream) (stateDirty : bool) c :
  Streams (state c) <> None ->
  match forgetStreams streams stateDirty c with
  | (Ok _, c') =>
      Streams (state c') <> None
      /\ (forall streamID, is_Some (streamsOf (state c') !! streamID) ->
                           streamExistsInCatalog streams streamID = true)
      /\ (forall streamID, streamExistsInCatalog streams streamID = true ->
                           is_Some (streamsOf (state c) !! streamID) ->
                           is_Some (streamsOf (state c') !! streamID))
  | _ => True
  end.
Proof.
  intros Hsome. unfold forgetStreams. mrun.
  destruct (forallb _ _) eqn:Hall; mrun.
  - split; [exact Hsome|]. split; [|auto].
    intros streamID [ts Hts].
    rewrite forallb_forall in Hall. apply Hall. apply list_elem_of_In.
    apply list_elem_of_fmap. exists (streamID, ts). split; [reflexivity|].
    apply elem_of_map_to_list. exact Hts.
  - rewrite streamsOf_mk. split; [discriminate|]. split.
    + intros streamID [ts Hts]. apply map_lookup_filter_Some in Hts as [_ Hex]. exact Hex.
    + intros streamID Hex [ts Hts]. exists ts. apply map_lookup_filter_Some.
      split; assumption.
Qed.

Lemma updateStreams_frame (dbPrimaryKeys : gmap string (list string))
    (streams : list airbyte.ConfiguredStream) (stateDirty : bool) c :
  let c' := (updateStreams dbPrimaryKeys streams stateDirty c).2 in
  encoder c' = encoder c /\ sameSetup c c'.
Proof.
  apply (framed_updateStreams (fun c' => encoder c' = encoder c /\ sameSetup c c')).
  - intros ps c0 Hc0. exact Hc0.
  - split; [reflexivity|]. repeat split.
Qed.

Lemma forgetStreams_frame (streams : list airbyte.ConfiguredStream) (stateDirty : bool) c :
  let c' := (forgetStreams streams stateDirty c).2 in
  encoder c' = encoder c /\ sameSetup c c'.
Proof.
  apply (framed_forgetStreams (fun c' => encoder c' = encoder c /\ sameSetup c c')).
  - intros ps c0 Hc0. exact Hc0.
  - split; [reflexivity|]. repeat split.
Qed.

(** When [updateState] has returned, the table states are those of the
    streams of the catalog, and the state has been emitted if anything has
    been emitted. *)
Lemma updateState_settles c :
  match updateState c with
  | (Ok _, c') =>
      settled (catalog c) (state c')
      /\ (encoder c' = encoder c \/ encoder c' = encoder c ++ [MessageState (state c')])
  | (_, c') => encoder c' = encoder c
  end.
Proof.
  unfold updateState. mrun.
  set (start := match Streams (state c) with
                | Some _ => (Ok false, c)
                | None => (Ok true,
                           mkCapture (mkPersistentState (CurrentLSN (state c)) (Some ∅))
                                     (config c) (catalog c) (encoder c) (connScan c)
                                     (replStream c) (changesSinceLastCheckpoint c))
                end).
  assert (Hstart : exists dirty c0,
             start = (Ok dirty, c0) /\ Streams (state c0) <> None
             /\ encoder c0 = encoder c /\ catalog c0 = catalog c).
  { subst start. destruct (Streams (state c)) eqn:Hst.
    - exists false, c. rewrite Hst. repeat split. discriminate.
    - eexists true, _. repeat split. discriminate. }
  destruct Hstart as (dirty & c0 & Hstart & Hsome0 & Henc0 & Hcat0).
  replace (match Streams (state c) with
           | Some _ => ret false
           | None => _
           end c) with start
    by (subst start; destruct (Streams (state c)); reflexivity).
  rewrite Hstart. cbn [andThen]. clear start Hstart.
  destruct (getPrimaryKeys (connScan c0)) as [[dbPrimaryKeys|e| |] conn'];
    cbn [fst snd wrapped andThen]; try exact Henc0.
  match goal with
  | |- context [updateStreams dbPrimaryKeys ?streams dirty ?c1] =>
      pose proof (updateStreams_entries dbPrimaryKeys streams dirty c1 Hsome0) as Hupd;
      pose proof (updateStreams_frame dbPrimaryKeys streams dirty c1) as (Henc1 & Hset1);
      destruct (updateStreams dbPrimaryKeys streams dirty c1) as [[dirty1|e| |] c2]
  end; cbn [snd andThen encoder state config catalog] in *; try congruence.
  destruct Hupd as (Hsome2 & Hkeep & Hall).
  destruct Hset1 as (_ & Hcat2 & _). cbn [catalog] in Hcat2.
  match goal with
  | |- context [forgetStreams ?streams dirty1 c2] =>
      pose proof (forgetStreams_entries streams dirty1 c2 Hsome2) as Hfor;
      pose proof (forgetStreams_frame streams dirty1 c2) as (Henc3 & Hset3);
      destruct (forgetStreams streams dirty1 c2) as [[dirty2|e| |] c3]
  end; cbn [snd andThen encoder state config catalog] in *; try congruence.
  destruct Hfor as (Hsome3 & Hin & Hkeep3).
  assert (Hsettled : settled (catalog c) (state c3)).
  { rewrite <- Hcat0. split; [exact Hsome3|]. split.
    - intros cs Hcs. apply Hkeep3; [apply streamExistsInCatalog_self, Hcs|].
      apply Hall, Hcs.
    - intros streamID Hs. apply Hin, Hs. }
  destruct dirty2; mrun.
  - unfold ignoreErr.
    pose proof (emitState_encoder (state c3) c3) as Henc4.
    pose proof (emitState_frame (state c3) c3) as (Hst4 & _).
    destruct (emitState (state c3) c3) as [[[]|e| |] c4]; cbn [snd] in *;
      try (rewrite Hst4; split; [exact Hsettled|]);
      first [ right; congruence | left; congruence | congruence ].
  - split; [exact Hsettled|]. left. congruence.
Qed.

Lemma updateState_setup c : sameSetup c (updateState c).2.
Proof.
  apply (framed_updateState (sameSetup c)).
  - intros A f c0 Hc0. exact Hc0.
  - intros c0 Hc0. destruct (emitState_frame (state c0) c0) as (_ & Hcfg & Hcat & _ & Hrepl).
    destruct Hc0 as (H1 & H2 & H3). unfold sameSetup. rewrite Hcfg, Hcat, Hrepl. auto.
  - intros ps c0 Hc0. exact Hc0.
  - repeat split.
Qed.

(** On settled table states the first loop of [updateState] changes nothing. *)
Lemma updateStreams_settled (dbPrimaryKeys : gmap string (list string))
    (streams : list airbyte.ConfiguredStream) (stateDirty : bool) c :
  (forall catalogStream, catalogStream ∈ streams ->
     is_Some (streamsOf (state c) !! catalogStreamID catalogStream)) ->
  let r := updateStreams dbPrimaryKeys streams stateDirty c in
  r.2 = c /\ forall dirty, r.1 = Ok dirty -> dirty = stateDirty.
Proof.
  induction streams as [|catalogStream rest IH]; intros Hall; cbn zeta.
  - cbn. split; [reflexivity|]. intros dirty [= <-]. reflexivity.
  - cbn [updateStreams]. mrun.
    destruct (catalogKeyColumns _ _) as [catalogPrimaryKey|e| |]; mrun;
      try (split; [reflexivity|discriminate]).
    destruct (bool_decide _); mrun; [split; [reflexivity|discriminate]|].
    destruct (Hall catalogStream) as [streamState Hs]; [left|]. rewrite Hs. mrun.
    destruct (negb _); mrun; [split; [reflexivity|discriminate]|].
    apply IH. intros cs Hcs. apply Hall. right. exact Hcs.
Qed.

(** On a settled state [updateState] changes and emits nothing. *)
Lemma updateState_settled c :
  settled (catalog c) (state c) -> sameButConn c (updateState c).2.
Proof.
  intros (Hsome & Hall & Hin). unfold updateState. mrun.
  destruct (Streams (state c)) as [streams|] eqn:Hst; [|contradiction]. mrun.
  destruct (getPrimaryKeys (connScan c)) as [[dbPrimaryKeys|e| |] conn'];
    cbn [fst snd wrapped andThen]; try solve [repeat split].
  cbn [catalog].
  match goal with
  | |- context [updateStreams dbPrimaryKeys ?streams false ?c1] =>
      pose proof (updateStreams_settled dbPrimaryKeys streams false c1 Hall) as [Hc1 Hd];
      destruct (updateStreams dbPrimaryKeys streams false c1) as [[dirty1|e| |] c2]
  end; cbn [fst snd andThen] in *; subst c2; try solve [repeat split].
  rewrite (Hd dirty1 eq_refl). unfold forgetStreams. mrun.
  replace (forallb _ _) with true; [mrun; repeat split|].
  symmetry. apply forallb_forall. intros streamID Hid.
  apply list_elem_of_In, list_elem_of_fmap in Hid as ([streamID' ts] & -> & Hts).
  apply elem_of_map_to_list in Hts. apply Hin. exists ts. exact Hts.
Qed.

End Settled.

(** ** Where the checkpoints are in what a capture emits *)

Lemma records_rowless_suffix (new pre post : list Message) (s : PersistentState) :
  records new = [] -> new = pre ++ MessageState s :: post -> records post = [].
Proof.
  intros Hrec ->. rewrite records_app in Hrec.
  apply app_eq_nil in Hrec as [_ Hrec]. exact Hrec.
Qed.

Lemma rows_no_checkpoint (rows pre post : list Message) (s : PersistentState) :
  Forall (fun m => isRecord m = true) rows -> rows <> pre ++ MessageState s :: post.
Proof.
  intros Hrows ->. apply Forall_app in Hrows as [_ Hrows].
  apply Forall_cons in Hrows as [Hs _]. discriminate.
Qed.

(** The first checkpoint after some rows is the only place where the
    emitted messages can be cut before the rest. *)
Lemma split_checkpoint (rows : list Message) :
  forall (s' : PersistentState) (rest pre : list Message) (s : PersistentState)
         (post : list Message),
    Forall (fun m => isRecord m = true) rows ->
    rows ++ MessageState s' :: rest = pre ++ MessageState s :: post ->
    (pre = rows /\ s = s' /\ post = rest)
    \/ exists pre', rest = pre' ++ MessageState s :: post.
Proof.
  induction rows as [|r rows IH]; intros s' rest pre s post Hrows Heq.
  - destruct pre as [|m pre]; cbn in Heq.
    + injection Heq as <- <-. left. auto.
    + injection Heq as <- ->. right. exists pre. reflexivity.
  - apply Forall_cons in Hrows as [Hr Hrows]. destruct pre as [|m pre]; cbn in Heq.
    + injection Heq as -> _. discriminate.
    + injection Heq as <- Heq.
      destruct (IH s' rest pre s post Hrows Heq) as [(-> & -> & ->)|[pre' ->]].
      * left. auto.
      * right. exists pre'. reflexivity.
Qed.

Section Checkpoints.
Context {W RS : Type}.
Context {DB : Database W} {Ops : resultSet.Ops RS} {Codec : TupleCodec}
        {Out : messageOutput}.
Implicit Types (c : @capture W).

Lemma sameSetup_refl c : sameSetup c c.
Proof. repeat split. Qed.

Lemma sameSetup_trans c1 c2 c3 : sameSetup c1 c2 -> sameSetup c2 c3 -> sameSetup c1 c3.
Proof. unfold sameSetup. intros (-> & -> & ->) (-> & -> & ->). auto. Qed.

Lemma sameButConn_refl c : sameButConn c c.
Proof. repeat split. Qed.

Lemma sameButConn_trans c1 c2 c3 :
  sameButConn c1 c2 -> sameButConn c2 c3 -> sameButConn c1 c3.
Proof.
  unfold sameButConn. intros (-> & -> & -> & -> & ->) (-> & -> & -> & -> & ->). auto.
Qed.

Lemma steady_sameTables (cfg : Config) (cat : airbyte.ConfiguredCatalog) c c' :
  steady cfg cat c -> sameSetup c c' -> sameTables (state c) (state c') ->
  steady cfg cat c'.
Proof.
  intros (Hsettled & Hcfg & Hcat & Hq) (Hcfg' & Hcat' & Hrepl') Htables.
  split; [exact (settled_sameTables _ _ _ Htables Hsettled)|].
  split; [congruence|]. split; [congruence|].
  unfold quiet. rewrite Hrepl'. eapply Forall_impl; [exact Hq|].
  intros evt. apply quietEvent_sameTables, Htables.
Qed.

Lemma steady_sameButConn (cfg : Config) (cat : airbyte.ConfiguredCatalog) c c' :
  steady cfg cat c -> sameButConn c c' -> steady cfg cat c'.
Proof.
  intros Hc (Hst & Hcfg & Hcat & _ & Hrepl).
  apply steady_sameTables with c; [exact Hc|repeat split; assumption|].
  rewrite Hst. apply sameTables_refl.
Qed.

Lemma backfillStreams_sameButConn (streams : list string) c :
  sameButConn c (backfillStreams (RS := RS) streams c).2.
Proof.
  apply (framed_backfillStreams (sameButConn c)); [|apply sameButConn_refl].
  intros A f c0 Hc0. exact Hc0.
Qed.

Lemma writeWatermark_sameButConn c : sameButConn c (writeWatermark_ c).2.
Proof.
  apply (framed_writeWatermark (sameButConn c)); [|apply sameButConn_refl].
  intros A f c0 Hc0. exact Hc0.
Qed.

Lemma emitChanges_rows (evts : list changeEvent) :
  forall c,
    exists rows,
      encoder (emitChanges evts c).2 = encoder c ++ rows
      /\ Forall (fun m => isRecord m = true) rows.
Proof.
  induction evts as [|evt rest IH]; intros c.
  - exists []. cbn. rewrite app_nil_r. split; [reflexivity|constructor].
  - cbn [emitChanges]. mrun.
    pose proof (handleChangeEvent_encoder evt c) as Henc.
    destruct (handleChangeEvent evt c) as [[[]|e| |] c1]; cbn [snd andThen wrapped];
      try (exists []; rewrite app_nil_r; split; [exact Henc|constructor]).
    destruct Henc as (data & Henc & _). destruct (IH c1) as (rows & Hrows & Hrec).
    exists (MessageRecord (Namespace evt) (Table evt) data :: rows).
    split; [rewrite Hrows, Henc, <- app_assoc; reflexivity|].
    constructor; [reflexivity|exact Hrec].
Qed.

(** The flush emits rows only, and the same streams have table states
    after it. *)
Lemma emitStreams_rows (results : RS) (streams : list string) :
  forall c,
    let c' := (emitStreams streams results c).2 in
    (exists rows, encoder c' = encoder c ++ rows
                  /\ Forall (fun m => isRecord m = true) rows)
    /\ sameSetup c c'
    /\ sameTables (state c) (state c').
Proof.
  induction streams as [|streamID rest IH]; intros c; cbn zeta.
  - cbn. split; [exists []; rewrite app_nil_r; split; [reflexivity|constructor]|].
    split; [apply sameSetup_refl|apply sameTables_refl].
  - rewrite emitStreams_cons.
    destruct (emitChanges_rows (resultSet.Changes results streamID) c) as (rows & Hrows & Hrec).
    pose proof (emitChanges_frame (resultSet.Changes results streamID) c)
      as (Hst & Hcfg & Hcat & _ & Hrepl).
    assert (Hfail : (exists rows, encoder (emitChanges (resultSet.Changes results streamID) c).2
                                  = encoder c ++ rows
                                  /\ Forall (fun m => isRecord m = true) rows)
                    /\ sameSetup c (emitChanges (resultSet.Changes results streamID) c).2
                    /\ sameTables (state c)
                                  (state (emitChanges (resultSet.Changes results streamID) c).2)).
    { split; [exists rows; split; assumption|]. split; [repeat split; assumption|].
      rewrite Hst. apply sameTables_refl. }
    destruct (emitChanges _ c) as [[[]|e| |] c1]; cbn [snd] in *; try exact Hfail.
    destruct (streamsOf (state c1) !! streamID) as [ts|] eqn:Hts; [|exact Hfail].
    match goal with
    | |- context [emitStreams rest results ?c2] =>
        specialize (IH c2); cbn zeta in IH;
        destruct IH as ((rows' & Hrows' & Hrec') & (Hcfg' & Hcat' & Hrepl') & Htables')
    end.
    cbn [encoder config catalog replStream state] in *.
    split; [|split].
    + exists (rows ++ rows'). split; [rewrite Hrows', Hrows; symmetry; apply app_assoc|].
      apply Forall_app. split; assumption.
    + unfold sameSetup. rewrite Hcfg', Hcat', Hrepl'. auto.
    + eapply sameTables_trans; [|exact Htables']. split; [discriminate|].
      intros s. rewrite streamsOf_mk. rewrite <- Hst.
      destruct (decide (streamID = s)) as [<-|Hne].
      * rewrite lookup_insert_eq, Hts. split; eauto.
      * rewrite lookup_insert_ne by exact Hne. reflexivity.
Qed.

(** When [emitBuffered] has returned, the last message is the checkpoint of
    the state it has left, and the messages before it are rows. *)
Lemma emitBuffered_checkpoint (results : RS) c :
  match emitBuffered results c with
  | (Ok _, c') =>
      (exists rows, encoder c' = encoder c ++ rows ++ [MessageState (state c')]
                    /\ Forall (fun m => isRecord m = true) rows)
      /\ sameSetup c c'
      /\ sameTables (state c) (state c')
  | (_, c') =>
      exists rows, encoder c' = encoder c ++ rows
                   /\ Forall (fun m => isRecord m = true) rows
  end.
Proof.
  unfold emitBuffered. mrun.
  pose proof (emitStreams_rows results (resultSet.Streams results) c) as Hflush.
  cbn zeta in Hflush. destruct Hflush as ((rows & Hrows & Hrec) & Hsetup & Htables).
  destruct (emitStreams _ results c) as [[[]|e| |] c1]; cbn [snd andThen] in *;
    try (exists rows; split; assumption).
  pose proof (emitState_encoder (state c1) c1) as Henc.
  pose proof (emitState_frame (state c1) c1) as (Hst & Hcfg & Hcat & _ & Hrepl).
  destruct (emitState (state c1) c1) as [[[]|e| |] c2]; cbn [snd] in *;
    try (exists rows; split; [congruence|assumption]).
  split; [|split].
  - exists rows. split; [|exact Hrec]. rewrite Henc, Hrows, Hst, <- app_assoc. reflexivity.
  - apply sameSetup_trans with c1; [exact Hsetup|repeat split; assumption].
  - rewrite Hst. exact Htables.
Qed.

(** After a checkpoint the first loop either stops without emitting
    anything or goes into its next turn. *)
Lemma nextTurns_run (fuel : nat) c :
  (exists watermark results c',
      sameButConn c c' /\ nextTurns fuel c = interleave fuel watermark results c')
  \/ (sameButConn c (nextTurns fuel c).2 /\ forall a, (nextTurns fuel c).1 <> Ok a).
Proof.
  unfold nextTurns. mrun.
  pose proof (backfillStreams_sameButConn (pendingStreams (state c)) c) as Hb.
  destruct (backfillStreams _ c) as [[results|e| |] c1]; cbn [fst snd wrapped andThen] in *;
    try (right; split; [exact Hb|discriminate]).
  pose proof (writeWatermark_sameButConn c1) as Hw.
  destruct (writeWatermark_ c1) as [[watermark|e| |] c2]; cbn [fst snd wrapped andThen] in *;
    try (right; split; [exact (sameButConn_trans _ _ _ Hb Hw)|discriminate]).
  left. exists watermark, results, c2. split; [|reflexivity].
  exact (sameButConn_trans _ _ _ Hb Hw).
Qed.

End Checkpoints.

(** ** Restarting a capture from one of its checkpoints *)

Section Restart.
Context {W1 W2 RS : Type}.
Context {DB1 : Database W1} {DB2 : Database W2} {Ops : resultSet.Ops RS}
        {Codec : TupleCodec} {Out1 Out2 : messageOutput}.
Context {cat : airbyte.ConfiguredCatalog}
        {scan : string -> list string -> bytes -> list changeEvent}.
Context {U1 : Unchanged DB1 cat scan} {U2 : Unchanged DB2 cat scan}.
Context `{!ResultSetLaws RS}.
Variable cfg : Config.
Variable fuel2 : nat.

(** A log that holds no row event of a stream of the catalog is quiet for
    settled table states. *)
Lemma quiet_settled {W : Type} (c : @capture W) :
  catalog c = cat ->
  settled cat (state c) ->
  Forall (fun evt => isCommit evt = true
                     \/ streamExistsInCatalog (airbyte.Streams cat)
                          (joinStreamID (Namespace evt) (Table evt)) = false)
         (replication.Events (replStream c)) ->
  quiet c.
Proof.
  intros Hcat (_ & _ & Hin) Hlog. unfold quiet.
  eapply Forall_impl; [exact Hlog|].
  intros evt [Hcommit|Hout]; [left; exact Hcommit|right].
  apply eq_None_not_Some. intros Hs. apply Hin in Hs. congruence.
Qed.

(** What the first capture emits from a steady point on, by something that
    the restarted capture does as well, and what the capture restarted from
    the state at that point emits: the rows of the one continue the rows of
    the other. *)
Lemma restart_rows (m1 : @M W1 unit) (c1 : @capture W1) (new1 : list Message) :
  steady cfg cat c1 ->
  sim eq m1 (streamChanges (W := W2) (DB := DB2) (Out := Out2) (RS := RS) fuel2) ->
  encoder (m1 c1).2 = encoder c1 ++ new1 ->
  comparable (records new1)
             (records (RunCapture (DB := DB2) (Ops := Ops) (Codec := Codec) (Out := Out2)
                                  fuel2 cfg cat (state c1)).2).
Proof.
  intros (Hsettled & Hcfg & Hcat & Hq1) Hsim Henc1. unfold RunCapture.
  destruct (pgx_Connect (ConnectionURI cfg)) as [conn| | |];
    try (right; apply prefix_nil).
  destruct (pgconn_ParseConfig (ConnectionURI cfg)); [right; apply prefix_nil|].
  destruct (pgconn_ConnectConfig (ConnectionURI cfg)); [right; apply prefix_nil|].
  destruct (startReplication _ _ _) as [repl| | |] eqn:Hrepl;
    try (right; apply prefix_nil).
  cbv zeta. unfold wrapErr.
  set (c0 := mkCapture (state c1) cfg cat [] conn repl 0).
  pose proof (updateState_settled (DB := DB2) (Out := Out2) c0 Hsettled)
    as (Hst & Hcfg2 & Hcat2 & Henc2 & Hrepl2).
  destruct (updateState c0) as [[[]|e| |] c2]; cbn [wrapped snd] in *;
    try (rewrite Henc2; right; apply prefix_nil).
  assert (Hrel : related c1 c2).
  { unfold related. rewrite Hst, Hcfg2, Hcat2. cbn [state config catalog].
    split; [reflexivity|]. split; [exact Hcfg|]. split; [exact Hcat|].
    split; [exact Hq1|]. apply quiet_settled.
    - exact Hcat2.
    - rewrite Hst. exact Hsettled.
    - rewrite Hrepl2. cbn [replStream]. exact (log_unchanged _ _ _ _ Hrepl). }
  destruct (Hsim c1 c2 Hrel) as (n1 & n2 & E1 & E2 & H).
  rewrite Henc1 in E1. apply app_inv_head in E1. subst n1.
  destruct (streamChanges fuel2 c2) as [r2 c2']. cbn [fst snd] in *.
  rewrite E2, Henc2. cbn [encoder app].
  destruct (m1 c1).1, r2;
    first [ destruct H as (_ & _ & ->); left; reflexivity
          | right; exact H | left; exact H | exact H ].
Qed.

(** Every checkpoint that the first loop and the streaming after it emit
    can be restarted from. *)
Lemma resumable_interleave (fuel1 : nat) :
  forall (watermark : string) (results : RS) (c : @capture W1)
         (new pre post : list Message) (s : PersistentState),
    steady cfg cat c ->
    encoder (andThen (interleave (DB := DB1) (Out := Out1) fuel1 watermark results c)
                     (fun _ => streaming (Out := Out1))).2
    = encoder c ++ new ->
    new = pre ++ MessageState s :: post ->
    comparable (records post)
               (records (RunCapture (DB := DB2) (Ops := Ops) (Codec := Codec) (Out := Out2)
                                    fuel2 cfg cat s).2).
Proof.
  induction fuel1 as [|fuel1 IH];
    intros watermark results c new pre post s Hsteady Henc Hnew;
    pose proof Hsteady as (Hsettled & Hcfg & Hcat & Hq).
  - cbn [interleave] in Henc. mrun_in Henc.
    destruct (pendingStreams (state c)); cbn [andThen snd encoder] in Henc.
    + destruct (rowless_streaming (Out := Out1) c Hq) as (n & En & Hn & _).
      rewrite Henc in En. apply app_inv_head in En. subst n.
      rewrite (records_rowless_suffix _ _ _ _ Hn Hnew). left. apply prefix_nil.
    + rewrite <- (app_nil_r (encoder c)) in Henc at 1. apply app_inv_head in Henc.
      subst new. destruct pre; discriminate.
  - rewrite interleave_S in Henc.
    destruct (pendingStreams (state c)) as [|pending0 pending]; cbn [andThen] in Henc.
    + destruct (rowless_streaming (Out := Out1) c Hq) as (n & En & Hn & _).
      rewrite Henc in En. apply app_inv_head in En. subst n.
      rewrite (records_rowless_suffix _ _ _ _ Hn Hnew). left. apply prefix_nil.
    + destruct (streamToWatermark_quiet (Out := Out1) watermark results c Hq)
        as (Hr & Henc1 & Hst1 & Hcfg1 & Hcat1 & Hq1).
      destruct (streamToWatermark watermark results c) as [r c1].
      cbn [fst snd] in Hr, Henc1, Hst1, Hcfg1, Hcat1, Hq1. subst r.
      cbn [wrapped andThen] in Henc.
      assert (Hsteady1 : steady cfg cat c1).
      { split; [exact (settled_sameTables _ _ _ (sameTables_ext _ _ Hst1) Hsettled)|].
        split; [congruence|]. split; [congruence|exact Hq1]. }
      pose proof (emitBuffered_checkpoint (Out := Out1) results c1) as Hflush.
      destruct (emitBuffered results c1) as [[[]|e| |] c2]; cbn [wrapped andThen snd] in Henc;
        try (destruct Hflush as (rows & Hrows & Hrec);
             rewrite Hrows, Henc1 in Henc; apply app_inv_head in Henc; subst new;
             destruct (rows_no_checkpoint _ _ _ _ Hrec Hnew)).
      destruct Hflush as ((rows & Hrows & Hrec) & Hsetup & Htables).
      pose proof (steady_sameTables _ _ _ _ Hsteady1 Hsetup Htables) as Hsteady2.
      change (encoder (afterCheckpoint (DB := DB1) (Out := Out1) (RS := RS) fuel1 c2).2
              = encoder c ++ new) in Henc.
      destruct (appended_afterCheckpoint (DB := DB1) (Out := Out1) (RS := RS)
                  (encoder c2) fuel1 c2 (appended_refl c2)) as [new' Hnew'].
      assert (Hsplit : rows ++ MessageState (state c2) :: new' = pre ++ MessageState s :: post).
      { rewrite <- Hnew. apply (app_inv_head (encoder c)).
        rewrite <- Henc, Hnew', Hrows, Henc1, <- !app_assoc. reflexivity. }
      destruct (split_checkpoint _ _ _ _ _ _ Hrec Hsplit) as [(_ & -> & ->)|[pre' Hrest]].
      * apply restart_rows with (m1 := afterCheckpoint (DB := DB1) (Out := Out1) fuel1);
          [exact Hsteady2|apply sim_afterCheckpoint|exact Hnew'].
      * unfold afterCheckpoint, bind in Hnew'.
        destruct (nextTurns_run (DB := DB1) (Out := Out1) (RS := RS) fuel1 c2)
          as [(watermark' & results' & c3 & Hc3 & Hrun)|[Hc3 Hstop]].
        -- rewrite Hrun in Hnew'.
           apply (IH watermark' results' c3 new' pre' post s);
             [exact (steady_sameButConn _ _ _ _ Hsteady2 Hc3)| |exact Hrest].
           destruct Hc3 as (_ & _ & _ & Henc3 & _). rewrite Henc3. exact Hnew'.
        -- destruct (nextTurns fuel1 c2) as [[a| | |] c3]; cbn [fst snd andThen] in *;
             [destruct (Hstop a eq_refl)|..];
             destruct Hc3 as (_ & _ & _ & Henc3 & _); rewrite Henc3 in Hnew';
             rewrite <- (app_nil_r (encoder c2)) in Hnew' at 1;
             apply app_inv_head in Hnew'; subst new'; destruct pre'; discriminate.
Qed.

Lemma resumable_streamChanges (fuel1 : nat) (c : @capture W1)
    (new pre post : list Message) (s : PersistentState) :
  steady cfg cat c ->
  encoder (streamChanges (DB := DB1) (Out := Out1) (RS := RS) fuel1 c).2 = encoder c ++ new ->
  new = pre ++ MessageState s :: post ->
  comparable (records post)
               (records (RunCapture (DB := DB2) (Ops := Ops) (Codec := Codec) (Out := Out2)
                                    fuel2 cfg cat s).2).
Proof.
  intros Hsteady Henc Hnew. pose proof Hsteady as (Hsettled & Hcfg & Hcat & Hq).
  unfold streamChanges, interleavedBackfill in Henc. mrun_in Henc.
  destruct (pendingStreams (state c)) as [|pending0 pending]; cbn [andThen] in Henc.
  - destruct (rowless_streaming (Out := Out1) c Hq) as (n & En & Hn & _).
    rewrite Henc in En. apply app_inv_head in En. subst n.
    rewrite (records_rowless_suffix _ _ _ _ Hn Hnew). left. apply prefix_nil.
  - pose proof (writeWatermark_sameButConn (DB := DB1) c) as Hw.
    destruct (writeWatermark_ c) as [[watermark|e| |] c1];
      cbn [fst snd wrapped andThen] in *;
      pose proof Hw as (_ & _ & _ & Henc1 & _);
      try (rewrite Henc1 in Henc; rewrite <- (app_nil_r (encoder c)) in Henc at 1;
           apply app_inv_head in Henc; subst new; destruct pre; discriminate).
    apply (resumable_interleave fuel1 watermark resultSet.nil c1 new pre post s);
      [exact (steady_sameButConn _ _ _ _ Hsteady Hw)| |exact Hnew].
    rewrite Henc1. exact Henc.
Qed.

(** The streaming loop leaves the table states alone: its checkpoints hold
    the table states it has started with, whatever the log holds. *)
Lemma streaming_keepsTables (c : @capture W1) :
  streamingFrom (Streams (state c)) (encoder c) (streaming (Out := Out1) c).2.
Proof.
  unfold streaming, bind, gets. cbn [andThen].
  apply (framed_streamChangesLoop (Out := Out1)
           (streamingFrom (Streams (state c)) (encoder c))).
  - intros evt rest c0 Hc0. exact Hc0.
  - intros lsn c0 Hc0. exact Hc0.
  - intros evt c0 (Hst & new & Henc & Hnew).
    pose proof (handleChangeEvent_frame (Out := Out1) evt c0) as (Hst' & _).
    pose proof (handleChangeEvent_encoder (Out := Out1) evt c0) as Henc'.
    split; [rewrite Hst'; exact Hst|].
    destruct (handleChangeEvent evt c0) as [[[]|e| |] c']; cbn [snd] in *;
      try (exists new; split; [congruence|exact Hnew]).
    destruct Henc' as (data & Henc' & _).
    exists (new ++ [MessageRecord (Namespace evt) (Table evt) data]).
    split; [rewrite Henc', Henc; symmetry; apply app_assoc|].
    apply Forall_app. split; [exact Hnew|]. constructor; [exact I|constructor].
  - intros c0 (Hst & new & Henc & Hnew).
    pose proof (emitState_frame (Out := Out1) (state c0) c0) as (Hst' & _).
    pose proof (emitState_encoder (Out := Out1) (state c0) c0) as Henc'.
    split; [rewrite Hst'; exact Hst|].
    destruct (emitState (state c0) c0) as [[[]|e| |] c']; cbn [snd] in *;
      try (exists new; split; [congruence|exact Hnew]).
    exists (new ++ [MessageState (state c0)]).
    split; [rewrite Henc', Henc; symmetry; apply app_assoc|].
    apply Forall_app. split; [exact Hnew|]. constructor; [exact Hst|constructor].
  - split; [reflexivity|]. exists []. split; [symmetry; apply app_nil_r|constructor].
Qed.

(** A capture restarted without pending streams emits no row. *)
Lemma restart_rowless (s : PersistentState) :
  settled cat s ->
  pendingStreams s = [] ->
  records (RunCapture (DB := DB2) (Ops := Ops) (Codec := Codec) (Out := Out2)
                      fuel2 cfg cat s).2 = [].
Proof.
  intros Hsettled Hpending. unfold RunCapture.
  destruct (pgx_Connect (ConnectionURI cfg)) as [conn| | |]; try reflexivity.
  destruct (pgconn_ParseConfig (ConnectionURI cfg)); [reflexivity|].
  destruct (pgconn_ConnectConfig (ConnectionURI cfg)); [reflexivity|].
  destruct (startReplication _ _ _) as [repl| | |] eqn:Hrepl; try reflexivity.
  cbv zeta. unfold wrapErr.
  set (c0 := mkCapture s cfg cat [] conn repl 0).
  pose proof (updateState_settled (DB := DB2) (Out := Out2) c0 Hsettled)
    as (Hst & Hcfg2 & Hcat2 & Henc2 & Hrepl2).
  destruct (updateState c0) as [[[]|e| |] c2]; cbn [wrapped snd] in *;
    try (rewrite Henc2; reflexivity).
  assert (Hq : quiet c2).
  { apply quiet_settled; [exact Hcat2|rewrite Hst; exact Hsettled|].
    rewrite Hrepl2. exact (log_unchanged _ _ _ _ Hrepl). }
  unfold streamChanges, interleavedBackfill. mrun. rewrite Hst. unfold c0 at 1. cbn [state].
  rewrite Hpending. cbn [andThen].
  destruct (rowless_streaming (Out := Out2) c2 Hq) as (n & En & Hn & _).
  destruct (streaming c2) as [r c2']. cbn [snd] in *.
  rewrite En, Henc2. exact Hn.
Qed.

End Restart.

(** The snapshot database of the tests does not change when its log holds
    no row event of a stream of the catalog. *)
Lemma snapshot_unchanged (chunkSize : Z) (w0 : Fixture.world) (log : list changeEvent)
    (cat : airbyte.ConfiguredCatalog) :
  Forall (fun evt => isCommit evt = true
                     \/ streamExistsInCatalog (airbyte.Streams cat)
                          (joinStreamID (Namespace evt) (Table evt)) = false) log ->
  Unchanged (Fixture.snapshot chunkSize w0 log) cat
            (fun streamID keyColumns resume =>
               take (Z.to_nat chunkSize)
                    (List.filter (Fixture.pastResume keyColumns resume)
                                 (default [] (Fixture.tables w0 !! streamID)))).
Proof.
  intros Hlog. constructor.
  - intros w streamID keyColumns resume evts [= <-]. reflexivity.
  - intros slot publication lsn repl [= <-]. exact Hlog.
Qed.

Lemma quietLog_unchanged :
  Forall (fun evt => isCommit evt = true
                     \/ streamExistsInCatalog
                          (airbyte.Streams (Scenario.tailing [Scenario.streamT]))
                          (joinStreamID (Namespace evt) (Table evt)) = false)
         Scenario.quietLog.
Proof.
  unfold Scenario.quietLog, Scenario.watermarkWrite. cbn [app].
  repeat (constructor; [first [left; reflexivity|right; reflexivity]|]). constructor.
Qed.

(** Resumability on a quiet log.  Take a capture on a database that does
    not change: every scan that returns rows returns the rows that its
    arguments determine, and the replication log holds nothing but commits
    and events of tables outside the catalog.  Cut what the capture emits
    after any State checkpoint [s], and start a second capture with the same
    configuration and catalog from [s], on a database that answers the scans
    alike; the two captures may differ in how far they get, in their
    connections, watermarks, logs and encoders.  Then the rows that the
    first capture emits after the checkpoint and the rows that the second
    capture emits continue one another: up to the end of the shorter
    sequence they are the same rows in the same order.  And a capture
    restarted from a checkpoint that the first one has emitted while
    streaming, with no stream pending, emits no row on such a database. *)
Theorem restart_continues_the_rows
    {W1 W2 RS : Type} {DB1 : Database W1} {DB2 : Database W2} {Ops : resultSet.Ops RS}
    {Codec : TupleCodec} {Out1 Out2 : messageOutput}
    (catalog : airbyte.ConfiguredCatalog)
    (scan : string -> list string -> bytes -> list changeEvent) :
  Unchanged DB1 catalog scan ->
  Unchanged DB2 catalog scan ->
  ResultSetLaws RS ->
  forall (fuel1 fuel2 : nat) (config : Config),
    (forall (state : PersistentState) (pre : list Message) (s : PersistentState)
            (post : list Message),
        (RunCapture (DB := DB1) (Ops := Ops) (Codec := Codec) (Out := Out1)
                    fuel1 config catalog state).2
        = pre ++ MessageState s :: post ->
        comparable (records post)
                   (records (RunCapture (DB := DB2) (Ops := Ops) (Codec := Codec)
                                        (Out := Out2) fuel2 config catalog s).2))
    /\ (forall (c : @capture W1) (pre : list Message) (s : PersistentState)
               (post : list Message),
           settled catalog (state c) ->
           pendingStreams (state c) = [] ->
           encoder (streaming (Out := Out1) c).2
           = encoder c ++ pre ++ MessageState s :: post ->
           records (RunCapture (DB := DB2) (Ops := Ops) (Codec := Codec) (Out := Out2)
                               fuel2 config catalog s).2 = []).
Proof.
  intros HU1 HU2 Hlaws fuel1 fuel2 config. split.
  2: {
    intros c pre s post Hsettled Hpending Hout.
    destruct (streaming_keepsTables (Out1 := Out1) c) as (_ & new & Hnew & Hkeep).
    rewrite Hout in Hnew. apply app_inv_head in Hnew. subst new.
    apply Forall_app in Hkeep as [_ Hkeep]. apply Forall_cons in Hkeep as [Hs _].
    cbn [keepsTables] in Hs.
    apply (restart_rowless (U2 := HU2)).
    - exact (settled_sameTables _ _ _ (sameTables_ext _ _ Hs) Hsettled).
    - rewrite (pendingStreams_ext _ _ Hs). exact Hpending. }
  intros state0 pre s post Hout.
  unfold RunCapture in Hout.
  destruct (pgx_Connect (Database := DB1) (ConnectionURI config)) as [conn| | |];
    try (destruct pre; discriminate).
  destruct (pgconn_ParseConfig (Database := DB1) (ConnectionURI config));
    [destruct pre; discriminate|].
  destruct (pgconn_ConnectConfig (Database := DB1) (ConnectionURI config));
    [destruct pre; discriminate|].
  destruct (startReplication (Database := DB1) _ _ _) as [repl| | |] eqn:Hrepl;
    try (destruct pre; discriminate).
  cbv zeta in Hout. unfold wrapErr in Hout.
  set (c0 := mkCapture state0 config catalog [] conn repl 0) in Hout.
  pose proof (updateState_settles (DB := DB1) (Out := Out1) c0) as Hsettles.
  pose proof (updateState_setup (DB := DB1) (Out := Out1) c0) as (Hcfg & Hcat & Hrepl1).
  destruct (updateState c0) as [[[]|e| |] c1]; cbn [wrapped snd] in *;
    try (rewrite Hsettles in Hout; destruct pre; discriminate).
  destruct Hsettles as [Hsettled Henc].
  assert (Hsteady : steady config catalog c1).
  { split; [exact Hsettled|]. split; [exact Hcfg|]. split; [exact Hcat|].
    apply (quiet_settled (cat := catalog)); [exact Hcat|exact Hsettled|].
    rewrite Hrepl1. exact (log_unchanged _ _ _ _ Hrepl). }
  destruct (appended_streamChanges (DB := DB1) (Out := Out1) (RS := RS)
              (encoder c1) fuel1 c1 (appended_refl c1)) as [new Hnew].
  destruct (streamChanges fuel1 c1) as [r c'] eqn:Hrun. cbn [snd] in Hout, Hnew.
  assert (Hnew' : encoder (streamChanges (DB := DB1) (Out := Out1) (RS := RS) fuel1 c1).2
                  = encoder c1 ++ new) by (rewrite Hrun; exact Hnew).
  rewrite Hnew in Hout. cbn [encoder] in Henc.
  destruct Henc as [Henc|Henc]; rewrite Henc in Hout; cbn [app] in Hout.
  - exact (resumable_streamChanges (U1 := HU1) (U2 := HU2) config fuel2 fuel1 c1
             new pre post s Hsteady Hnew' Hout).
  - destruct pre as [|m pre]; cbn [app] in Hout.
    + injection Hout as <- <-.
      apply (restart_rows (U2 := HU2) config fuel2
               (streamChanges (DB := DB1) (Out := Out1) fuel1) c1 new Hsteady);
        [apply (sim_streamChanges (U1 := HU1) (U2 := HU2))|exact Hnew'].
    + injection Hout as _ Hout.
      exact (resumable_streamChanges (U1 := HU1) (U2 := HU2) config fuel2 fuel1 c1
               new pre post s Hsteady Hnew' Hout).
Qed.

Lemma restart_continues_the_rows_on_quiet_log :
  comparable (records (drop 5 (Scenario.firstRun 5)))
             (records (Scenario.secondRun 5 (Scenario.checkpointAt 4 (Scenario.firstRun 5)))).
Proof.
  apply (proj1 (restart_continues_the_rows
           (DB1 := Fixture.snapshot 2 Scenario.db Scenario.quietLog)
           (DB2 := Fixture.snapshot 2 Scenario.db Scenario.quietLog)
           (Ops := Fixture.results 2) (Codec := Fixture.codec)
           (Out1 := Fixture.memory) (Out2 := Fixture.memory)
           (Scenario.tailing [Scenario.streamT]) _
           (snapshot_unchanged 2 Scenario.db _ _ quietLog_unchanged)
           (snapshot_unchanged 2 Scenario.db _ _ quietLog_unchanged)
           (fixture_laws 2)
           5%nat 5%nat Scenario.cfg) Scenario.fresh
           (take 4 (Scenario.firstRun 5))).
  vm_compute. reflexivity.
Defined.

(** On the database of the scenario the first capture emits two rows and
    their checkpoint, then the third row; the capture restarted from that
    checkpoint emits the third row and no other. *)
Example restart_after_first_chunk :
  let s := Scenario.checkpointAt 4 (Scenario.firstRun 5) in
  length (records (take 4 (Scenario.firstRun 5))) = 2%nat
  /\ Scenario.firstRun 5 !! 4%nat = Some (MessageState s)
  /\ length (records (drop 5 (Scenario.firstRun 5))) = 1%nat
  /\ records (Scenario.secondRun 5 s) = records (drop 5 (Scenario.firstRun 5)).
Proof. vm_compute. repeat split; reflexivity. Qed.

(** ** A checkpoint behind an emitted row (C1) *)

(** C1.  The resumability that the claim states fails when the event channel
    is closed within a transaction while a backfill is under way.  A capture
    of [public.t] from the fresh state, with chunks of two rows, on the log
    [Scenario.cutLog]: the drain of the third turn receives the update of
    the row [1] at the position 14 and emits it, the channel is closed
    before the Commit of the update, [streamToWatermark] returns [nil] all
    the same, and [emitBuffered] emits the last chunk and a checkpoint whose
    [CurrentLSN] is still 13, the position of the Commit before the update.
    The capture restarted from that checkpoint, on the database as the
    update has left it and the same log, is given the replay from the
    position 13 and emits the update a second time. *)
Theorem C1_checkpoint_behind_emitted_row :
  let updated := Scenario.recordT "Update" "1" "x" in
  let s := mkPersistentState 13
             (Some (<["public.t" := mkTableState tableModeActive ["id"] None]> ∅)) in
  RunCapture (DB := Fixture.replayed 2 Scenario.db Scenario.cutLog)
             (Ops := Fixture.results 2) (Codec := Fixture.codec) (Out := Fixture.memory)
             5 Scenario.cfg (Scenario.tailing [Scenario.streamT]) Scenario.fresh
  = (Ok tt,
     [Scenario.checkpointT 0 tableModeBackfill None;
      Scenario.checkpointT 11 tableModeBackfill None;
      Scenario.recordT "Insert" "1" "a";
      Scenario.recordT "Insert" "2" "b";
      Scenario.checkpointT 13 tableModeBackfill (Some [Byte.x02; Byte.x32; Byte.x00]);
      updated;
      Scenario.recordT "Insert" "3" "c";
      MessageState s])
  /\ CurrentLSN s < LSN (Scenario.update "1" "x" 14)
  /\ RunCapture (DB := Fixture.replayed 2 Scenario.dbUpdated Scenario.cutLog)
                (Ops := Fixture.results 2) (Codec := Fixture.codec) (Out := Fixture.memory)
                5 Scenario.cfg (Scenario.tailing [Scenario.streamT]) s
     = (Ok tt, [updated]).
Proof. vm_compute. repeat split; reflexivity. Qed.

(** When the Commit of the update is delivered before the channel is closed,
    the drain moves [CurrentLSN] to it, and the capture restarted from the
    last checkpoint emits nothing. *)
Example restart_after_delivered_commit :
  let log := Scenario.cutLog ++ [Scenario.commit 15] in
  let s := mkPersistentState 15
             (Some (<["public.t" := mkTableState tableModeActive ["id"] None]> ∅)) in
  last (RunCapture (DB := Fixture.replayed 2 Scenario.db log)
                   (Ops := Fixture.results 2) (Codec := Fixture.codec) (Out := Fixture.memory)
                   5 Scenario.cfg (Scenario.tailing [Scenario.streamT]) Scenario.fresh).2
  = Some (MessageState s)
  /\ RunCapture (DB := Fixture.replayed 2 Scenario.dbUpdated log)
                (Ops := Fixture.results 2) (Codec := Fixture.codec) (Out := Fixture.memory)
                5 Scenario.cfg (Scenario.tailing [Scenario.streamT]) s
     = (Ok tt, []).
Proof. vm_compute. split; reflexivity. Qed.

(** * Further properties of the code *)

(** ** Stream identifiers and pending streams *)

Lemma lower_ascii_idem (c : ascii) : lower_ascii (lower_ascii c) = lower_ascii c.
Proof. destruct c as [[] [] [] [] [] [] [] []]; reflexivity. Qed.

Lemma strings_ToLower_idem (s : string) :
  strings_ToLower (strings_ToLower s) = strings_ToLower s.
Proof.
  induction s as [|c s IH]; [reflexivity|].
  cbn [strings_ToLower]. rewrite lower_ascii_idem, IH. reflexivity.
Qed.

Lemma strings_ToLower_app (a b : string) :
  strings_ToLower (a +:+ b) = strings_ToLower a +:+ strings_ToLower b.
Proof.
  induction a as [|c a IH]; [reflexivity|].
  rewrite append_cons. cbn [strings_ToLower]. rewrite IH, append_cons. reflexivity.
Qed.

Lemma cut_at_app (sep : ascii) (s a b : string) :
  cut_at sep s = Some (a, b) -> s = a +:+ String sep b.
Proof.
  revert a b. induction s as [|c s IH]; intros a b Hcut; [discriminate|].
  cbn [cut_at] in Hcut. destruct (Ascii.eqb c sep) eqn:Hc.
  - apply Ascii.eqb_eq in Hc. injection Hcut as <- <-. subst c. reflexivity.
  - destruct (cut_at sep s) as [[a' b']|]; [|discriminate].
    injection Hcut as <- <-. rewrite append_cons, <- (IH a' b' eq_refl). reflexivity.
Qed.

(** X1.  Stream identifiers do not distinguish the case of ASCII letters and
    take [public] for an empty namespace: [joinStreamID] gives a lower-case
    text, the same for an empty namespace as for [public], and the same for
    two namespaces and two names that differ in the case of their letters
    only. *)
Theorem X1_joinStreamID_ignores_case (ns ns' stream stream' : string) :
  isASCII ns = true -> isASCII ns' = true ->
  isASCII stream = true -> isASCII stream' = true ->
  joinStreamID "" stream = joinStreamID "public" stream
  /\ strings_ToLower (joinStreamID ns stream) = joinStreamID ns stream
  /\ (ns <> "" -> ns' <> "" ->
      strings_ToLower ns = strings_ToLower ns' ->
      strings_ToLower stream = strings_ToLower stream' ->
      joinStreamID ns stream = joinStreamID ns' stream').
Proof.
  intros _ _ _ _. split; [reflexivity|]. split.
  - unfold joinStreamID. apply strings_ToLower_idem.
  - intros Hns Hns' Hlow Hlow'. unfold joinStreamID.
    destruct (String.eqb_spec ns ""); [contradiction|].
    destruct (String.eqb_spec ns' ""); [contradiction|].
    rewrite !strings_ToLower_app, Hlow, Hlow'. reflexivity.
Qed.

Lemma X1_joinStreamID_ignores_case_witness :
  joinStreamID "" "Users" = joinStreamID "public" "Users"
  /\ strings_ToLower (joinStreamID "Public" "Users") = joinStreamID "Public" "Users"
  /\ ("Public" <> "" -> "PUBLIC" <> "" ->
      strings_ToLower "Public" = strings_ToLower "PUBLIC" ->
      strings_ToLower "Users" = strings_ToLower "users" ->
      joinStreamID "Public" "Users" = joinStreamID "PUBLIC" "users").
Proof.
  apply (X1_joinStreamID_ignores_case "Public" "PUBLIC" "Users" "users"); reflexivity.
Defined.

Lemma insert_sorted_Permutation (x : string) (l : list string) :
  insert_sorted x l ≡ₚ x :: l.
Proof.
  induction l as [|y l IH]; [reflexivity|].
  cbn [insert_sorted]. destruct (String.leb x y); [reflexivity|].
  rewrite IH. apply Permutation_swap.
Qed.

Lemma sort_Strings_Permutation (l : list string) : sort_Strings l ≡ₚ l.
Proof.
  induction l as [|x l IH]; [reflexivity|].
  cbn [sort_Strings foldr]. rewrite insert_sorted_Permutation.
  constructor. exact IH.
Qed.

Lemma insert_sorted_Sorted (x : string) (l : list string) :
  Sorted (fun a b => String.leb a b = true) l ->
  Sorted (fun a b => String.leb a b = true) (insert_sorted x l).
Proof.
  induction l as [|y l IH]; intros Hl.
  - repeat constructor.
  - cbn [insert_sorted]. destruct (String.leb x y) eqn:Hxy.
    + constructor; [exact Hl|]. constructor. exact Hxy.
    + apply Sorted_inv in Hl as [Hl Hhd]. constructor; [apply IH, Hl|].
      destruct l as [|z l]; cbn [insert_sorted].
      * constructor. destruct (String.leb_total x y) as [H|H]; congruence.
      * destruct (String.leb x z).
        -- constructor. destruct (String.leb_total x y) as [H|H]; congruence.
        -- apply HdRel_inv in Hhd. constructor. exact Hhd.
Qed.

Lemma sort_Strings_Sorted (l : list string) :
  Sorted (fun a b => String.leb a b = true) (sort_Strings l).
Proof.
  induction l as [|x l IH]; [constructor|].
  cbn [sort_Strings foldr]. apply insert_sorted_Sorted, IH.
Qed.

(** X2.  [pendingStreams] returns the identifiers of the streams whose mode
    is Backfill, each once, in ascending order of Go's string comparison; it
    returns the nil slice exactly when no stream is in Backfill mode. *)
Theorem X2_pendingStreams_sorted_backfill (ps : PersistentState) :
  Sorted (fun a b => String.leb a b = true) (pendingStreams ps)
  /\ NoDup (pendingStreams ps)
  /\ (forall s, s ∈ pendingStreams ps
                <-> exists ts, streamsOf ps !! s = Some ts /\ Mode ts = tableModeBackfill)
  /\ (pendingStreams ps = []
      <-> forall s ts, streamsOf ps !! s = Some ts -> Mode ts <> tableModeBackfill).
Proof.
  split; [apply sort_Strings_Sorted|]. split.
  - unfold pendingStreams. rewrite sort_Strings_Permutation.
    apply NoDup_fst_map_to_list.
  - split; [apply elem_of_pendingStreams|]. split.
    + intros Hnil s ts Hs Hmode.
      assert (Hin : s ∈ pendingStreams ps) by (apply elem_of_pendingStreams; eauto).
      rewrite Hnil in Hin. apply elem_of_nil in Hin. exact Hin.
    + intros Hnone. destruct (pendingStreams ps) as [|s l] eqn:Hp; [reflexivity|].
      assert (Hin : s ∈ pendingStreams ps) by (rewrite Hp; left).
      apply elem_of_pendingStreams in Hin as (ts & Hs & Hmode).
      destruct (Hnone s ts Hs Hmode).
Qed.

(** ** The chunk scanner *)

Lemma rowFields_lookup (cols : list string) :
  forall (vals : list value) (fields out : gmap string value),
    backfill.rowFields cols vals fields = Ok out ->
    NoDup cols ->
    (forall (j : nat) (col : string),
        cols !! j = Some col -> exists v, vals !! j = Some v /\ out !! col = Some v)
    /\ (forall col, col ∉ cols -> out !! col = fields !! col).
Proof.
  induction cols as [|col0 cols IH]; intros vals fields out Hrun Hnd.
  - cbn in Hrun. injection Hrun as <-. split; [intros j col Hj; discriminate|auto].
  - destruct vals as [|v vals]; [discriminate|]. cbn [backfill.rowFields] in Hrun.
    apply NoDup_cons in Hnd as [Hfresh Hnd].
    destruct (IH vals _ out Hrun Hnd) as [Hin Hout]. split.
    + intros [|j] col Hj; cbn in Hj.
      * injection Hj as <-. exists v. split; [reflexivity|].
        rewrite (Hout col0 Hfresh). apply lookup_insert_eq.
      * exact (Hin j col Hj).
    + intros col Hcol. apply not_elem_of_cons in Hcol as [Hne Hcol].
      rewrite (Hout col Hcol). apply lookup_insert_ne. congruence.
Qed.

(** What the [rows.Next()] loop adds to [events]: one Insert event of the
    scanned table for every row, in the order of the rows. *)
Lemma scanRows_events (schemaName tableName : string) (cols : list string)
    (rows : list (outcome (list value))) :
  forall events out : list changeEvent,
    backfill.scanRows schemaName tableName cols rows events = Ok out ->
    exists new,
      out = events ++ new
      /\ Forall2 (fun row evt =>
                    exists vals fields,
                      row = Ok vals
                      /\ backfill.rowFields cols vals ∅ = Ok fields
                      /\ evt = mkEvent "Insert" schemaName tableName fields 0)
                 rows new.
Proof.
  induction rows as [|row rest IH]; intros events out Hrun.
  - cbn in Hrun. injection Hrun as <-. exists []. rewrite app_nil_r. split; constructor.
  - cbn [backfill.scanRows] in Hrun.
    destruct row as [vals|e| |]; try discriminate.
    destruct (backfill.rowFields cols vals ∅) as [fields|e| |] eqn:Hfields; try discriminate.
    destruct (IH _ _ Hrun) as (new & -> & Hnew).
    exists (mkEvent "Insert" schemaName tableName fields 0 :: new).
    split; [rewrite <- app_assoc; reflexivity|].
    constructor; [|exact Hnew]. exists vals, fields. auto.
Qed.

(** X3.  The events that [ScanTableChunk] returns belong to the stream it was
    asked to scan: when the stream identifier is lower-case, as
    [joinStreamID] makes it, and does not start with the dot,
    [joinStreamID] of the namespace and the table of every event is the
    stream identifier again.  A stream identifier without a dot makes
    [ScanTableChunk] panic on [parts[1]]. *)
Theorem X3_ScanTableChunk_stream_round_trip
    (backfillChunkSize : Z) (Query : string -> list value -> outcome backfill.queryRows)
    (streamID : string) (keyColumns : list string) (resumeKey : option (list value)) :
  (cut_at "."%char streamID = None ->
   backfill.ScanTableChunk backfillChunkSize Query streamID keyColumns resumeKey = Panic)
  /\ (forall events,
        backfill.ScanTableChunk backfillChunkSize Query streamID keyColumns resumeKey
        = Ok events ->
        strings_ToLower streamID = streamID ->
        (forall rest, streamID <> String "."%char rest) ->
        Forall (fun evt => joinStreamID (Namespace evt) (Table evt) = streamID
                           /\ Type_ evt = "Insert") events).
Proof.
  unfold backfill.ScanTableChunk, strings_SplitN2. split.
  - intros ->. reflexivity.
  - intros events Hrun Hlower Hdot.
    destruct (cut_at "."%char streamID) as [[schemaName tableName]|] eqn:Hcut;
      [|discriminate].
    apply cut_at_app in Hcut.
    destruct (Query _ _) as [rows|e| |]; try discriminate.
    destruct (scanRows_events _ _ _ _ _ _ Hrun) as (new & -> & Hnew). cbn [app].
    clear Hrun.
    induction Hnew as [|row evt rows' new' (vals & fields & _ & _ & ->) _ IH];
      constructor; [|exact IH].
    cbn [Namespace Table Type_]. split; [|reflexivity].
    unfold joinStreamID.
    destruct (String.eqb_spec schemaName "") as [->|_].
    + destruct (Hdot tableName). exact Hcut.
    + rewrite <- Hlower, Hcut. reflexivity.
Qed.

Lemma X3_ScanTableChunk_stream_round_trip_witness :
  Forall (fun evt => joinStreamID (Namespace evt) (Table evt) = "public.t"
                     /\ Type_ evt = "Insert")
         [mkEvent "Insert" "public" "t"
                  (<["v" := VString "a"]> (<["id" := VString "1"]> ∅)) 0].
Proof.
  apply (proj2 (X3_ScanTableChunk_stream_round_trip 2 Scenario.oneRow
                  "public.t" ["id"] None)).
  - reflexivity.
  - reflexivity.
  - intros rest. discriminate.
Defined.

(** X4.  [ScanTableChunk] turns every row of the query result into one
    event, in the order of the rows: with column names that differ from one
    another, the field map of the event holds the value of the row at the
    place of each column under the name of the column, and nothing else. *)
Theorem X4_ScanTableChunk_rows_to_events
    (backfillChunkSize : Z) (Query : string -> list value -> outcome backfill.queryRows)
    (streamID : string) (keyColumns : list string) (resumeKey : option (list value))
    (events : list changeEvent) :
  backfill.ScanTableChunk backfillChunkSize Query streamID keyColumns resumeKey = Ok events ->
  exists query rows,
    Query query (default [] resumeKey) = Ok rows
    /\ (NoDup (backfill.FieldDescriptions rows) ->
        Forall2 (fun row evt =>
                   exists vals,
                     row = Ok vals
                     /\ (forall (j : nat) (col : string),
                           backfill.FieldDescriptions rows !! j = Some col ->
                           exists v, vals !! j = Some v /\ Fields evt !! col = Some v)
                     /\ (forall col, col ∉ backfill.FieldDescriptions rows ->
                                     Fields evt !! col = None))
                (backfill.Values rows) events).
Proof.
  unfold backfill.ScanTableChunk. intros Hrun.
  destruct (strings_SplitN2 streamID) as [|schemaName [|tableName [|? ?]]]; try discriminate.
  match goal with
  | H : match Query ?q ?args with _ => _ end = _ |- _ =>
      exists q; destruct (Query q args) as [rows|e| |] eqn:Hq; try discriminate
  end.
  exists rows. split; [reflexivity|]. intros Hnd.
  destruct (scanRows_events _ _ _ _ _ _ Hrun) as (new & -> & Hnew). cbn [app].
  eapply Forall2_impl; [exact Hnew|].
  intros row evt (vals & fields & -> & Hfields & ->). exists vals.
  destruct (rowFields_lookup _ _ _ _ Hfields Hnd) as [Hin Hout].
  split; [reflexivity|]. split; [exact Hin|].
  intros col Hcol. cbn [Fields]. rewrite (Hout col Hcol). apply lookup_empty.
Qed.

Lemma X4_ScanTableChunk_rows_to_events_witness :
  exists query rows,
    Scenario.oneRow query (default [] (@None (list value))) = Ok rows
    /\ (NoDup (backfill.FieldDescriptions rows) ->
        Forall2 (fun row evt =>
                   exists vals,
                     row = Ok vals
                     /\ (forall (j : nat) (col : string),
                           backfill.FieldDescriptions rows !! j = Some col ->
                           exists v, vals !! j = Some v /\ Fields evt !! col = Some v)
                     /\ (forall col, col ∉ backfill.FieldDescriptions rows ->
                                     Fields evt !! col = None))
                (backfill.Values rows)
                [mkEvent "Insert" "public" "t"
                         (<["v" := VString "a"]> (<["id" := VString "1"]> ∅)) 0]).
Proof.
  apply (X4_ScanTableChunk_rows_to_events 2 Scenario.oneRow "public.t" ["id"] None).
  reflexivity.
Defined.

(** ** The translation of the fields of an event *)

Lemma translateFields_total (kvs : list (string * value)) :
  forall fields : gmap string value,
    (forall k v, (k, v) ∈ kvs -> exists v', translateRecordField v = Ok v') ->
    exists out, translateFields kvs fields = Ok out.
Proof.
  induction kvs as [|[id val] rest IH]; intros fields Hall.
  - exists fields. reflexivity.
  - cbn [translateFields]. destruct (Hall id val) as [t Ht]; [left|]. rewrite Ht.
    apply IH. intros k v Hin. apply (Hall k v). right. exact Hin.
Qed.

Lemma translateFields_visit (fields out : gmap string value) (kvs : list (string * value)) :
  kvs ≡ₚ map_to_list fields ->
  translateFields kvs fields = Ok out ->
  forall (k : string) (v' : value),
    out !! k = Some v'
    <-> exists v, fields !! k = Some v /\ translateRecordField v = Ok v'.
Proof.
  intros Hperm Hrun k v'.
  assert (Hnd : NoDup kvs.*1).
  { rewrite Hperm. apply NoDup_fst_map_to_list. }
  split.
  - intros Hout. destruct (fields !! k) as [v|] eqn:Hk.
    + assert (Hin : (k, v) ∈ kvs) by (rewrite Hperm; apply elem_of_map_to_list, Hk).
      destruct (translateFields_key _ _ _ _ _ Hnd Hrun Hin) as (v'' & Hv'' & Hout').
      exists v. split; [reflexivity|]. congruence.
    + rewrite (translateFields_other _ _ _ k Hrun) in Hout; [congruence|].
      intros Hin. apply list_elem_of_fmap in Hin as ([k' v] & -> & Hin).
      rewrite Hperm in Hin. apply elem_of_map_to_list in Hin. cbn in Hk. congruence.
  - intros (v & Hk & Hv).
    assert (Hin : (k, v) ∈ kvs) by (rewrite Hperm; apply elem_of_map_to_list, Hk).
    destruct (translateFields_key _ _ _ _ _ Hnd Hrun Hin) as (v'' & Hv'' & Hout').
    congruence.
Qed.

(** X5.  The result of the loop of [handleChangeEvent] over the field map
    does not depend on the order in which Go visits the map.  In whatever
    order the fields are visited, the loop returns without an error exactly
    when every field value translates, and the translated map is then the
    same: every field holds the translation of its value.  (Which error is
    returned when several values fail does depend on the order.) *)
Theorem X5_translateFields_any_order (fields : gmap string value)
    (kvs kvs' : list (string * value)) :
  kvs ≡ₚ map_to_list fields ->
  kvs' ≡ₚ map_to_list fields ->
  ((exists out, translateFields kvs fields = Ok out)
   <-> forall k v, fields !! k = Some v -> exists v', translateRecordField v = Ok v')
  /\ (forall out, translateFields kvs fields = Ok out ->
                  translateFields kvs' fields = Ok out
                  /\ forall k v', out !! k = Some v'
                                  <-> exists v, fields !! k = Some v
                                                /\ translateRecordField v = Ok v')
  /\ (forall e, translateFields kvs fields = Err e ->
                exists e', translateFields kvs' fields = Err e').
Proof.
  intros Hperm Hperm'.
  assert (Hnd : NoDup kvs.*1) by (rewrite Hperm; apply NoDup_fst_map_to_list).
  assert (Hok : forall l, l ≡ₚ map_to_list fields ->
              (exists out, translateFields l fields = Ok out)
              <-> forall k v, fields !! k = Some v ->
                              exists v', translateRecordField v = Ok v').
  { intros l Hl. split.
    - intros [out Hrun] k v Hk.
      assert (Hin : (k, v) ∈ l) by (rewrite Hl; apply elem_of_map_to_list, Hk).
      assert (Hndl : NoDup l.*1) by (rewrite Hl; apply NoDup_fst_map_to_list).
      destruct (translateFields_key _ _ _ _ _ Hndl Hrun Hin) as (v' & Hv' & _). eauto.
    - intros Hall. apply translateFields_total. intros k v Hin.
      rewrite Hl in Hin. apply elem_of_map_to_list in Hin. eauto. }
  split; [exact (Hok kvs Hperm)|]. split.
  - intros out Hrun. split; [|exact (translateFields_visit _ _ _ Hperm Hrun)].
    destruct (proj2 (Hok kvs' Hperm')) as [out' Hrun'].
    { apply (Hok kvs Hperm). eauto. }
    rewrite Hrun'. f_equal. apply map_eq. intros k.
    pose proof (translateFields_visit _ _ _ Hperm Hrun k) as H1.
    pose proof (translateFields_visit _ _ _ Hperm' Hrun' k) as H2.
    destruct (out' !! k) as [v'|] eqn:E'.
    + symmetry. apply H1, H2. reflexivity.
    + destruct (out !! k) as [v|] eqn:E; [|reflexivity].
      assert (Hv : Some v = Some v) by reflexivity.
      apply H1 in Hv. apply H2 in Hv. discriminate.
  - intros e Hrun.
    destruct (translateFields kvs' fields) as [out'|e'| |] eqn:Hrun'.
    + destruct (proj2 (Hok kvs Hperm)) as [out Hout].
      { apply (Hok kvs' Hperm'). eauto. }
      congruence.
    + eauto.
    + exfalso. clear -Hrun'. revert fields Hrun'.
      induction kvs' as [|[id val] rest IH]; intros fields Hrun'; [discriminate|].
      cbn [translateFields] in Hrun'.
      destruct (translateRecordField val) as [t|e| |] eqn:Ht; try discriminate;
        [exact (IH _ Hrun')|destruct val as [| | | | | |? []|]; discriminate].
    + exfalso. clear -Hrun'. revert fields Hrun'.
      induction kvs' as [|[id val] rest IH]; intros fields Hrun'; [discriminate|].
      cbn [translateFields] in Hrun'.
      destruct (translateRecordField val) as [t|e| |] eqn:Ht; try discriminate;
        [exact (IH _ Hrun')|destruct val as [| | | | | |? []|]; discriminate].
Qed.

Lemma X5_translateFields_any_order_witness :
  ((exists out,
       translateFields [("a", VIPNet "10.0.0.0/8"); ("b", VString "x")]
                       (<["a" := VIPNet "10.0.0.0/8"]> (<["b" := VString "x"]> ∅)) = Ok out)
   <-> forall k v,
         (<["a" := VIPNet "10.0.0.0/8"]> (<["b" := VString "x"]> ∅) : gmap string value) !! k
         = Some v ->
         exists v', translateRecordField v = Ok v')
  /\ (forall out,
        translateFields [("a", VIPNet "10.0.0.0/8"); ("b", VString "x")]
                        (<["a" := VIPNet "10.0.0.0/8"]> (<["b" := VString "x"]> ∅)) = Ok out ->
        translateFields [("b", VString "x"); ("a", VIPNet "10.0.0.0/8")]
                        (<["a" := VIPNet "10.0.0.0/8"]> (<["b" := VString "x"]> ∅)) = Ok out
        /\ forall k v', out !! k = Some v'
                        <-> exists v,
                              (<["a" := VIPNet "10.0.0.0/8"]> (<["b" := VString "x"]> ∅)
                               : gmap string value) !! k = Some v
                              /\ translateRecordField v = Ok v')
  /\ (forall e,
        translateFields [("a", VIPNet "10.0.0.0/8"); ("b", VString "x")]
                        (<["a" := VIPNet "10.0.0.0/8"]> (<["b" := VString "x"]> ∅)) = Err e ->
        exists e',
          translateFields [("b", VString "x"); ("a", VIPNet "10.0.0.0/8")]
                          (<["a" := VIPNet "10.0.0.0/8"]> (<["b" := VString "x"]> ∅)) = Err e').
Proof.
  apply (X5_translateFields_any_order
           (<["a" := VIPNet "10.0.0.0/8"]> (<["b" := VString "x"]> ∅))
           [("a", VIPNet "10.0.0.0/8"); ("b", VString "x")]
           [("b", VString "x"); ("a", VIPNet "10.0.0.0/8")]).
  - vm_compute. reflexivity.
  - vm_compute. apply Permutation_swap.
Defined.

Lemma hex_digit_inj (n m : Z) :
  0 <= n < 16 -> 0 <= m < 16 -> hex_digit n = hex_digit m -> n = m.
Proof.
  intros Hn Hm.
  assert (Hcases : forall k, 0 <= k < 16 ->
            k = 0 \/ k = 1 \/ k = 2 \/ k = 3 \/ k = 4 \/ k = 5 \/ k = 6 \/ k = 7
            \/ k = 8 \/ k = 9 \/ k = 10 \/ k = 11 \/ k = 12 \/ k = 13 \/ k = 14 \/ k = 15)
    by (intros k Hk; lia).
  destruct (Hcases n Hn) as [->|[->|[->|[->|[->|[->|[->|[->|[->|[->|[->|[->|[->|[->|[->| ->]]]]]]]]]]]]]]];
    destruct (Hcases m Hm) as [->|[->|[->|[->|[->|[->|[->|[->|[->|[->|[->|[->|[->|[->|[->| ->]]]]]]]]]]]]]]];
    vm_compute; intros H; try reflexivity; discriminate H.
Qed.

Lemma hex2_inj (b c : Z) : 0 <= b < 256 -> 0 <= c < 256 -> hex2 b = hex2 c -> b = c.
Proof.
  intros Hb Hc Heq. unfold hex2 in Heq. injection Heq as Hhi Hlo.
  apply hex_digit_inj in Hhi; [|split; [apply Z.div_pos|apply Z.div_lt_upper_bound]; lia..].
  apply hex_digit_inj in Hlo; [|apply Z.mod_pos_bound; lia..].
  rewrite (Z.div_mod b 16), (Z.div_mod c 16) by lia. congruence.
Qed.

Lemma uuidString_cons (i b : Z) (x : list Z) :
  uuidString i (b :: x)
  = if (i =? 4) || (i =? 6) || (i =? 8) || (i =? 10)
    then String "-" (String (hex_digit (b / 16))
                            (String (hex_digit (b mod 16)) (uuidString (i + 1) x)))
    else String (hex_digit (b / 16))
                (String (hex_digit (b mod 16)) (uuidString (i + 1) x)).
Proof. cbn [uuidString]. destruct ((i =? 4) || (i =? 6) || (i =? 8) || (i =? 10)); reflexivity. Qed.

Lemma uuidString_inj (x : list Z) :
  forall (y : list Z) (i : Z),
    length x = length y ->
    Forall (fun b => 0 <= b < 256) x ->
    Forall (fun b => 0 <= b < 256) y ->
    uuidString i x = uuidString i y -> x = y.
Proof.
  induction x as [|b x IH]; intros [|c y] i Hlen Hx Hy Heq; try discriminate;
    [reflexivity|].
  apply Forall_cons in Hx as [Hb Hx]. apply Forall_cons in Hy as [Hc Hy].
  rewrite !uuidString_cons in Heq.
  assert (Hhex : hex2 b = hex2 c /\ uuidString (i + 1) x = uuidString (i + 1) y).
  { unfold hex2.
    destruct ((i =? 4) || (i =? 6) || (i =? 8) || (i =? 10));
      injection Heq as -> -> ->; auto. }
  destruct Hhex as [Hhex Hrest].
  f_equal; [exact (hex2_inj _ _ Hb Hc Hhex)|].
  apply (IH y (i + 1)); [cbn in Hlen; lia|assumption..].
Qed.

(** X6.  A UUID, the sixteen bytes of a [[16]uint8], is translated into
    its text of 36 characters, with a dash before the bytes of index 4, 6, 8 and 10,
    and two UUIDs that differ are translated into texts that differ. *)
Theorem X6_translateRecordField_uuid (x y : list Z) :
  length x = 16%nat -> length y = 16%nat ->
  Forall (fun b => 0 <= b < 256) x ->
  Forall (fun b => 0 <= b < 256) y ->
  (exists s,
      translateRecordField (VUUID x) = Ok (VString s)
      /\ String.length s = 36%nat
      /\ String.get 8 s = Some "-"%char /\ String.get 13 s = Some "-"%char
      /\ String.get 18 s = Some "-"%char /\ String.get 23 s = Some "-"%char)
  /\ (translateRecordField (VUUID x) = translateRecordField (VUUID y) -> x = y).
Proof.
  intros Hx Hy Hbx Hby. split.
  - exists (uuidString 0 x). split; [reflexivity|]. clear -Hx.
    do 16 (destruct x as [|? x]; [discriminate Hx|]).
    destruct x; [|discriminate Hx]. repeat split; reflexivity.
  - cbn [translateRecordField]. intros [= Heq].
    apply (uuidString_inj x y 0); [congruence|assumption..].
Qed.

Lemma X6_translateRecordField_uuid_witness :
  (exists s,
      translateRecordField (VUUID (seqZ 0 16)) = Ok (VString s)
      /\ String.length s = 36%nat
      /\ String.get 8 s = Some "-"%char /\ String.get 13 s = Some "-"%char
      /\ String.get 18 s = Some "-"%char /\ String.get 23 s = Some "-"%char)
  /\ (translateRecordField (VUUID (seqZ 0 16)) = translateRecordField (VUUID (seqZ 16 16))
      -> seqZ 0 16 = seqZ 16 16).
Proof.
  apply (X6_translateRecordField_uuid (seqZ 0 16) (seqZ 16 16)).
  - reflexivity.
  - reflexivity.
  - vm_compute. repeat constructor; discriminate.
  - vm_compute. repeat constructor; discriminate.
Defined.

(** ** State reconciliation *)

Section Reconciliation.
Context {W : Type}.
Context {DB : Database W} {Out : messageOutput}.
Implicit Types (c : @capture W).

(** The first loop of [updateState] keeps the table states there are, adds
    one in Backfill mode for a stream of the catalog that has none, and
    returns without an error only when every stream it has gone through has
    a key whose comma-joined text is that of the scan key of its table
    state.  The key is the one of the catalog when the catalog names one,
    the one of the database otherwise. *)
Lemma updateStreams_tables (dbPrimaryKeys : gmap string (list string))
    (streams : list airbyte.ConfiguredStream) :
  forall (stateDirty : bool) c,
    match updateStreams dbPrimaryKeys streams stateDirty c with
    | (Ok _, c') =>
        CurrentLSN (state c') = CurrentLSN (state c)
        /\ (forall streamID ts,
              streamsOf (state c) !! streamID = Some ts ->
              streamsOf (state c') !! streamID = Some ts)
        /\ (forall streamID ts',
              streamsOf (state c') !! streamID = Some ts' ->
              streamsOf (state c) !! streamID = Some ts'
              \/ (streamsOf (state c) !! streamID = None
                  /\ Mode ts' = tableModeBackfill /\ Scanned ts' = None
                  /\ ScanKey ts' <> []))
        /\ (forall catalogStream,
              catalogStream ∈ streams ->
              exists catalogPrimaryKey ts',
                catalogKeyColumns (airbyte.PrimaryKey catalogStream) [] = Ok catalogPrimaryKey
                /\ let primaryKey :=
                     if bool_decide (catalogPrimaryKey = [])
                     then default [] (dbPrimaryKeys !! catalogStreamID catalogStream)
                     else catalogPrimaryKey in
                   primaryKey <> []
                   /\ streamsOf (state c') !! catalogStreamID catalogStream = Some ts'
                   /\ strings_Join (ScanKey ts') "," = strings_Join primaryKey ",")
    | _ => True
    end.
Proof.
  induction streams as [|catalogStream rest IH]; intros stateDirty c.
  - cbn. split; [reflexivity|]. split; [auto|]. split; [auto|].
    intros cs Hcs. apply elem_of_nil in Hcs. contradiction.
  - cbn [updateStreams]. mrun.
    destruct (catalogKeyColumns _ _) as [catalogPrimaryKey|e| |] eqn:Hkey; mrun; try exact I.
    destruct (bool_decide (_ = [])) eqn:Hempty; mrun; [exact I|].
    apply bool_decide_eq_false in Hempty.
    destruct (streamsOf (state c) !! catalogStreamID catalogStream) as [streamState|] eqn:Hs;
      mrun.
    + destruct (negb _) eqn:Hmatch; mrun; [exact I|].
      apply negb_false_iff, String.eqb_eq in Hmatch.
      specialize (IH stateDirty c).
      destruct (updateStreams dbPrimaryKeys rest stateDirty c) as [[dirty|e| |] c'];
        try exact I.
      destruct IH as (Hlsn & Hkeep & Hnew & Hrest).
      split; [exact Hlsn|]. split; [exact Hkeep|]. split; [exact Hnew|].
      intros cs Hcs. apply elem_of_cons in Hcs as [->|Hcs]; [|apply Hrest, Hcs].
      exists catalogPrimaryKey, streamState. split; [exact Hkey|]. cbv zeta.
      split; [exact Hempty|]. split; [apply Hkeep, Hs|exact Hmatch].
    + match goal with
      | |- context [updateStreams dbPrimaryKeys rest true ?c1] =>
          specialize (IH true c1);
          destruct (updateStreams dbPrimaryKeys rest true c1) as [[dirty|e| |] c']
      end; try exact I.
      cbn [state Streams CurrentLSN] in IH. rewrite streamsOf_mk in IH.
      destruct IH as (Hlsn & Hkeep & Hnew & Hrest).
      split; [exact Hlsn|]. split; [|split].
      * intros streamID ts Hts. apply Hkeep. rewrite lookup_insert_ne; [exact Hts|].
        intros <-. congruence.
      * intros streamID ts' Hts'. destruct (Hnew streamID ts' Hts') as [Hold|Hfresh].
        -- destruct (decide (catalogStreamID catalogStream = streamID)) as [<-|Hne].
           ++ rewrite lookup_insert_eq in Hold. injection Hold as <-.
              right. cbn [Mode Scanned ScanKey]. auto.
           ++ rewrite lookup_insert_ne in Hold by exact Hne. left. exact Hold.
        -- destruct Hfresh as (Hnone & Hfresh). right. split; [|exact Hfresh].
           destruct (decide (catalogStreamID catalogStream = streamID)) as [<-|Hne].
           ++ rewrite lookup_insert_eq in Hnone. discriminate.
           ++ rewrite lookup_insert_ne in Hnone by exact Hne. exact Hnone.
      * intros cs Hcs. apply elem_of_cons in Hcs as [->|Hcs]; [|apply Hrest, Hcs].
        eexists catalogPrimaryKey, _. split; [exact Hkey|]. cbv zeta.
        split; [exact Hempty|].
        split; [apply Hkeep, lookup_insert_eq|reflexivity].
Qed.

Lemma forgetStreams_tables (streams : list airbyte.ConfiguredStream) (stateDirty : bool) c :
  match forgetStreams streams stateDirty c with
  | (Ok _, c') =>
      CurrentLSN (state c') = CurrentLSN (state c)
      /\ forall streamID,
           streamsOf (state c') !! streamID
           = if streamExistsInCatalog streams streamID
             then streamsOf (state c) !! streamID
             else None
  | _ => True
  end.
Proof.
  unfold forgetStreams. mrun.
  destruct (forallb _ _) eqn:Hall; mrun.
  - split; [reflexivity|]. intros streamID.
    destruct (streamExistsInCatalog streams streamID) eqn:Hex; [reflexivity|].
    apply eq_None_not_Some. intros [ts Hts].
    rewrite forallb_forall in Hall. rewrite Hall in Hex; [discriminate|].
    apply list_elem_of_In, list_elem_of_fmap. exists (streamID, ts).
    split; [reflexivity|]. apply elem_of_map_to_list. exact Hts.
  - rewrite streamsOf_mk. split; [reflexivity|]. intros streamID.
    destruct (streamExistsInCatalog streams streamID) eqn:Hex.
    + destruct (streamsOf (state c) !! streamID) as [ts|] eqn:Hts.
      * apply map_lookup_filter_Some. split; assumption.
      * apply map_lookup_filter_None. left. exact Hts.
    + apply map_lookup_filter_None. right. intros ts _. cbn. congruence.
Qed.

(** The steps of an [updateState] that returns without an error. *)
Lemma updateState_steps c c' :
  updateState c = (Ok tt, c') ->
  exists dbPrimaryKeys c0 dirty0 dirty1 c2 dirty2 c3,
    (getPrimaryKeys (connScan c)).1 = Ok dbPrimaryKeys
    /\ streamsOf (state c0) = streamsOf (state c)
    /\ CurrentLSN (state c0) = CurrentLSN (state c)
    /\ updateStreams dbPrimaryKeys (airbyte.Streams (catalog c)) dirty0 c0 = (Ok dirty1, c2)
    /\ forgetStreams (airbyte.Streams (catalog c)) dirty1 c2 = (Ok dirty2, c3)
    /\ state c' = state c3.
Proof.
  unfold updateState. mrun.
  set (start := match Streams (state c) with
                | Some _ => (Ok false, c)
                | None => (Ok true,
                           mkCapture (mkPersistentState (CurrentLSN (state c)) (Some ∅))
                                     (config c) (catalog c) (encoder c) (connScan c)
                                     (replStream c) (changesSinceLastCheckpoint c))
                end).
  assert (Hstart : exists dirty c0,
             start = (Ok dirty, c0) /\ streamsOf (state c0) = streamsOf (state c)
             /\ CurrentLSN (state c0) = CurrentLSN (state c)
             /\ catalog c0 = catalog c /\ connScan c0 = connScan c).
  { subst start. unfold streamsOf. destruct (Streams (state c)) eqn:Hst.
    - exists false, c. rewrite Hst. repeat split.
    - eexists true, _. repeat split. }
  destruct Hstart as (dirty & c0 & Hstart & Hso & Hlsn & Hcat0 & Hconn0).
  replace (match Streams (state c) with
           | Some _ => ret false
           | None => _
           end c) with start
    by (subst start; destruct (Streams (state c)); reflexivity).
  rewrite Hstart. cbn [andThen]. clear start Hstart. rewrite Hconn0.
  destruct (getPrimaryKeys (connScan c)) as [[dbPrimaryKeys|e| |] conn'];
    cbn [fst snd wrapped andThen]; try discriminate.
  rewrite Hcat0. cbn [catalog].
  match goal with
  | |- context [updateStreams dbPrimaryKeys ?streams dirty ?c1] =>
      destruct (updateStreams dbPrimaryKeys streams dirty c1) as [[dirty1|e| |] c2] eqn:Hupd
  end; cbn [andThen]; try discriminate.
  destruct (forgetStreams (airbyte.Streams (catalog c)) dirty1 c2) as [[dirty2|e| |] c3] eqn:Hfor;
    cbn [andThen]; try discriminate.
  intros Hrun.
  match type of Hupd with
  | updateStreams _ _ _ ?c1 = _ => exists dbPrimaryKeys, c1, dirty, dirty1, c2, dirty2, c3
  end.
  split; [reflexivity|]. split; [exact Hso|]. split; [exact Hlsn|].
  split; [exact Hupd|]. split; [exact Hfor|].
  destruct dirty2; mrun_in Hrun.
  - pose proof (emitState_frame (state c3) c3) as (Hst4 & _).
    destruct (emitState (state c3) c3) as [[[]|e| |] c4]; cbn [snd] in *;
      try discriminate; injection Hrun as <-; exact Hst4.
  - injection Hrun as <-. reflexivity.
Qed.

(** X7.  What [updateState] does to the table states when it returns without
    an error: it keeps the table state of every stream of the catalog as it
    is, gives every stream of the catalog that has none a table state in
    Backfill mode with a scan key that is not empty and nothing scanned,
    forgets the table states of the streams that are not in the catalog, and
    leaves the log position alone. *)
Theorem X7_updateState_table_states c c' :
  updateState c = (Ok tt, c') ->
  CurrentLSN (state c') = CurrentLSN (state c)
  /\ (forall catalogStream,
        catalogStream ∈ airbyte.Streams (catalog c) ->
        is_Some (streamsOf (state c') !! catalogStreamID catalogStream))
  /\ (forall streamID ts,
        streamsOf (state c) !! streamID = Some ts ->
        streamsOf (state c') !! streamID
        = if streamExistsInCatalog (airbyte.Streams (catalog c)) streamID
          then Some ts else None)
  /\ (forall streamID ts',
        streamsOf (state c) !! streamID = None ->
        streamsOf (state c') !! streamID = Some ts' ->
        streamExistsInCatalog (airbyte.Streams (catalog c)) streamID = true
        /\ Mode ts' = tableModeBackfill /\ Scanned ts' = None /\ ScanKey ts' <> []).
Proof.
  intros Hrun.
  destruct (updateState_steps c c' Hrun)
    as (pks & c0 & dirty0 & dirty1 & c2 & dirty2 & c3 & _ & Hso & Hlsn & Hupd & Hfor & Hst).
  pose proof (updateStreams_tables pks (airbyte.Streams (catalog c)) dirty0 c0) as Htab.
  rewrite Hupd in Htab. destruct Htab as (Hlsn2 & Hkeep & Hnew & Hkeys).
  pose proof (forgetStreams_tables (airbyte.Streams (catalog c)) dirty1 c2) as Hforget.
  rewrite Hfor in Hforget. destruct Hforget as (Hlsn3 & Hforget).
  rewrite Hst. rewrite Hso in Hkeep, Hnew.
  split; [congruence|]. split; [|split].
  - intros cs Hcs. rewrite Hforget, (streamExistsInCatalog_self _ _ Hcs).
    destruct (Hkeys cs Hcs) as (cpk & ts' & _ & _ & Hts' & _). rewrite Hts'. eauto.
  - intros streamID ts Hts. rewrite Hforget.
    destruct (streamExistsInCatalog _ streamID); [apply Hkeep, Hts|reflexivity].
  - intros streamID ts' Hnone Hts'. rewrite Hforget in Hts'.
    destruct (streamExistsInCatalog _ streamID); [|discriminate].
    split; [reflexivity|].
    destruct (Hnew streamID ts' Hts') as [Hold|(_ & Hfresh)]; [congruence|exact Hfresh].
Qed.


(** X8.  [updateState] returns without an error only when the primary keys
    of the database could be read and every stream of the catalog has a key
    that [updateState] accepts: every element of the key in the catalog
    names one column; the key, which is the one of the catalog when it names
    a column and the one of the database otherwise, is not empty; and its
    comma-joined text is the comma-joined text of the scan key in the table
    state of the stream. *)
Theorem X8_updateState_accepted_keys c c' :
  updateState c = (Ok tt, c') ->
  exists dbPrimaryKeys,
    (getPrimaryKeys (connScan c)).1 = Ok dbPrimaryKeys
    /\ forall catalogStream,
         catalogStream ∈ airbyte.Streams (catalog c) ->
         exists catalogPrimaryKey ts',
           catalogKeyColumns (airbyte.PrimaryKey catalogStream) [] = Ok catalogPrimaryKey
           /\ let primaryKey :=
                if bool_decide (catalogPrimaryKey = [])
                then default [] (dbPrimaryKeys !! catalogStreamID catalogStream)
                else catalogPrimaryKey in
              primaryKey <> []
              /\ streamsOf (state c') !! catalogStreamID catalogStream = Some ts'
              /\ strings_Join (ScanKey ts') "," = strings_Join primaryKey ",".
Proof.
  intros Hrun.
  destruct (updateState_steps c c' Hrun)
    as (pks & c0 & dirty0 & dirty1 & c2 & dirty2 & c3 & Hpks & Hso & Hlsn & Hupd & Hfor & Hst).
  pose proof (updateStreams_tables pks (airbyte.Streams (catalog c)) dirty0 c0) as Htab.
  rewrite Hupd in Htab. destruct Htab as (_ & _ & _ & Hkeys).
  pose proof (forgetStreams_tables (airbyte.Streams (catalog c)) dirty1 c2) as Hforget.
  rewrite Hfor in Hforget. destruct Hforget as (_ & Hforget).
  exists pks. split; [exact Hpks|]. intros cs Hcs.
  destruct (Hkeys cs Hcs) as (cpk & ts' & Hcpk & Hne & Hts' & Hjoin).
  exists cpk, ts'. split; [exact Hcpk|]. cbv zeta. split; [exact Hne|].
  split; [|exact Hjoin].
  rewrite Hst, Hforget, (streamExistsInCatalog_self _ _ Hcs). exact Hts'.
Qed.


(** X9.  Reconciliation is idempotent: after an [updateState] that has
    returned without an error, a second [updateState] changes nothing of the
    state and emits nothing, whatever the database answers then. *)
Theorem X9_updateState_idempotent c c1 :
  updateState c = (Ok tt, c1) ->
  state (updateState c1).2 = state c1
  /\ encoder (updateState c1).2 = encoder c1.
Proof.
  intros Hrun.
  pose proof (updateState_settles c) as Hsettles.
  pose proof (updateState_setup c) as (_ & Hcat & _).
  rewrite Hrun in Hsettles, Hcat. cbn [snd] in Hcat. destruct Hsettles as [Hsettled _].
  rewrite <- Hcat in Hsettled.
  destruct (updateState_settled c1 Hsettled) as (Hst & _ & _ & Henc & _).
  split; assumption.
Qed.


End Reconciliation.

Lemma X7_updateState_table_states_witness :
  let c := Scenario.start (Scenario.tailing [Scenario.streamT])
                          (Scenario.active ["public.t"; "public.gone"] 5) [] in
  let c' := (updateState (DB := Fixture.database 2 Scenario.db []) (Out := Fixture.memory) c).2 in
  CurrentLSN (state c') = CurrentLSN (state c)
  /\ (forall catalogStream,
        catalogStream ∈ airbyte.Streams (catalog c) ->
        is_Some (streamsOf (state c') !! catalogStreamID catalogStream))
  /\ (forall streamID ts,
        streamsOf (state c) !! streamID = Some ts ->
        streamsOf (state c') !! streamID
        = if streamExistsInCatalog (airbyte.Streams (catalog c)) streamID
          then Some ts else None)
  /\ (forall streamID ts',
        streamsOf (state c) !! streamID = None ->
        streamsOf (state c') !! streamID = Some ts' ->
        streamExistsInCatalog (airbyte.Streams (catalog c)) streamID = true
        /\ Mode ts' = tableModeBackfill /\ Scanned ts' = None /\ ScanKey ts' <> []).
Proof.
  apply (X7_updateState_table_states (DB := Fixture.database 2 Scenario.db [])
           (Out := Fixture.memory)).
  vm_compute. reflexivity.
Defined.

Lemma X8_updateState_accepted_keys_witness :
  let c := Scenario.start (Scenario.tailing [Scenario.streamT]) Scenario.fresh [] in
  let c' := (updateState (DB := Fixture.database 2 Scenario.db []) (Out := Fixture.memory) c).2 in
  exists dbPrimaryKeys,
    (getPrimaryKeys (Database := Fixture.database 2 Scenario.db []) (connScan c)).1
    = Ok dbPrimaryKeys
    /\ forall catalogStream,
         catalogStream ∈ airbyte.Streams (catalog c) ->
         exists catalogPrimaryKey ts',
           catalogKeyColumns (airbyte.PrimaryKey catalogStream) [] = Ok catalogPrimaryKey
           /\ let primaryKey :=
                if bool_decide (catalogPrimaryKey = [])
                then default [] (dbPrimaryKeys !! catalogStreamID catalogStream)
                else catalogPrimaryKey in
              primaryKey <> []
              /\ streamsOf (state c') !! catalogStreamID catalogStream = Some ts'
              /\ strings_Join (ScanKey ts') "," = strings_Join primaryKey ",".
Proof.
  apply (X8_updateState_accepted_keys (DB := Fixture.database 2 Scenario.db [])
           (Out := Fixture.memory)).
  vm_compute. reflexivity.
Defined.

Lemma X9_updateState_idempotent_witness :
  let c := Scenario.start (Scenario.tailing [Scenario.streamT]) Scenario.fresh [] in
  let c1 := (updateState (DB := Fixture.database 2 Scenario.db []) (Out := Fixture.memory) c).2 in
  state (updateState (DB := Fixture.database 2 Scenario.db []) (Out := Fixture.memory) c1).2
  = state c1
  /\ encoder (updateState (DB := Fixture.database 2 Scenario.db [])
                          (Out := Fixture.memory) c1).2 = encoder c1.
Proof.
  apply (X9_updateState_idempotent (DB := Fixture.database 2 Scenario.db [])
           (Out := Fixture.memory)
           (Scenario.start (Scenario.tailing [Scenario.streamT]) Scenario.fresh [])).
  vm_compute. reflexivity.
Defined.

(** ** The checkpoints of a run *)

Lemma progressed_refl (ps : PersistentState) : progressed ps ps.
Proof. intros streamID. destruct (streamsOf ps !! streamID); auto. Qed.

Lemma progressed_trans (ps1 ps2 ps3 : PersistentState) :
  progressed ps1 ps2 -> progressed ps2 ps3 -> progressed ps1 ps3.
Proof.
  intros H12 H23 streamID. specialize (H12 streamID). specialize (H23 streamID).
  destruct (streamsOf ps1 !! streamID) as [ts1|], (streamsOf ps2 !! streamID) as [ts2|],
           (streamsOf ps3 !! streamID) as [ts3|]; try contradiction; try exact I.
  destruct H12 as [Hk12 Hm12], H23 as [Hk23 Hm23]. split; [congruence|].
  destruct Hm23 as [Hm23|Hm23]; [|right; exact Hm23].
  destruct Hm12 as [Hm12|Hm12]; [left|right]; congruence.
Qed.

Lemma progressed_ext (ps ps' : PersistentState) :
  Streams ps' = Streams ps -> progressed ps ps'.
Proof.
  intros Hst streamID. unfold streamsOf. rewrite Hst.
  destruct (default ∅ (Streams ps) !! streamID); auto.
Qed.

Lemma checkpoints_app (l1 l2 : list Message) :
  checkpoints (l1 ++ l2) = checkpoints l1 ++ checkpoints l2.
Proof. apply omap_app. Qed.

Lemma chain_move (l : list PersistentState) (ps ps' : PersistentState) :
  StronglySorted progressed (l ++ [ps]) -> progressed ps ps' ->
  StronglySorted progressed (l ++ [ps']).
Proof.
  induction l as [|x l IH]; intros Hl Hstep; cbn [app] in *.
  - repeat constructor.
  - apply StronglySorted_inv in Hl as [Hl Hx]. constructor; [exact (IH Hl Hstep)|].
    apply Forall_app in Hx as [Hx Hps]. apply Forall_app. split; [exact Hx|].
    apply Forall_inv in Hps. constructor; [|constructor].
    exact (progressed_trans _ _ _ Hps Hstep).
Qed.

Lemma chain_emit (l : list PersistentState) (ps : PersistentState) :
  StronglySorted progressed (l ++ [ps]) ->
  StronglySorted progressed ((l ++ [ps]) ++ [ps]).
Proof.
  induction l as [|x l IH]; intros Hl; cbn [app] in *.
  - repeat constructor. apply progressed_refl.
  - apply StronglySorted_inv in Hl as [Hl Hx]. constructor; [exact (IH Hl)|].
    apply Forall_app. split; [exact Hx|].
    apply Forall_app in Hx as [_ Hps]. exact Hps.
Qed.

Lemma chain_init (l : list PersistentState) (ps : PersistentState) :
  StronglySorted progressed (l ++ [ps]) -> StronglySorted progressed l.
Proof.
  induction l as [|x l IH]; intros Hl; cbn [app] in *; [constructor|].
  apply StronglySorted_inv in Hl as [Hl Hx]. constructor; [exact (IH Hl)|].
  apply Forall_app in Hx as [Hx _]. exact Hx.
Qed.

Section Chained.
Context {W RS : Type}.
Context {DB : Database W} {Ops : resultSet.Ops RS} {Codec : TupleCodec}
        {Out : messageOutput}.
Implicit Types (c : @capture W).

Lemma chained_receive (evt : changeEvent) (rest : list changeEvent) :
  invariant chained (receive (W := W) evt rest).
Proof. intros c Hc. exact Hc. Qed.

Lemma chained_onConn (A : Type) (f : W -> outcome A * W) : invariant chained (onConn f).
Proof. intros c Hc. exact Hc. Qed.

Lemma chained_setCurrentLSN (lsn : Z) : invariant chained (setCurrentLSN (W := W) lsn).
Proof.
  intros c Hc. unfold chained in *. unfold setCurrentLSN. mrun.
  apply (chain_move _ _ _ Hc). apply progressed_ext. reflexivity.
Qed.

Lemma chained_handleChangeEvent (evt : changeEvent) :
  invariant chained (handleChangeEvent (W := W) evt).
Proof.
  intros c Hc. unfold chained in *.
  pose proof (handleChangeEvent_frame evt c) as (Hst & _).
  pose proof (handleChangeEvent_encoder evt c) as Henc.
  destruct (handleChangeEvent evt c) as [[[]|e| |] c']; cbn [snd] in *;
    rewrite Hst; try (rewrite Henc; exact Hc).
  destruct Henc as (data & -> & _). rewrite checkpoints_app. cbn. rewrite app_nil_r.
  exact Hc.
Qed.

Lemma chained_emitState c : chained c -> chained (emitState (state c) c).2.
Proof.
  intros Hc. unfold chained in *.
  pose proof (emitState_frame (state c) c) as (Hst & _).
  pose proof (emitState_encoder (state c) c) as Henc.
  destruct (emitState (state c) c) as [[[]|e| |] c']; cbn [snd] in *;
    rewrite Hst, Henc; try exact Hc.
  rewrite checkpoints_app. cbn. apply chain_emit. exact Hc.
Qed.

Lemma chained_alterStream (streamID : string) (f : TableState -> TableState) :
  (forall ts, ScanKey (f ts) = ScanKey ts
              /\ (Mode (f ts) = Mode ts \/ Mode (f ts) = tableModeActive)) ->
  invariant chained (alterStream (W := W) streamID f).
Proof.
  intros Hf c Hc. unfold chained in *. unfold alterStream. mrun.
  destruct (streamsOf (state c) !! streamID) as [ts|] eqn:Hts; mrun; [|exact Hc].
  apply (chain_move _ _ _ Hc). intros s. rewrite streamsOf_mk.
  destruct (decide (streamID = s)) as [<-|Hne].
  - rewrite Hts, lookup_insert_eq. apply Hf.
  - rewrite lookup_insert_ne by exact Hne.
    destruct (streamsOf (state c) !! s); auto.
Qed.

Lemma chained_emitChanges (evts : list changeEvent) :
  invariant chained (emitChanges (W := W) evts).
Proof. apply framed_emitChanges. apply chained_handleChangeEvent. Qed.

Lemma chained_streamToWatermark (watermark : string) (results : RS) :
  invariant chained (streamToWatermark (W := W) watermark results).
Proof.
  apply framed_streamToWatermark;
    auto using chained_receive, chained_setCurrentLSN, chained_handleChangeEvent.
Qed.

Lemma chained_backfillStreams (streams : list string) :
  invariant chained (backfillStreams (W := W) (RS := RS) streams).
Proof. apply framed_backfillStreams. apply chained_onConn. Qed.

Lemma chained_writeWatermark : invariant chained (writeWatermark_ (W := W)).
Proof. apply framed_writeWatermark. apply chained_onConn. Qed.

Lemma chained_streamChangesLoop (events : list changeEvent) :
  invariant chained (streamChangesLoop (W := W) events).
Proof.
  apply framed_streamChangesLoop;
    auto using chained_receive, chained_setCurrentLSN, chained_handleChangeEvent,
               chained_emitState.
Qed.

Lemma chained_emitStreams (streams : list string) (results : RS) :
  invariant chained (emitStreams (W := W) streams results).
Proof.
  induction streams as [|streamID rest IH]; cbn [emitStreams]; invariant_steps;
    auto using chained_emitChanges;
    apply chained_alterStream; intros ts; cbn; auto.
Qed.

Lemma chained_emitBuffered (results : RS) : invariant chained (emitBuffered (W := W) results).
Proof.
  unfold emitBuffered.
  apply invariant_bind; [apply chained_emitStreams|intros _].
  apply framed_checkpoint. exact chained_emitState.
Qed.

Lemma chained_interleave (fuel : nat) :
  forall (watermark : string) (results : RS),
    invariant chained (interleave (W := W) fuel watermark results).
Proof.
  induction fuel as [|fuel IH]; intros watermark results;
    cbn [interleave]; invariant_steps;
    auto using chained_emitBuffered, chained_streamToWatermark, chained_backfillStreams,
               chained_writeWatermark.
Qed.

Lemma chained_streamChanges (fuel : nat) :
  invariant chained (streamChanges (W := W) (RS := RS) fuel).
Proof.
  unfold streamChanges, interleavedBackfill, streaming. invariant_steps;
    auto using chained_interleave, chained_writeWatermark, chained_streamChangesLoop.
Qed.

(** X10.  Whatever the database and the replication log hold, the
    checkpoints that one run of [RunCapture] emits are in step: from an
    earlier checkpoint to a later one no stream gets or loses its table
    state, no scan key changes, and a mode changes to Active only. *)
Theorem X10_RunCapture_checkpoints_progress (fuel : nat) (config : Config)
    (catalog : airbyte.ConfiguredCatalog) (state : PersistentState) :
  StronglySorted progressed
    (checkpoints (RunCapture (W := W) (RS := RS) fuel config catalog state).2).
Proof.
  unfold RunCapture.
  destruct (pgx_Connect _) as [connScan|e| |]; try constructor.
  destruct (pgconn_ParseConfig _); try constructor.
  destruct (pgconn_ConnectConfig _); try constructor.
  destruct (startReplication _ _ _) as [replStream|e| |]; try constructor.
  cbv zeta. unfold wrapErr.
  pose proof (updateState_settles (mkCapture state config catalog [] connScan replStream 0))
    as Hupd.
  destruct (updateState _) as [[[]|e| |] c1]; cbn [wrapped snd encoder] in *;
    try (rewrite Hupd; constructor).
  destruct Hupd as [_ Henc].
  assert (Hc1 : chained c1).
  { unfold chained. destruct Henc as [-> | ->]; cbn.
    - repeat constructor.
    - repeat constructor. apply progressed_refl. }
  pose proof (chained_streamChanges fuel c1 Hc1) as Hrun.
  destruct (streamChanges fuel c1) as [r c2]. cbn [snd] in *.
  exact (chain_init _ _ Hrun).
Qed.

(** X11.  [RunCapture] emits nothing before the state is reconciled: when it
    has emitted anything, both connections were opened and [updateState]
    has returned without an error. *)
Theorem X11_RunCapture_emits_after_reconciliation (fuel : nat) (config : Config)
    (catalog : airbyte.ConfiguredCatalog) (state : PersistentState) :
  (RunCapture (W := W) (RS := RS) fuel config catalog state).2 <> [] ->
  exists connScan replStream c1,
    pgx_Connect (ConnectionURI config) = Ok connScan
    /\ startReplication (SlotName config) (PublicationName config) (CurrentLSN state)
       = Ok replStream
    /\ updateState (mkCapture state config catalog [] connScan replStream 0) = (Ok tt, c1).
Proof.
  unfold RunCapture.
  destruct (pgx_Connect _) as [connScan|e| |];
    try (intros Hout; destruct (Hout eq_refl)).
  destruct (pgconn_ParseConfig _); try (intros Hout; destruct (Hout eq_refl)).
  destruct (pgconn_ConnectConfig _); try (intros Hout; destruct (Hout eq_refl)).
  destruct (startReplication _ _ _) as [replStream|e| |];
    try (intros Hout; destruct (Hout eq_refl)).
  cbv zeta. unfold wrapErr.
  pose proof (updateState_settles (mkCapture state config catalog [] connScan replStream 0))
    as Hupd.
  destruct (updateState _) as [[[]|e| |] c1] eqn:Hrun; cbn [wrapped snd encoder] in *;
    try (intros Hout; destruct (Hout Hupd)).
  intros _. exists connScan, replStream, c1. repeat split. exact Hrun.
Qed.

End Chained.

Lemma X11_RunCapture_emits_after_reconciliation_witness :
  exists connScan replStream c1,
    pgx_Connect (Database := Fixture.snapshot 2 Scenario.db Scenario.quietLog)
                (ConnectionURI Scenario.cfg) = Ok connScan
    /\ startReplication (Database := Fixture.snapshot 2 Scenario.db Scenario.quietLog)
         (SlotName Scenario.cfg) (PublicationName Scenario.cfg)
         (CurrentLSN Scenario.fresh) = Ok replStream
    /\ updateState (DB := Fixture.snapshot 2 Scenario.db Scenario.quietLog)
                   (Out := Fixture.memory)
                   (mkCapture Scenario.fresh Scenario.cfg
                              (Scenario.tailing [Scenario.streamT]) [] connScan replStream 0)
       = (Ok tt, c1).
Proof.
  apply (X11_RunCapture_emits_after_reconciliation
           (DB := Fixture.snapshot 2 Scenario.db Scenario.quietLog)
           (Ops := Fixture.results 2) (Codec := Fixture.codec) (Out := Fixture.memory)
           5 Scenario.cfg (Scenario.tailing [Scenario.streamT]) Scenario.fresh).
  vm_compute. discriminate.
Defined.

(** ** What is emitted, row by row *)

Section Output.
Context {W RS : Type}.
Context {DB : Database W} {Ops : resultSet.Ops RS} {Codec : TupleCodec}
        {Out : messageOutput}.
Implicit Types (c : @capture W).

(** [handleChangeEvent] emits the record of the event, or nothing when it
    fails; it leaves the rest of the capture alone. *)
Lemma handleChangeEvent_record (evt : changeEvent) c :
  let r := handleChangeEvent evt c in
  sameButOutput c r.2
  /\ match r.1 with
     | Ok _ => exists m, encoder r.2 = encoder c ++ [m] /\ recordOf evt m
     | _ => encoder r.2 = encoder c
     end.
Proof.
  cbn zeta. split; [apply handleChangeEvent_frame|].
  pose proof (handleChangeEvent_encoder evt c) as Henc.
  destruct (handleChangeEvent evt c) as [[[]|e| |] c']; cbn [fst snd]; try exact Henc.
  destruct Henc as (data & Henc & Hdata).
  eexists. split; [exact Henc|]. exists data. split; [reflexivity|exact Hdata].
Qed.

(** The loop of [emitBuffered] over the changes of one stream: the records
    of the changes, in order, up to the first that fails. *)
Lemma emitChanges_records (evts : list changeEvent) :
  forall c,
    let r := emitChanges evts c in
    sameButOutput c r.2
    /\ exists handled rows,
         encoder r.2 = encoder c ++ rows
         /\ Forall2 recordOf handled rows
         /\ handled `prefix_of` evts
         /\ (forall a, r.1 = Ok a -> handled = evts).
Proof.
  induction evts as [|evt rest IH]; intros c; cbn zeta.
  - split; [apply sameButOutput_refl|]. exists [], []. cbn. rewrite app_nil_r.
    split; [reflexivity|]. split; [constructor|]. split; [reflexivity|reflexivity].
  - cbn [emitChanges]. mrun.
    pose proof (handleChangeEvent_record evt c) as [Hframe Hrec]. cbn zeta in Hframe, Hrec.
    destruct (handleChangeEvent evt c) as [[[]|e| |] c1]; cbn [fst snd andThen wrapped] in *;
      try (split; [exact Hframe|]; exists [], []; rewrite app_nil_r;
           split; [exact Hrec|]; split; [constructor|];
           split; [apply prefix_nil|discriminate]).
    destruct Hrec as (m & Henc & Hm).
    destruct (IH c1) as (Hframe' & handled & rows & Henc' & Hrows & Hpre & Hall).
    split; [exact (sameButOutput_trans _ _ _ Hframe Hframe')|].
    exists (evt :: handled), (m :: rows).
    split; [rewrite Henc', Henc, <- app_assoc; reflexivity|].
    split; [constructor; assumption|].
    split; [apply prefix_cons, Hpre|].
    intros a Ha. f_equal. exact (Hall a Ha).
Qed.

(** One turn of the streaming loop: the record of the event when it is a
    row event of an Active stream, a checkpoint at most otherwise. *)
Lemma streamChangesTurn_record (evt : changeEvent) c :
  let r := streamChangesTurn evt c in
  Streams (state r.2) = Streams (state c)
  /\ exists new,
       encoder r.2 = encoder c ++ new
       /\ if activeEvent (streamsOf (state c)) evt
          then match r.1 with
               | Ok _ => exists m, new = [m] /\ recordOf evt m
               | _ => new = []
               end
          else records new = [].
Proof.
  cbn zeta. unfold streamChangesTurn, activeEvent, isCommit.
  destruct (String.eqb (Type_ evt) "Commit"); mrun; cbn [negb andb].
  - destruct (0 <? changesSinceLastCheckpoint c); mrun.
    + match goal with
      | |- context [emitState ?ps ?c0] =>
          pose proof (emitState_encoder ps c0) as Henc;
          pose proof (emitState_frame ps c0) as (Hst & _);
          destruct (emitState ps c0) as [[[]|e| |] c']
      end; cbn [snd fst wrapped state encoder] in *; rewrite Hst;
        (split; [reflexivity|]);
        first [ eexists [_]; split; [exact Henc|reflexivity]
              | exists []; rewrite app_nil_r; split; [exact Henc|reflexivity] ].
    + split; [reflexivity|]. exists []. rewrite app_nil_r. split; reflexivity.
  - destruct (streamsOf (state c) !! joinStreamID (Namespace evt) (Table evt)) as [ts|];
      mrun; [|split; [reflexivity|]; exists []; rewrite app_nil_r; split; reflexivity].
    destruct (String.eqb (Mode ts) tableModeActive); mrun;
      [|split; [reflexivity|]; exists []; rewrite app_nil_r; split; reflexivity].
    pose proof (handleChangeEvent_record evt c) as [(Hst & _) Hrec]. cbn zeta in Hst, Hrec.
    destruct (handleChangeEvent evt c) as [[[]|e| |] c']; cbn [fst snd wrapped] in *;
      rewrite Hst; (split; [reflexivity|]);
      try (exists []; rewrite app_nil_r; split; [exact Hrec|reflexivity]).
    destruct Hrec as (m & Henc & Hm). exists [m]. split; [exact Henc|]. eauto.
Qed.

Lemma recordOf_isRecord (evt : changeEvent) (m : Message) : recordOf evt m -> isRecord m = true.
Proof. intros (data & -> & _). reflexivity. Qed.

Lemma streamChangesLoop_records (events : list changeEvent) :
  forall c,
    let r := streamChangesLoop events c in
    exists handled new,
      encoder r.2 = encoder c ++ new
      /\ Forall2 recordOf handled (records new)
      /\ handled `prefix_of` List.filter (activeEvent (streamsOf (state c))) events
      /\ (forall a, r.1 = Ok a ->
                    handled = List.filter (activeEvent (streamsOf (state c))) events).
Proof.
  induction events as [|evt rest IH]; intros c; cbn zeta.
  - exists [], []. cbn. rewrite app_nil_r.
    split; [reflexivity|]. split; [constructor|]. split; [reflexivity|reflexivity].
  - cbn [streamChangesLoop List.filter]. mrun.
    pose proof (streamChangesTurn_record evt (receive evt rest c).2) as [Hst Hturn].
    cbn zeta in Hst, Hturn. unfold receive in Hst at 2, Hturn at 2 3.
    cbn [snd state encoder] in Hst, Hturn. unfold receive in Hst, Hturn.
    destruct Hturn as (new & Henc & Hnew).
    destruct (streamChangesTurn evt _) as [r c1]. cbn [fst snd] in *.
    destruct (IH c1) as (handled & new' & Henc' & Hrows & Hpre & Hall).
    rewrite (streamsOf_ext _ _ Hst) in Hpre, Hall.
    destruct (activeEvent (streamsOf (state c)) evt).
    + destruct r as [[]|e| |]; cbn [andThen fst snd];
        try (subst new; exists [], [];
             split; [exact Henc|]; split; [constructor|];
             split; [apply prefix_nil|discriminate]).
      destruct Hnew as (m & -> & Hm).
      exists (evt :: handled), ([m] ++ new').
      split; [rewrite Henc', Henc, <- app_assoc; reflexivity|].
      split; [|split].
      * rewrite records_app. cbn [records List.filter app].
        rewrite (recordOf_isRecord _ _ Hm). constructor; assumption.
      * apply prefix_cons, Hpre.
      * intros a Ha. f_equal. exact (Hall a Ha).
    + destruct r as [[]|e| |]; cbn [andThen fst snd];
        try (exists [], new; split; [exact Henc|]; rewrite Hnew;
             split; [constructor|]; split; [apply prefix_nil|discriminate]).
      exists handled, (new ++ new').
      split; [rewrite Henc', Henc, <- app_assoc; reflexivity|].
      rewrite records_app, Hnew. cbn [app]. auto.
Qed.

(** X12.  While streaming, the rows that [streamChanges] emits are the
    records of the row events of the streams in Active mode, one for each,
    in the order of the log, up to the first event whose handling fails:
    events of other streams and Commits add no row.  When the loop returns
    without an error, no event of an Active stream has been left out. *)
Theorem X12_streaming_emits_active_events c :
  let r := streaming c in
  let events := replication.Events (replStream c) in
  exists handled new,
    encoder r.2 = encoder c ++ new
    /\ Forall2 recordOf handled (records new)
    /\ handled `prefix_of` List.filter (activeEvent (streamsOf (state c))) events
    /\ (forall a, r.1 = Ok a ->
                  handled = List.filter (activeEvent (streamsOf (state c))) events).
Proof. cbn zeta. unfold streaming. mrun. apply streamChangesLoop_records. Qed.

Lemma streaming_connScan c : connScan (streaming c).2 = connScan c.
Proof.
  unfold streaming, bind, gets. cbn [andThen].
  apply (framed_streamChangesLoop (fun c' => connScan c' = connScan c)).
  - intros evt rest c0 Hc0. exact Hc0.
  - intros lsn c0 Hc0. exact Hc0.
  - intros evt c0 Hc0. destruct (handleChangeEvent_frame evt c0) as (_ & _ & _ & Hconn & _).
    congruence.
  - intros c0 Hc0. destruct (emitState_frame (state c0) c0) as (_ & _ & _ & Hconn & _).
    congruence.
  - reflexivity.
Qed.

(** X13.  With no stream in Backfill mode, [streamChanges] goes to streaming
    at once: it writes no watermark and scans no table, so the scan
    connection is left as it is, and the turns allowed to the first loop
    play no part. *)
Theorem X13_streamChanges_without_pending_streams (fuel : nat) c :
  pendingStreams (state c) = [] ->
  streamChanges (RS := RS) fuel c = streaming c
  /\ connScan (streamChanges (RS := RS) fuel c).2 = connScan c.
Proof.
  intros Hpending.
  assert (Heq : streamChanges (RS := RS) fuel c = streaming c).
  { unfold streamChanges, interleavedBackfill. mrun. rewrite Hpending. reflexivity. }
  split; [exact Heq|]. rewrite Heq. apply streaming_connScan.
Qed.

(** The loop of [emitBuffered] over the buffered streams: the records of
    their changes, stream after stream. *)
Lemma emitStreams_records (results : RS) (streams : list string) :
  forall c,
    let r := emitStreams streams results c in
    exists handled rows,
      encoder r.2 = encoder c ++ rows
      /\ Forall2 recordOf handled rows
      /\ handled `prefix_of` concat (map (resultSet.Changes results) streams)
      /\ (forall a, r.1 = Ok a ->
                    handled = concat (map (resultSet.Changes results) streams)).
Proof.
  induction streams as [|streamID rest IH]; intros c; cbn zeta.
  - exists [], []. cbn. rewrite app_nil_r.
    split; [reflexivity|]. split; [constructor|]. split; [reflexivity|reflexivity].
  - rewrite emitStreams_cons. cbn [map concat].
    pose proof (emitChanges_records (resultSet.Changes results streamID) c)
      as (_ & handled & rows & Henc & Hrows & Hpre & Hall).
    cbn zeta in Henc, Hall.
    destruct (emitChanges _ c) as [[[]|e| |] c1]; cbn [fst snd] in *;
      try (exists handled, rows; split; [exact Henc|]; split; [exact Hrows|];
           split; [apply prefix_app_r, Hpre|discriminate]).
    rewrite (Hall tt eq_refl) in Hrows.
    destruct (streamsOf (state c1) !! streamID) as [ts|].
    + match goal with
      | |- context [emitStreams rest results ?c2] =>
          destruct (IH c2) as (handled' & rows' & Henc' & Hrows' & Hpre' & Hall')
      end.
      cbn [encoder] in Henc'.
      exists (resultSet.Changes results streamID ++ handled'), (rows ++ rows').
      split; [rewrite Henc', Henc; symmetry; apply app_assoc|].
      split; [apply Forall2_app; assumption|].
      split; [apply prefix_app, Hpre'|].
      intros a Ha. f_equal. exact (Hall' a Ha).
    + exists (resultSet.Changes results streamID), rows.
      split; [exact Henc|]. split; [exact Hrows|].
      split; [apply prefix_app_r; reflexivity|discriminate].
Qed.

(** X14.  [emitBuffered] emits every buffered change once: what it has
    emitted when it returns without an error are the records of the changes
    of the buffered streams, stream after stream in the order of
    [results.Streams()] and change after change in the order of
    [results.Changes], followed by the one checkpoint of the state it has
    left.  When it fails, it has emitted the records of some first of these
    changes and no checkpoint. *)
Theorem X14_emitBuffered_emits_buffered_changes (results : RS) c :
  let r := emitBuffered results c in
  let changes := concat (map (resultSet.Changes results) (resultSet.Streams results)) in
  exists handled rows,
    Forall2 recordOf handled rows
    /\ handled `prefix_of` changes
    /\ match r.1 with
       | Ok _ => handled = changes
                 /\ encoder r.2 = encoder c ++ rows ++ [MessageState (state r.2)]
       | _ => encoder r.2 = encoder c ++ rows
       end.
Proof.
  cbn zeta. unfold emitBuffered. mrun.
  destruct (emitStreams_records results (resultSet.Streams results) c)
    as (handled & rows & Henc & Hrows & Hpre & Hall).
  exists handled, rows. split; [exact Hrows|]. split; [exact Hpre|].
  destruct (emitStreams _ results c) as [[[]|e| |] c1]; cbn [fst snd andThen] in *;
    try exact Henc.
  pose proof (emitState_encoder (state c1) c1) as Henc2.
  pose proof (emitState_frame (state c1) c1) as (Hst & _).
  destruct (emitState (state c1) c1) as [[[]|e| |] c2]; cbn [fst snd] in *;
    try (rewrite Henc2; exact Henc).
  split; [exact (Hall tt eq_refl)|].
  rewrite Henc2, Henc, Hst, <- app_assoc. reflexivity.
Qed.

End Output.

Lemma X13_streamChanges_without_pending_streams_witness :
  let c := Scenario.start (Scenario.tailing [Scenario.streamT])
                          (Scenario.active ["public.t"] 5)
                          [Scenario.update "1" "x" 8; Scenario.commit 9] in
  streamChanges (DB := Fixture.database 2 Scenario.db []) (Ops := Fixture.results 2)
                (Codec := Fixture.codec) (Out := Fixture.memory) 0 c
  = streaming (Out := Fixture.memory) c
  /\ connScan (streamChanges (DB := Fixture.database 2 Scenario.db [])
                             (Ops := Fixture.results 2) (Codec := Fixture.codec)
                             (Out := Fixture.memory) 0 c).2 = connScan c.
Proof.
  apply (X13_streamChanges_without_pending_streams
           (DB := Fixture.database 2 Scenario.db []) (Ops := Fixture.results 2)
           (Codec := Fixture.codec) (Out := Fixture.memory)).
  vm_compute. reflexivity.
Defined.

(** ** The first loop of [streamChanges] *)

Section Phase1.
Context {W RS : Type}.
Context {DB : Database W} {Ops : resultSet.Ops RS} {Codec : TupleCodec}
        {Out : messageOutput}.
Implicit Types (c : @capture W).

(** One turn of the drain: the record of the event when the drain emits it
    at once, nothing otherwise; the table states and the channel are left
    alone. *)
Lemma streamToWatermarkTurn_record (watermark : string) (reached : bool)
    (results : RS) (evt : changeEvent) c :
  let r := streamToWatermarkTurn watermark reached results evt c in
  Streams (state r.2) = Streams (state c)
  /\ replStream r.2 = replStream c
  /\ match r.1 with
     | Ok _ =>
         if directEvent (streamsOf (state c)) evt
         then exists m, encoder r.2 = encoder c ++ [m] /\ recordOf evt m
         else encoder r.2 = encoder c
     | _ => encoder r.2 = encoder c
     end.
Proof.
  cbn zeta. unfold streamToWatermarkTurn, directEvent, isCommit.
  destruct (String.eqb (Type_ evt) "Commit"); cbn [negb andb].
  { mrun. destruct reached; cbn [fst snd state Streams]; repeat split. }
  mrun.
  pose proof (handleChangeEvent_record evt c) as [(Hst & _ & _ & _ & Hrepl) Hrec].
  cbn zeta in Hst, Hrepl, Hrec.
  destruct (streamsOf (state c) !! _) as [ts|]; mrun; [|repeat split].
  destruct (String.eqb (Mode ts) tableModeIgnore); mrun; [repeat split|].
  destruct (String.eqb (Mode ts) tableModeActive); mrun.
  { destruct (handleChangeEvent evt c) as [[[]|e| |] c']; cbn [fst snd andThen wrapped] in *;
      rewrite Hst, Hrepl; repeat split; exact Hrec. }
  destruct (negb _); mrun; [repeat split|].
  destruct (encodeRowKey _ _) as [rowKey|e| |]; mrun; try (repeat split; fail).
  destruct (compareTuples _ _ <=? 0); mrun.
  { destruct (handleChangeEvent evt c) as [[[]|e| |] c']; cbn [fst snd andThen wrapped] in *;
      rewrite Hst, Hrepl; repeat split; exact Hrec. }
  destruct (resultSet.Patch _ _ _) as [results'|e| |]; cbn [fst snd]; repeat split.
Qed.

Lemma streamToWatermarkLoop_records (events : list changeEvent) :
  forall (watermark : string) (reached : bool) (results : RS) c,
    replication.Events (replStream c) = events ->
    let r := streamToWatermarkLoop events watermark reached results c in
    Streams (state r.2) = Streams (state c)
    /\ exists consumed handled rows,
         events = consumed ++ replication.Events (replStream r.2)
         /\ encoder r.2 = encoder c ++ rows
         /\ Forall2 recordOf handled rows
         /\ handled `prefix_of` List.filter (directEvent (streamsOf (state c))) consumed
         /\ (forall results', r.1 = Ok results' ->
               handled = List.filter (directEvent (streamsOf (state c))) consumed).
Proof.
  induction events as [|evt rest IH]; intros watermark reached results c Hevents; cbn zeta.
  - cbn. split; [reflexivity|]. exists [], [], [].
    split; [rewrite Hevents; reflexivity|].
    split; [symmetry; apply app_nil_r|]. split; [constructor|].
    split; reflexivity.
  - rewrite streamToWatermarkLoop_cons.
    set (c1 := (receive evt rest c).2).
    assert (Hst1 : state c1 = state c) by reflexivity.
    assert (Henc1 : encoder c1 = encoder c) by reflexivity.
    assert (Hrepl1 : replication.Events (replStream c1) = rest) by reflexivity.
    clearbody c1.
    pose proof (streamToWatermarkTurn_record watermark reached results evt c1)
      as (Hst & Hrepl & Hturn).
    cbn zeta in Hst, Hrepl, Hturn. rewrite Hst1 in Hst, Hturn. rewrite Henc1 in Hturn.
    assert (Hleft : replication.Events
                      (replStream (streamToWatermarkTurn watermark reached results evt c1).2)
                    = rest) by (rewrite Hrepl; exact Hrepl1).
    destruct (streamToWatermarkTurn watermark reached results evt c1)
      as [[[reached' results'|results']|e| |] c2]; cbn [fst snd] in *;
      try (split; [exact Hst|]; exists [evt], [], []; rewrite Hleft, app_nil_r;
           split; [reflexivity|]; split; [exact Hturn|]; split; [constructor|];
           split; [apply prefix_nil|discriminate]).
    + destruct (IH watermark reached' results' c2 Hleft)
        as (Hst' & consumed & handled & rows & Hcons & Henc & Hrows & Hpre & Hall).
      rewrite (streamsOf_ext _ _ Hst) in Hpre, Hall.
      split; [congruence|].
      destruct (directEvent (streamsOf (state c)) evt) eqn:Hdirect.
      * destruct Hturn as (m & Hm & Hrec).
        exists (evt :: consumed), (evt :: handled), (m :: rows).
        split; [rewrite Hcons at 1; reflexivity|].
        split; [rewrite Henc, Hm, <- app_assoc; reflexivity|].
        split; [constructor; assumption|].
        cbn [List.filter]. rewrite Hdirect.
        split; [apply prefix_cons, Hpre|].
        intros res Hres. f_equal. exact (Hall res Hres).
      * exists (evt :: consumed), handled, rows.
        split; [rewrite Hcons at 1; reflexivity|].
        split; [rewrite Henc, Hturn; reflexivity|].
        split; [exact Hrows|].
        cbn [List.filter]. rewrite Hdirect. split; assumption.
    + split; [exact Hst|].
      destruct (directEvent (streamsOf (state c)) evt) eqn:Hdirect.
      * destruct Hturn as (m & Hm & Hrec).
        exists [evt], [evt], [m]. rewrite Hleft.
        split; [reflexivity|]. split; [exact Hm|].
        split; [constructor; [exact Hrec|constructor]|].
        cbn [List.filter]. rewrite Hdirect. split; reflexivity.
      * exists [evt], [], []. rewrite Hleft, app_nil_r.
        split; [reflexivity|]. split; [exact Hturn|]. split; [constructor|].
        cbn [List.filter]. rewrite Hdirect. split; reflexivity.
Qed.

(** X15.  What the drain emits: of the events that [streamToWatermark] has
    taken from the channel, in their order, the records of the row events
    of streams in Active mode and of streams in Backfill mode whose row key
    is not past what has been scanned, one record for each, up to the first
    event that fails; the other events add nothing to the output.  The drain
    leaves the table states as they are. *)
Theorem X15_drain_emits_direct_events (watermark : string) (results : RS) c :
  let r := streamToWatermark watermark results c in
  Streams (state r.2) = Streams (state c)
  /\ exists consumed handled rows,
       replication.Events (replStream c) = consumed ++ replication.Events (replStream r.2)
       /\ encoder r.2 = encoder c ++ rows
       /\ Forall2 recordOf handled rows
       /\ handled `prefix_of` List.filter (directEvent (streamsOf (state c))) consumed
       /\ (forall results', r.1 = Ok results' ->
             handled = List.filter (directEvent (streamsOf (state c))) consumed).
Proof.
  cbn zeta. unfold streamToWatermark. mrun.
  apply streamToWatermarkLoop_records. reflexivity.
Qed.

(** The first loop, when it returns without an error, has left no stream
    pending, and the last thing it has emitted is the checkpoint of the
    state it has left, unless it has not run at all. *)
Lemma interleave_end (fuel : nat) :
  forall (watermark : string) (results : RS) c c',
    interleave fuel watermark results c = (Ok tt, c') ->
    pendingStreams (state c') = []
    /\ (c' = c \/ exists emitted, encoder c' = emitted ++ [MessageState (state c')]).
Proof.
  induction fuel as [|fuel IH]; intros watermark results c c' Hrun.
  - cbn [interleave] in Hrun. mrun_in Hrun.
    destruct (pendingStreams (state c)) eqn:Hp; [|discriminate].
    injection Hrun as <-. auto.
  - rewrite interleave_S in Hrun.
    destruct (pendingStreams (state c)) eqn:Hp.
    { injection Hrun as <-. auto. }
    destruct (streamToWatermark watermark results c) as [[results1|e| |] c1];
      cbn [wrapped andThen] in Hrun; try discriminate.
    pose proof (emitBuffered_checkpoint results1 c1) as Hflush.
    destruct (emitBuffered results1 c1) as [[[]|e| |] c2];
      cbn [wrapped andThen] in Hrun; try discriminate.
    destruct Hflush as ((rows & Henc & _) & _).
    pose proof (backfillStreams_sameButConn (RS := RS) (pendingStreams (state c2)) c2)
      as (Hst3 & _ & _ & Henc3 & _).
    destruct (backfillStreams (pendingStreams (state c2)) c2) as [[results2|e| |] c3];
      cbn [wrapped andThen snd] in *; try discriminate.
    pose proof (writeWatermark_sameButConn c3) as (Hst4 & _ & _ & Henc4 & _).
    destruct (writeWatermark_ c3) as [[watermark'|e| |] c4];
      cbn [wrapped andThen snd] in *; try discriminate.
    destruct (IH watermark' results2 c4 c' Hrun) as [Hdone [->|Hlast]].
    + split; [exact Hdone|]. right. exists (encoder c1 ++ rows).
      rewrite Henc4, Henc3, Henc, Hst4, Hst3, <- app_assoc. reflexivity.
    + split; [exact Hdone|]. right. exact Hlast.
Qed.

(** X16.  When the first half of [streamChanges] returns without an error,
    no stream is in Backfill mode any more, and the capture goes on to
    streaming from a state that it has just emitted as a checkpoint: the
    last message emitted is the checkpoint of the current state, unless no
    stream was pending at the start and nothing has been done. *)
Theorem X16_backfill_ends_with_checkpoint (fuel : nat) c c' :
  interleavedBackfill (RS := RS) fuel c = (Ok tt, c') ->
  pendingStreams (state c') = []
  /\ ((pendingStreams (state c) = [] /\ c' = c)
      \/ exists emitted, encoder c' = emitted ++ [MessageState (state c')]).
Proof.
  unfold interleavedBackfill. mrun.
  destruct (pendingStreams (state c)) as [|pending0 pending] eqn:Hp.
  { intros [= <-]. auto. }
  pose proof (writeWatermark_sameButConn c) as (Hst1 & _).
  destruct (writeWatermark_ c) as [[watermark|e| |] c1];
    cbn [wrapped andThen snd] in *; try discriminate.
  intros Hrun. destruct (interleave_end _ _ _ _ _ Hrun) as [Hdone [->|Hlast]].
  - rewrite Hst1, Hp in Hdone. discriminate.
  - auto.
Qed.

End Phase1.

Lemma X16_backfill_ends_with_checkpoint_witness :
  let c := (updateState (DB := Fixture.snapshot 2 Scenario.db Scenario.quietLog)
                        (Out := Fixture.memory)
                        (Scenario.start (Scenario.tailing [Scenario.streamT]) Scenario.fresh
                                        Scenario.quietLog)).2 in
  let c' := (interleavedBackfill (DB := Fixture.snapshot 2 Scenario.db Scenario.quietLog)
               (Ops := Fixture.results 2) (Codec := Fixture.codec) (Out := Fixture.memory)
               5 c).2 in
  pendingStreams (state c') = []
  /\ ((pendingStreams (state c) = [] /\ c' = c)
      \/ exists emitted, encoder c' = emitted ++ [MessageState (state c')]).
Proof.
  apply (X16_backfill_ends_with_checkpoint
           (DB := Fixture.snapshot 2 Scenario.db Scenario.quietLog)
           (Ops := Fixture.results 2) (Codec := Fixture.codec) (Out := Fixture.memory) 5).
  vm_compute. reflexivity.
Defined.
